(** * Audio tempo and key analysis engine: a shallow embedding

    Sources embedded here:
    - [server/src/lib/audioAnalysis.ts]  (onset-autocorrelation tempo
      estimator, key estimator, analysis cache, orchestrator);
    - [client/src/workers/audioAnalysis.worker.ts]  (beat-tracking tempo
      map, [buildTempoMap]; the key estimate and the message handler);
    - [client/src/utils/audioAnalysis.ts]  (mixing down and resampling);
    - [server/src/index.ts]  (the two routes that serve the analysis).

    Numeric model.  A JavaScript [number] is modelled as an exact rational
    ([Q]): comparisons, sums, products and quotients are the mathematical
    ones, and the rounding of IEEE doubles (and of [Float32Array] stores) is
    not represented.  [NaN] and the infinities have no counterpart, except
    for the [-Infinity] sentinel of the key scorer, which has its own type,
    and where the client code tests a number for finiteness or reads
    outside an array ([Float], and [None] for a sample that is [NaN]).
    A loop that the source can spin forever (octave folding on a
    non-positive value) is modelled with fuel and the result type [run]. *)

From Stdlib Require Import String ZArith QArith Qround Qabs Qminmax Bool List Sorted
  Lia Lqa.
Import ListNotations.

Set Warnings "-register-all,-abstract-large-number".

Open Scope string_scope.
Open Scope list_scope.
Open Scope Q_scope.

(** ** Numbers *)

Module Num.

(** [Math.floor] and [Math.round] (round half up) on a finite number. *)
Definition floor (x : Q) : Z := Qfloor x.
Definition round (x : Q) : Z := Qfloor (x + (1 # 2)).

(** [Math.pow(10, decimals)] for a non-negative integer exponent. *)
Definition pow10 (decimals : nat) : Q := inject_Z (10 ^ Z.of_nat decimals).

(** [a < b], [a <= b], [a > b] as the boolean tests of the source. *)
Definition ltb (a b : Q) : bool := negb (Qle_bool b a).
Definition leb (a b : Q) : bool := Qle_bool a b.
Definition gtb (a b : Q) : bool := ltb b a.

(** [a === b] on numbers. *)
Definition eqb (a b : Q) : bool := Qeq_bool a b.

(** Truthiness of a number: everything but zero. *)
Definition truthy (a : Q) : bool := negb (Qeq_bool a 0).

Definition max (a b : Q) : Q := if ltb a b then b else a.
Definition min (a b : Q) : Q := if ltb b a then b else a.
Definition abs (a : Q) : Q := Qabs a.

(** The four operations.  Each result is kept in lowest terms, so that a
    long accumulation does not pile up common factors; as rationals they
    are the plain sum, difference, product and quotient. *)
Definition add (a b : Q) : Q := Qred (a + b).
Definition sub (a b : Q) : Q := Qred (a - b).
Definition mul (a b : Q) : Q := Qred (a * b).
Definition div (a b : Q) : Q := Qred (a / b).
Definition of_Z (n : Z) : Q := inject_Z n.

End Num.

Declare Scope js_scope.
Delimit Scope js_scope with js.
Arguments Num.add (a b)%_js.
Arguments Num.sub (a b)%_js.
Arguments Num.mul (a b)%_js.
Arguments Num.div (a b)%_js.
Arguments Num.ltb (a b)%_js.
Arguments Num.leb (a b)%_js.
Arguments Num.gtb (a b)%_js.
Arguments Num.eqb (a b)%_js.
Arguments Num.max (a b)%_js.
Arguments Num.min (a b)%_js.
Arguments Num.abs a%_js.
Arguments Num.floor x%_js.
Arguments Num.round x%_js.
Arguments Num.truthy a%_js.
Infix "+" := Num.add : js_scope.
Infix "-" := Num.sub : js_scope.
Infix "*" := Num.mul : js_scope.
Infix "/" := Num.div : js_scope.
Infix "<?" := Num.ltb (at level 70, no associativity) : js_scope.
Infix "<=?" := Num.leb (at level 70, no associativity) : js_scope.
Infix ">?" := Num.gtb (at level 70, no associativity) : js_scope.
Infix "===" := Num.eqb (at level 70, no associativity) : js_scope.

(** [roundTo(value, decimals)]:
    [Math.round(value * factor) / factor] with [factor = 10 ^ decimals]. *)
Definition roundTo (value : Q) (decimals : nat) : Q :=
  let factor := Num.pow10 decimals in
  (Num.of_Z (Num.round (value * factor)) / factor)%js.

(** [modulo(value, mod)]: [((value % mod) + mod) % mod], where [%] is the
    remainder that takes the sign of the dividend. *)
Definition modulo (value mod_ : Z) : Z :=
  Z.rem (Z.rem value mod_ + mod_) mod_.

(** ** Computations that may fail to return

    [Returns a] is a call that comes back with [a]; [Loops] is a call
    whose loop never exits. *)

Inductive run (A : Type) : Type :=
| Returns (a : A)
| Loops.
Arguments Returns {A} a.
Arguments Loops {A}.

Definition run_bind {A B} (m : run A) (k : A -> run B) : run B :=
  match m with
  | Returns a => k a
  | Loops => Loops
  end.

Declare Scope run_scope.
Delimit Scope run_scope with run.
Notation "x <- m ;; k" := (run_bind m (fun x => k))
  (at level 61, m at next level, right associativity) : run_scope.

(** ** Constants of the server analysis *)

Definition SAMPLE_RATE : Q := 22050.
Definition BPM_MIN : Q := 60.
Definition BPM_MAX : Q := 200.
Definition BPM_WINDOW_SECONDS : Q := 30.
Definition BPM_HOP_SECONDS : Q := 15.
Definition BPM_MERGE_TOLERANCE : Q := 2.

Definition KEY_FRAME_SIZE : Z := 4096.
Definition KEY_HOP_SIZE : Z := 2048.
Definition KEY_MIN_FREQ : Q := 60.
Definition KEY_MAX_FREQ : Q := 5000.
Definition KEY_MAX_SECONDS : Q := 120.

(** ** Octave folding *)

(** [while (value < BPM_MIN) value *= 2], with fuel. *)
Fixpoint fold_up (fuel : nat) (value : Q) : option Q :=
  if (value <? BPM_MIN)%js then
    match fuel with
    | O => None
    | S fuel' => fold_up fuel' (value * 2)%js
    end
  else Some value.

(** [while (value > BPM_MAX) value /= 2], with fuel. *)
Fixpoint fold_down (fuel : nat) (value : Q) : option Q :=
  if (value >? BPM_MAX)%js then
    match fuel with
    | O => None
    | S fuel' => fold_down fuel' (value / 2)%js
    end
  else Some value.

Definition normalizeTempo_fuel (fuel : nat) (bpm : Q) : option Q :=
  match fold_up fuel bpm with
  | Some value => fold_down fuel value
  | None => None
  end.

(** A number of iterations that is enough for both loops whenever any
    number is: the doublings needed to pass [BPM_MIN] from [1 / den], and
    the halvings needed to bring [num] under [BPM_MAX]. *)
Definition tempo_fuel (bpm : Q) : nat :=
  Z.to_nat (Z.log2_up (60 * Zpos (Qden bpm)) + Z.log2_up (Z.max 1 (Qnum bpm)) + 8).

(** [normalizeTempo(bpm)].  [Loops] stands for the call that never leaves
    its first loop; see [normalizeTempo_loops_iff]. *)
Definition normalizeTempo (bpm : Q) : run Q :=
  match normalizeTempo_fuel (tempo_fuel bpm) bpm with
  | Some value => Returns value
  | None => Loops
  end.

(** ** Data model ([types.ts]) *)

(** [TempoSegment]; the field [end] is written [end_]. *)
Record TempoSegment : Type := {
  start : Q;
  end_ : Q;
  bpm : Q
}.

Inductive Mode : Type := major | minor.

Record KeyEstimate : Type := {
  tonic : string;
  mode : Mode;
  confidence : Q
}.

(** [SongAnalysis]; its field [bpm] is written [analysis_bpm], [null] is
    [None] and an absent optional field is [None]. *)
Record SongAnalysis : Type := {
  analysis_bpm : option Q;
  bpmSegments : list TempoSegment;
  beatTimestamps : option (list Q);
  key : option KeyEstimate
}.

(** ** Tempo estimator, onset-autocorrelation strategy *)

(** A [Float32Array] of samples is the list of its elements;
    [samples.length] is [Zlength samples] and [samples.subarray(a, b)] is
    [subarray samples a b]. *)
Definition subarray (samples : list Q) (a b : Z) : list Q :=
  firstn (Z.to_nat (b - a)) (skipn (Z.to_nat a) samples).

Definition frameSize : nat := 1024.
Definition hopSize : nat := 512.

(** The inner loop of [estimateTempo]: the energy of the frame that starts
    where [rest] starts.  Every frame the outer loop visits lies inside the
    buffer, so all [frameSize] reads are in range. *)
Definition frame_energy (rest : list Q) : Q :=
  fold_left (fun sum sample => sum + sample * sample)%js (firstn frameSize rest) 0.

(** The outer loop: [rest] is the buffer from [offset] on, and
    [offset += hopSize] drops [hopSize] samples. *)
Fixpoint frame_energies (frameCount : nat) (rest : list Q) : list Q :=
  match frameCount with
  | O => []
  | S n => frame_energy rest :: frame_energies n (skipn hopSize rest)
  end.

(** The positive first difference, [prev] being [energies[i - 1]]. *)
Fixpoint onset_diffs (prev : Q) (energies : list Q) : list Q :=
  match energies with
  | [] => []
  | e :: rest =>
      let diff := (e - prev)%js in
      (if (diff >? 0)%js then diff else 0) :: onset_diffs e rest
  end.

(** The onset signal after the mean has been subtracted and negatives
    clamped. *)
Definition onset_strength (energies : list Q) : list Q :=
  let raw := match energies with
             | [] => []
             | e0 :: rest => onset_diffs e0 rest
             end in
  let total := fold_left Num.add raw 0 in
  let mean := if (0 <? Zlength raw)%Z
              then (total / Num.of_Z (Zlength raw))%js else 0 in
  map (fun value => Num.max 0 (value - mean)%js) raw.

(** [sum] of [onset[i] * onset[i - lag]] for [i] from [lag] to the end. *)
Definition autocorrelation (onset : list Q) (lag : Z) : Q :=
  fold_left (fun sum p => sum + fst p * snd p)%js
            (combine (skipn (Z.to_nat lag) onset) onset) 0.

(** The lag loop, [count] lags from [lag] on; it returns [bestLag]. *)
Fixpoint best_lag_loop (count : nat) (onset : list Q) (lag : Z)
         (bestLag : Z) (bestValue : Q) : Z :=
  match count with
  | O => bestLag
  | S n =>
      let sum := autocorrelation onset lag in
      if (sum >? bestValue)%js
      then best_lag_loop n onset (lag + 1)%Z lag sum
      else best_lag_loop n onset (lag + 1)%Z bestLag bestValue
  end.

Definition minLag (sampleRate : Q) : Z :=
  Z.max 1 (Num.floor ((60 / BPM_MAX) * sampleRate / Num.of_Z (Z.of_nat hopSize))%js).

Definition maxLag (sampleRate : Q) : Z :=
  Num.floor ((60 / BPM_MIN) * sampleRate / Num.of_Z (Z.of_nat hopSize))%js.

Definition bestLag_of (onset : list Q) (sampleRate : Q) : Z :=
  best_lag_loop (Z.to_nat (maxLag sampleRate - minLag sampleRate + 1))
                onset (minLag sampleRate) 0%Z 0.

(** [estimateTempo] from the frame energies on: the onset signal, the
    lag loop and the octave folding. *)
Definition tempoOfEnergies (energies : list Q) (sampleRate : Q) : run (option Q) :=
  let onset := onset_strength energies in
  let bestLag := bestLag_of onset sampleRate in
  if (bestLag =? 0)%Z then Returns None
  else
    let bpm := (60 * sampleRate
                / (Num.of_Z bestLag * Num.of_Z (Z.of_nat hopSize)))%js in
    (value <- normalizeTempo bpm ;; Returns (Some value))%run.

(** [estimateTempo(samples, sampleRate)]; [null] is [None]. *)
Definition estimateTempo (samples : list Q) (sampleRate : Q) : run (option Q) :=
  let len := Zlength samples in
  if (len <? Z.of_nat frameSize * 2)%Z then Returns None
  else
    let frameCount := ((len - Z.of_nat frameSize) / Z.of_nat hopSize + 1)%Z in
    if (frameCount <=? 2)%Z then Returns None
    else tempoOfEnergies (frame_energies (Z.to_nat frameCount) samples) sampleRate.

(** [!bpm] for [bpm : number | null]. *)
Definition falsy (v : option Q) : bool :=
  match v with
  | None => true
  | Some q => negb (Num.truthy q)
  end.

(** The window loop of [buildTempoSegments].  [fuel] bounds the number of
    iterations; the loop condition is tested at every turn and a run out
    of fuel is reported as [Loops]. *)
Fixpoint windows_loop (fuel : nat) (samples : list Q) (sampleRate : Q)
         (windowSamples hopSamples start_ : Z) : run (list TempoSegment) :=
  if (start_ + windowSamples <=? Zlength samples)%Z then
    match fuel with
    | O => Loops
    | S fuel' =>
        let end__ := (start_ + windowSamples)%Z in
        let slice := subarray samples start_ end__ in
        (bpm_ <- estimateTempo slice sampleRate ;;
         rest <- windows_loop fuel' samples sampleRate windowSamples hopSamples
                              (start_ + hopSamples)%Z ;;
         Returns (if falsy bpm_ then rest
                  else match bpm_ with
                       | Some b =>
                           {| start := (Num.of_Z start_ / sampleRate)%js;
                              end_ := (Num.of_Z end__ / sampleRate)%js;
                              bpm := b |} :: rest
                       | None => rest
                       end))%run
    end
  else Returns [].

(** One turn of the loop of [mergeTempoSegments]: [merged] is the array
    built so far and [last] its last element, updated in place. *)
Definition merge_step (merged : list TempoSegment) (segment : TempoSegment)
  : list TempoSegment :=
  match rev merged with
  | [] => [segment]
  | last :: before =>
      if (Num.abs (bpm segment - bpm last) <=? BPM_MERGE_TOLERANCE)%js then
        let lastDuration := (end_ last - start last)%js in
        let nextDuration := (end_ segment - start segment)%js in
        let total := (lastDuration + nextDuration)%js in
        let weighted :=
          ((bpm last * lastDuration + bpm segment * nextDuration) / total)%js in
        rev before ++ [ {| start := start last;
                           end_ := Num.max (end_ last) (end_ segment);
                           bpm := weighted |} ]
      else merged ++ [segment]
  end.

Definition mergeTempoSegments (segments : list TempoSegment) : list TempoSegment :=
  fold_left merge_step segments [].

(** The provisional segments, one per window with a tempo. *)
Definition provisionalSegments (samples : list Q) (sampleRate : Q)
  : run (list TempoSegment) :=
  let windowSamples := Num.floor (sampleRate * BPM_WINDOW_SECONDS)%js in
  let hopSamples := Num.floor (sampleRate * BPM_HOP_SECONDS)%js in
  if ((windowSamples <=? 0) || (hopSamples <=? 0)
      || (Zlength samples <? windowSamples))%Z
  then Returns []
  else windows_loop (S (Z.to_nat (Zlength samples))) samples sampleRate
                    windowSamples hopSamples 0%Z.

(** [buildTempoSegments(samples, sampleRate)]. *)
Definition buildTempoSegments (samples : list Q) (sampleRate : Q)
  : run (list TempoSegment) :=
  (segments <- provisionalSegments samples sampleRate ;;
   Returns (mergeTempoSegments segments))%run.

(** [[...values].sort((a, b) => a - b)]: a stable ascending sort. *)
Fixpoint sort_insert (x : Q) (sorted : list Q) : list Q :=
  match sorted with
  | [] => [x]
  | y :: rest => if (x <? y)%js then x :: sorted else y :: sort_insert x rest
  end.

Definition sort_numbers (values : list Q) : list Q :=
  fold_left (fun sorted x => sort_insert x sorted) values [].

(** [median(values)]. *)
Definition median (values : list Q) : option Q :=
  match values with
  | [] => None
  | _ =>
      let sorted := sort_numbers values in
      let mid := Nat.div (List.length sorted) 2 in
      if Nat.eqb (Nat.modulo (List.length sorted) 2) 0
      then Some ((nth (mid - 1) sorted 0 + nth mid sorted 0) / 2)%js
      else Some (nth mid sorted 0)
  end.

(** [pickOverallBpm(segments)].  Every number of the model is finite, so
    [filter(Number.isFinite)] keeps them all. *)
Definition pickOverallBpm (segments : list TempoSegment) : run (option Q) :=
  match segments with
  | [] => Returns None
  | _ =>
      let values := map bpm segments in
      let medianValue := median values in
      if falsy medianValue then Returns None
      else match medianValue with
           | Some m => (value <- normalizeTempo m ;; Returns (Some value))%run
           | None => Returns None
           end
  end.

(** ** Key estimator *)

(** What the key estimator takes from outside the repository: the
    constants and functions of [Math] it calls, and the transform of the
    [fft.js] package.  [realTransform frame] is the array [spectrum] after
    [fft.realTransform(spectrum, frame)] and [fft.completeSpectrum(spectrum)]:
    real and imaginary parts interleaved, twice as long as [frame]. *)
Class MathLib : Type := {
  PI : Q;
  cos : Q -> Q;
  sqrt : Q -> Q;
  log2 : Q -> Q;
  realTransform : list Q -> list Q
}.

Definition KEY_NAMES : list string :=
  ["C"; "C#"; "D"; "D#"; "E"; "F"; "F#"; "G"; "G#"; "A"; "A#"; "B"]%string.

Definition MAJOR_TEMPLATE : list Q :=
  [6.35; 2.23; 3.48; 2.33; 4.38; 4.09; 2.52; 5.19; 2.39; 3.66; 2.29; 2.88].
Definition MINOR_TEMPLATE : list Q :=
  [6.33; 2.68; 3.52; 5.38; 2.6; 3.53; 2.54; 4.75; 3.98; 2.69; 3.34; 3.17].

(** The running best and runner-up scores start at [-Infinity]. *)
Inductive Score : Type :=
| NegInfinity
| Finite (q : Q).

(** [score > s] for a finite [score]. *)
Definition score_gt (score : Q) (s : Score) : bool :=
  match s with
  | NegInfinity => true
  | Finite q => (score >? q)%js
  end.

Record ScoreState : Type := {
  bestScore : Score;
  secondScore : Score;
  bestIndex : nat;
  bestMode : Mode
}.

(** The body of either scoring loop of [estimateKey], at index [i] of the
    templates of mode [m]. *)
Definition score_step (m : Mode) (st : ScoreState) (i : nat) (score : Q)
  : ScoreState :=
  if score_gt score (bestScore st) then
    {| bestScore := Finite score; secondScore := bestScore st;
       bestIndex := i; bestMode := m |}
  else if score_gt score (secondScore st) then
    {| bestScore := bestScore st; secondScore := Finite score;
       bestIndex := bestIndex st; bestMode := bestMode st |}
  else st.

(** [dot(a, b)] on two arrays of one length. *)
Definition dot (a b : list Q) : Q :=
  fold_left (fun sum p => sum + fst p * snd p)%js (combine a b) 0.

Definition score_loop (m : Mode) (templates : list (list Q))
           (chromaVector : list Q) (st : ScoreState) : ScoreState :=
  fold_left (fun st i => score_step m st i (dot chromaVector (nth i templates [])))
            (seq 0 12) st.

(** The confidence expression of [estimateKey], before rounding. *)
Definition confidence_of (st : ScoreState) : Q :=
  match bestScore st, secondScore st with
  | Finite best, Finite second =>
      if (best >? 0)%js
      then Num.max 0 (Num.min 1 ((best - second) / best)%js)
      else 0
  | _, _ => 0
  end.

(** [chroma[pc] += magnitude]. *)
Fixpoint add_at (pc : nat) (magnitude : Q) (chroma : list Q) : list Q :=
  match chroma, pc with
  | [], _ => []
  | c :: rest, O => (c + magnitude)%js :: rest
  | c :: rest, S n => c :: add_at n magnitude rest
  end.

Section KeyEstimator.

Context {lib : MathLib}.

(** [buildHannWindow(size)]. *)
Definition buildHannWindow (size : nat) : list Q :=
  let denom := Num.of_Z (Z.of_nat size - 1) in
  map (fun i =>
         ((1 # 2) - (1 # 2) * cos ((2 * PI * Num.of_Z (Z.of_nat i)) / denom)%js)%js)
      (seq 0 size).

(** [normalizeVector(values)]. *)
Definition normalizeVector (values : list Q) : option (list Q) :=
  let sumSquares := fold_left (fun sum value => sum + value * value)%js values 0 in
  if negb (Num.truthy sumSquares) then None
  else
    let scale := (1 / sqrt sumSquares)%js in
    Some (map (fun value => value * scale)%js values).

(** [buildTemplates(template)]. *)
Definition buildTemplates (template : list Q) : list (list Q) :=
  match normalizeVector template with
  | None => []
  | Some normalized =>
      map (fun shift =>
             map (fun i => nth (Nat.modulo (i + shift) 12) normalized 0) (seq 0 12))
          (seq 0 12)
  end.

Definition HANN_WINDOW : list Q := buildHannWindow (Z.to_nat KEY_FRAME_SIZE).
Definition MAJOR_TEMPLATES : list (list Q) := buildTemplates MAJOR_TEMPLATE.
Definition MINOR_TEMPLATES : list (list Q) := buildTemplates MINOR_TEMPLATE.

(** The loop over the bins of one spectrum. *)
Definition accumulate_bins (sampleRate : Q) (spectrum chroma : list Q) : list Q :=
  fold_left
    (fun chroma bin =>
       let real := nth (bin * 2) spectrum 0 in
       let imag := nth (bin * 2 + 1) spectrum 0 in
       let magnitude := (real * real + imag * imag)%js in
       let freq := ((Num.of_Z (Z.of_nat bin) * sampleRate)
                    / Num.of_Z KEY_FRAME_SIZE)%js in
       if ((freq <? KEY_MIN_FREQ) || (freq >? KEY_MAX_FREQ))%js then chroma
       else
         let midi := (69 + 12 * log2 (freq / 440)%js)%js in
         let pc := modulo (Num.round midi) 12 in
         add_at (Z.to_nat pc) magnitude chroma)
    (seq 1 (Z.to_nat (KEY_FRAME_SIZE / 2) - 1)) chroma.

(** The loop over the frames; as in [windows_loop], the condition is
    tested at every turn and a run out of fuel is [Loops]. *)
Fixpoint key_frames_loop (fuel : nat) (samples : list Q) (sampleRate : Q)
         (maxSamples start_ : Z) (chroma : list Q) : run (list Q) :=
  if (start_ + KEY_FRAME_SIZE <=? maxSamples)%Z then
    match fuel with
    | O => Loops
    | S fuel' =>
        let frame :=
          map (fun p => (fst p * snd p)%js)
              (combine (subarray samples start_ (start_ + KEY_FRAME_SIZE))
                       HANN_WINDOW) in
        let spectrum := realTransform frame in
        key_frames_loop fuel' samples sampleRate maxSamples
                        (start_ + KEY_HOP_SIZE)%Z
                        (accumulate_bins sampleRate spectrum chroma)
    end
  else Returns chroma.

Definition initial_scores : ScoreState :=
  {| bestScore := NegInfinity; secondScore := NegInfinity;
     bestIndex := 0; bestMode := major |}.

(** The two scoring loops, majors first. *)
Definition score_all (chromaVector : list Q) : ScoreState :=
  score_loop minor MINOR_TEMPLATES chromaVector
             (score_loop major MAJOR_TEMPLATES chromaVector initial_scores).

(** [estimateKey] from the normalised chroma vector on. *)
Definition keyFromChroma (chromaVector : list Q) : KeyEstimate :=
  let st := score_all chromaVector in
  {| tonic := nth (bestIndex st) KEY_NAMES EmptyString;
     mode := bestMode st;
     confidence := roundTo (confidence_of st) 3 |}.

(** [estimateKey(samples, sampleRate)]. *)
Definition estimateKey (samples : list Q) (sampleRate : Q)
  : run (option KeyEstimate) :=
  let maxSamples :=
    Z.min (Zlength samples) (Num.floor (KEY_MAX_SECONDS * sampleRate)%js) in
  if (maxSamples <? KEY_FRAME_SIZE)%Z then Returns None
  else
    (chroma <- key_frames_loop (S (Z.to_nat maxSamples)) samples sampleRate
                               maxSamples 0%Z (repeat 0 12) ;;
     Returns (match normalizeVector chroma with
              | None => None
              | Some chromaVector => Some (keyFromChroma chromaVector)
              end))%run.

(** ** Assembly of the analysis

    [analyze decoded] is the part of [getSongAnalysis] between the decode
    and the cache write: the [SongAnalysis] built from the samples. *)
Definition overallBpm (decoded : list Q) (tempoSegments : list TempoSegment)
  : run (option Q) :=
  (picked <- pickOverallBpm tempoSegments ;;
   match picked with
   | Some value => Returns (Some value)
   | None => estimateTempo decoded SAMPLE_RATE
   end)%run.

Definition roundSegment (segment : TempoSegment) : TempoSegment :=
  {| start := roundTo (start segment) 1;
     end_ := roundTo (end_ segment) 1;
     bpm := roundTo (bpm segment) 1 |}.

Definition analyze (decoded : list Q) : run SongAnalysis :=
  (tempoSegments <- buildTempoSegments decoded SAMPLE_RATE ;;
   bpm_ <- overallBpm decoded tempoSegments ;;
   key_ <- estimateKey decoded SAMPLE_RATE ;;
   Returns {| analysis_bpm := if falsy bpm_ then None
                              else option_map (fun b => roundTo b 1) bpm_;
              bpmSegments := map roundSegment tempoSegments;
              beatTimestamps := None;
              key := key_ |})%run.

End KeyEstimator.

(** ** Values at run time and the cache file

    A value as [JSON.parse] returns it.  An object is the list of its
    properties in order. *)
Inductive JsValue : Type :=
| JNull
| JBool (b : bool)
| JNumber (q : Q)
| JString (s : string)
| JArray (items : list JsValue)
| JObject (props : list (string * JsValue)).

(** A file of the cache directory is represented by what [JSON.parse]
    makes of its text: a value, or a [SyntaxError]. *)
Inductive FileText : Type :=
| Unparseable
| Parses (v : JsValue).

Fixpoint assoc (name : string) (props : list (string * JsValue)) : option JsValue :=
  match props with
  | [] => None
  | (k, v) :: rest => if String.eqb k name then Some v else assoc name rest
  end.

(** The truthiness of a property value; [None] is [undefined]. *)
Definition js_truthy (v : option JsValue) : bool :=
  match v with
  | None => false
  | Some JNull => false
  | Some (JBool b) => b
  | Some (JNumber q) => Num.truthy q
  | Some (JString s) => negb (String.eqb s EmptyString)
  | Some (JArray _) => true
  | Some (JObject _) => true
  end.

(** [v === n] for a property value [v] and a number [n]. *)
Definition strict_eq_number (v : option JsValue) (n : Q) : bool :=
  match v with
  | Some (JNumber q) => (q === n)%js
  | _ => false
  end.

Record Stat : Type := {
  mtimeMs : Q;
  size : Q
}.

(** [AnalysisCache], the payload of a cache file. *)
Record AnalysisCache : Type := {
  audioMtimeMs : Q;
  audioSize : Q;
  analysis : SongAnalysis;
  createdAt : string
}.

(** *** The value [JSON.stringify] writes

    Properties come in the order of the object literals of the source; a
    [null] stays [null] and an absent optional property stays absent. *)
Definition TempoSegment_value (s : TempoSegment) : JsValue :=
  JObject [("start", JNumber (start s)); ("end", JNumber (end_ s));
           ("bpm", JNumber (bpm s))]%string.

Definition Mode_value (m : Mode) : JsValue :=
  match m with
  | major => JString "major"
  | minor => JString "minor"
  end.

Definition KeyEstimate_value (k : KeyEstimate) : JsValue :=
  JObject [("tonic", JString (tonic k)); ("mode", Mode_value (mode k));
           ("confidence", JNumber (confidence k))]%string.

Definition nullable {A} (f : A -> JsValue) (v : option A) : JsValue :=
  match v with
  | Some a => f a
  | None => JNull
  end.

Definition SongAnalysis_value (a : SongAnalysis) : JsValue :=
  JObject ([("bpm", nullable JNumber (analysis_bpm a));
            ("bpmSegments", JArray (map TempoSegment_value (bpmSegments a)))]
           ++ match beatTimestamps a with
              | Some beats => [("beatTimestamps", JArray (map JNumber beats))]
              | None => []
              end
           ++ [("key", nullable KeyEstimate_value (key a))]).

Definition AnalysisCache_value (c : AnalysisCache) : JsValue :=
  JObject [("audioMtimeMs", JNumber (audioMtimeMs c));
           ("audioSize", JNumber (audioSize c));
           ("analysis", SongAnalysis_value (analysis c));
           ("createdAt", JString (createdAt c))]%string.

(** *** The typed view of a parsed value

    [as AnalysisCache] is a cast of the type checker; reading a parsed
    value through the interfaces of [types.ts] is reading each property by
    its name at its declared type. *)
Definition as_number (v : option JsValue) : option Q :=
  match v with
  | Some (JNumber q) => Some q
  | _ => None
  end.

Definition as_string (v : option JsValue) : option string :=
  match v with
  | Some (JString s) => Some s
  | _ => None
  end.

Definition props_of (v : JsValue) : option (list (string * JsValue)) :=
  match v with
  | JObject props => Some props
  | _ => None
  end.

Fixpoint all_some {A} (l : list (option A)) : option (list A) :=
  match l with
  | [] => Some []
  | None :: _ => None
  | Some a :: rest => option_map (cons a) (all_some rest)
  end.

Definition as_array {A} (f : JsValue -> option A) (v : option JsValue)
  : option (list A) :=
  match v with
  | Some (JArray items) => all_some (map f items)
  | _ => None
  end.

(** [number | null]. *)
Definition as_nullable {A} (f : JsValue -> option A) (v : option JsValue)
  : option (option A) :=
  match v with
  | Some JNull => Some None
  | Some w => option_map Some (f w)
  | None => None
  end.

(** An optional property. *)
Definition as_optional {A} (f : option JsValue -> option A) (v : option JsValue)
  : option (option A) :=
  match v with
  | None => Some None
  | Some _ => option_map Some (f v)
  end.

Definition as_TempoSegment (v : JsValue) : option TempoSegment :=
  match props_of v with
  | Some props =>
      match as_number (assoc "start" props), as_number (assoc "end" props),
            as_number (assoc "bpm" props) with
      | Some s, Some e, Some b => Some {| start := s; end_ := e; bpm := b |}
      | _, _, _ => None
      end
  | None => None
  end.

Definition as_Mode (v : option JsValue) : option Mode :=
  match v with
  | Some (JString s) =>
      if String.eqb s "major" then Some major
      else if String.eqb s "minor" then Some minor
      else None
  | _ => None
  end.

Definition as_KeyEstimate (v : JsValue) : option KeyEstimate :=
  match props_of v with
  | Some props =>
      match as_string (assoc "tonic" props), as_Mode (assoc "mode" props),
            as_number (assoc "confidence" props) with
      | Some t, Some m, Some c =>
          Some {| tonic := t; mode := m; confidence := c |}
      | _, _, _ => None
      end
  | None => None
  end.

Definition as_SongAnalysis (v : JsValue) : option SongAnalysis :=
  match props_of v with
  | Some props =>
      match as_nullable (fun w => as_number (Some w)) (assoc "bpm" props),
            as_array as_TempoSegment (assoc "bpmSegments" props),
            as_optional (as_array (fun w => as_number (Some w)))
                        (assoc "beatTimestamps" props),
            as_nullable as_KeyEstimate (assoc "key" props) with
      | Some b, Some segs, Some beats, Some k =>
          Some {| analysis_bpm := b; bpmSegments := segs;
                  beatTimestamps := beats; key := k |}
      | _, _, _, _ => None
      end
  | None => None
  end.

Definition as_AnalysisCache (v : JsValue) : option AnalysisCache :=
  match props_of v with
  | Some props =>
      match as_number (assoc "audioMtimeMs" props),
            as_number (assoc "audioSize" props),
            option_map as_SongAnalysis (assoc "analysis" props),
            as_string (assoc "createdAt" props) with
      | Some m, Some s, Some (Some a), Some c =>
          Some {| audioMtimeMs := m; audioSize := s; analysis := a;
                  createdAt := c |}
      | _, _, _, _ => None
      end
  | None => None
  end.

(** ** The world of the orchestrator *)

Record World : Type := {
  (** [fs.stat(path)]; [None] when it rejects. *)
  audioStat : string -> option Stat;
  (** what the decoder process makes of a file; [None] when it fails. *)
  decoder : string -> option (list Q);
  (** the files under the cache directory; [None] when [readFile] rejects. *)
  cacheFiles : string -> option FileText;
  (** whether [mkdir] and [writeFile] succeed. *)
  cacheWritable : bool;
  (** [new Date().toISOString()]. *)
  now : string;
  (** how many times the decoder has been run. *)
  decodeCalls : nat
}.

(** How an [async] call ends. *)
Inductive Outcome (A : Type) : Type :=
| Resolved (a : A)
| Rejected (error : string)
| Pending.
Arguments Resolved {A} a.
Arguments Rejected {A} error.
Arguments Pending {A}.

Definition Async (A : Type) : Type := World -> Outcome A * World.

Definition ret {A} (a : A) : Async A := fun w => (Resolved a, w).
Definition throw {A} (error : string) : Async A := fun w => (Rejected error, w).

Definition bind {A B} (m : Async A) (k : A -> Async B) : Async B :=
  fun w =>
    match m w with
    | (Resolved a, w') => k a w'
    | (Rejected e, w') => (Rejected e, w')
    | (Pending, w') => (Pending, w')
    end.

(** [try { m } catch { handler }]. *)
Definition try_catch {A} (m : Async A) (handler : Async A) : Async A :=
  fun w =>
    match m w with
    | (Rejected _, w') => handler w'
    | other => other
    end.

Declare Scope async_scope.
Delimit Scope async_scope with async.
Notation "x <- m ;; k" := (bind m (fun x => k))
  (at level 61, m at next level, right associativity) : async_scope.
Notation "m ;;; k" := (bind m (fun _ => k))
  (at level 61, right associativity) : async_scope.

(** A synchronous call that may never return. *)
Definition await_run {A} (m : run A) : Async A :=
  fun w =>
    match m with
    | Returns a => (Resolved a, w)
    | Loops => (Pending, w)
    end.

Definition fs_stat (path : string) : Async Stat :=
  fun w =>
    match audioStat w path with
    | Some st => (Resolved st, w)
    | None => (Rejected "ENOENT", w)
    end.

Definition fs_readFile (path : string) : Async FileText :=
  fun w =>
    match cacheFiles w path with
    | Some text => (Resolved text, w)
    | None => (Rejected "ENOENT", w)
    end.

Definition JSON_parse (text : FileText) : Async JsValue :=
  match text with
  | Parses v => ret v
  | Unparseable => throw "SyntaxError"
  end.

(** [value.name]: a [TypeError] on [null], [undefined] ([None]) on a
    value that has no such property. *)
Definition get_prop (v : JsValue) (name : string) : Async (option JsValue) :=
  match v with
  | JNull => throw "TypeError"
  | JObject props => ret (assoc name props)
  | _ => ret None
  end.

(** [fs.mkdir] then [fs.writeFile] of a text that parses to [v]. *)
Definition fs_writeFile (path : string) (v : JsValue) : Async unit :=
  fun w =>
    if cacheWritable w then
      (Resolved tt,
       {| audioStat := audioStat w;
          decoder := decoder w;
          cacheFiles := fun p => if String.eqb p path then Some (Parses v)
                                 else cacheFiles w p;
          cacheWritable := cacheWritable w;
          now := now w;
          decodeCalls := decodeCalls w |})
    else (Rejected "EACCES", w).

Definition current_time : Async string := fun w => (Resolved (now w), w).

(** [decodeAudioSamples(audioPath)]: it never rejects. *)
Definition decodeAudioSamples (audioPath : string) : Async (option (list Q)) :=
  fun w =>
    (Resolved (decoder w audioPath),
     {| audioStat := audioStat w;
        decoder := decoder w;
        cacheFiles := cacheFiles w;
        cacheWritable := cacheWritable w;
        now := now w;
        decodeCalls := S (decodeCalls w) |}).

(** [getCachePath(cacheDir, songId)]. *)
Definition getCachePath (cacheDir songId : string) : string :=
  (cacheDir ++ "/analysis/" ++ songId ++ ".json")%string.

(** [readCache(cachePath, stat)]. *)
Definition readCache (cachePath : string) (stat : Stat) : Async (option JsValue) :=
  try_catch
    (text <- fs_readFile cachePath ;;
     cached <- JSON_parse text ;;
     cachedMtime <- get_prop cached "audioMtimeMs" ;;
     if strict_eq_number cachedMtime (mtimeMs stat) then
       cachedSize <- get_prop cached "audioSize" ;;
       if strict_eq_number cachedSize (size stat) then
         cachedAnalysis <- get_prop cached "analysis" ;;
         if js_truthy cachedAnalysis then ret cachedAnalysis else ret None
       else ret None
     else ret None)%async
    (ret None).

(** [writeCache(cachePath, stat, analysis)]. *)
Definition writeCache (cachePath : string) (stat : Stat) (analysis_ : SongAnalysis)
  : Async unit :=
  (createdAt_ <- current_time ;;
   let payload := {| audioMtimeMs := mtimeMs stat;
                     audioSize := size stat;
                     analysis := analysis_;
                     createdAt := createdAt_ |} in
   fs_writeFile cachePath (AnalysisCache_value payload))%async.

Record Options : Type := {
  audioPath : string;
  cacheDir : string;
  songId : string;
  force : bool
}.

Section Orchestrator.

Context {lib : MathLib}.

(** [getSongAnalysis] from the decode on. *)
Definition recompute (options : Options) (stat : Stat) : Async (option JsValue) :=
  let cachePath := getCachePath (cacheDir options) (songId options) in
  (decoded <- decodeAudioSamples (audioPath options) ;;
   match decoded with
   | None => ret None
   | Some samples =>
       if (Zlength samples =? 0)%Z then ret None
       else
         analysis_ <- await_run (analyze samples) ;;
         writeCache cachePath stat analysis_ ;;;
         ret (Some (SongAnalysis_value analysis_))
   end)%async.

(** [getSongAnalysis(options)]; [null] is [None]. *)
Definition getSongAnalysis (options : Options) : Async (option JsValue) :=
  (stat <- try_catch (st <- fs_stat (audioPath options) ;; ret (Some st))
                     (ret None) ;;
   match stat with
   | None => ret None
   | Some stat =>
       let cachePath := getCachePath (cacheDir options) (songId options) in
       cached <- (if force options then ret None else readCache cachePath stat) ;;
       match cached with
       | Some value => ret (Some value)
       | None => recompute options stat
       end
   end)%async.

End Orchestrator.

(** ** Tempo map of the beat-tracking strategy
    ([client/src/workers/audioAnalysis.worker.ts]) *)

Module Worker.

Definition BPM_MIN : Q := 40.
Definition BPM_MAX : Q := 208.
Definition MOVING_AVG_WINDOW : nat := 4.
Definition GLITCH_RATIO : Q := 0.3.
Definition SEGMENT_TOLERANCE : Q := 2.

(** [average(values)]. *)
Definition average (values : list Q) : option Q :=
  match values with
  | [] => None
  | _ =>
      let total := fold_left Num.add values 0 in
      Some (total / Num.of_Z (Zlength values))%js
  end.

(** [median(values)]: the same function as the server's. *)
Definition median (values : list Q) : option Q := median values.

(** [values.slice(-n)]. *)
Definition slice_last (n : nat) (values : list Q) : list Q :=
  skipn (length values - n) values.

(** The variables of the first loop of [buildTempoMap]. *)
Record BeatState : Type := {
  intervals : list TempoSegment;
  history : list Q;
  lastStable : option Q
}.

(** [lastStable && Math.abs(smoothed - lastStable) / lastStable > GLITCH_RATIO]. *)
Definition is_glitch (lastStable_ : option Q) (smoothed : Q) : bool :=
  match lastStable_ with
  | None => false
  | Some stable =>
      Num.truthy stable
      && (Num.abs (smoothed - stable) / stable >? GLITCH_RATIO)%js
  end.

(** One turn of the first loop, for the beats [start_ = beats[i - 1]] and
    [end__ = beats[i]]. *)
Definition beat_step (st : BeatState) (start_ end__ : Q) : BeatState :=
  let interval := (end__ - start_)%js in
  if (interval <=? 0)%js then st
  else
    let rawBpm := (60 / interval)%js in
    if ((rawBpm <? BPM_MIN) || (rawBpm >? BPM_MAX))%js then st
    else
      let nextHistory := slice_last MOVING_AVG_WINDOW (history st ++ [rawBpm]) in
      match average nextHistory with
      | None => st
      | Some smoothed =>
          if negb (Num.truthy smoothed) then st
          else if is_glitch (lastStable st) smoothed then st
          else {| intervals := intervals st
                               ++ [ {| start := start_; end_ := end__;
                                       bpm := smoothed |} ];
                  history := nextHistory;
                  lastStable := Some smoothed |}
      end.

Fixpoint beats_loop (prev : Q) (rest : list Q) (st : BeatState) : BeatState :=
  match rest with
  | [] => st
  | beat :: rest' => beats_loop beat rest' (beat_step st prev beat)
  end.

(** The intervals the first loop accepts. *)
Definition acceptedIntervals (beats : list Q) : list TempoSegment :=
  match beats with
  | [] => []
  | first :: rest =>
      intervals (beats_loop first rest
                            {| intervals := []; history := []; lastStable := None |})
  end.

(** One turn of the second loop. *)
Definition merge_step (merged : list TempoSegment) (interval : TempoSegment)
  : list TempoSegment :=
  match rev merged with
  | [] => [interval]
  | last :: before =>
      if (Num.abs (bpm interval - bpm last) <=? SEGMENT_TOLERANCE)%js then
        let lastDuration := (end_ last - start last)%js in
        let nextDuration := (end_ interval - start interval)%js in
        let total := (lastDuration + nextDuration)%js in
        rev before
        ++ [ {| start := start last;
                end_ := end_ interval;
                bpm := ((bpm last * lastDuration + bpm interval * nextDuration)
                        / total)%js |} ]
      else merged ++ [interval]
  end.

Definition mergeIntervals (intervals_ : list TempoSegment) : list TempoSegment :=
  fold_left merge_step intervals_ [].

(** The last segment is stretched to the end of the track. *)
Definition extendLast (merged : list TempoSegment) (duration : Q)
  : list TempoSegment :=
  match rev merged with
  | [] => merged
  | last :: before =>
      if (duration >? end_ last)%js
      then rev before ++ [ {| start := start last; end_ := duration;
                              bpm := bpm last |} ]
      else merged
  end.

(** [buildTempoMap(beats, duration)]: the segments and the overall bpm. *)
Definition buildTempoMap (beats : list Q) (duration : Q)
  : list TempoSegment * option Q :=
  let merged := extendLast (mergeIntervals (acceptedIntervals beats)) duration in
  (merged, median (map bpm merged)).

(** The ticks the message handler keeps. *)
Definition keptTicks (ticks : list Q) (duration : Q) : list Q :=
  filter (fun tick => (0 <=? tick)%js && (tick <=? duration + 0.25)%js) ticks.


End Worker.

From Stdlib Require Import Permutation.

(** ** Numbers that may not be finite

    Where the source tests a number for finiteness, the number is one of
    these: [NaN], an infinity, or a finite number. *)
Inductive Float : Type :=
| NaN
| PositiveInfinity
| NegativeInfinity
| Number (q : Q).

(** [Math.min(a, b)] and [Math.max(a, b)]. *)
Definition Math_min (a b : Float) : Float :=
  match a, b with
  | NaN, _ | _, NaN => NaN
  | NegativeInfinity, _ | _, NegativeInfinity => NegativeInfinity
  | PositiveInfinity, x | x, PositiveInfinity => x
  | Number p, Number q => Number (Num.min p q)
  end.

Definition Math_max (a b : Float) : Float :=
  match a, b with
  | NaN, _ | _, NaN => NaN
  | PositiveInfinity, _ | _, PositiveInfinity => PositiveInfinity
  | NegativeInfinity, x | x, NegativeInfinity => x
  | Number p, Number q => Number (Num.max p q)
  end.

(** ** The message handler of the worker
    ([client/src/workers/audioAnalysis.worker.ts])

    The beat detector and the key extractor belong to the [essentia.js]
    package; what they hand back is an input of the model. *)

Module WorkerMessage.

(** The value of [rhythm?.ticks]: nothing, numbers, or a vector that
    [vectorToArray] turns into numbers or fails to convert. *)
Inductive Ticks : Type :=
| NoTicks
| TickArray (items : list Float)
| TickVector (converted : option (list Float)).

Definition finite_items (items : list Float) : list Q :=
  flat_map (fun item => match item with
                        | Number q => [q]
                        | _ => []
                        end) items.

(** [toNumberArray(value, helper)]. *)
Definition toNumberArray (value : Ticks) : list Q :=
  match value with
  | NoTicks => []
  | TickArray items => finite_items items
  | TickVector (Some items) => finite_items items
  | TickVector None => []
  end.

(** The result of [helper.KeyExtractor]; a strength that is not of type
    number is [None]. *)
Record KeyExtractorResult : Type := {
  result_key : string;
  result_scale : string;
  firstToSecondRelativeStrength : option Float;
  strength : option Float
}.

(** A call of the extractor: it throws, or returns a result, which may
    be [null]. *)
Inductive KeyExtractorCall : Type :=
| KeyThrows
| KeyReturns (result : option KeyExtractorResult).

Definition clamp_unit (x : Float) : Float := Math_max (Number 0) (Math_min (Number 1) x).

(** [estimateKey(helper, signalVector, sampleRate)], given what the call
    of the extractor comes to. *)
Definition estimateKey (call : KeyExtractorCall) : option KeyEstimate :=
  match call with
  | KeyThrows => None
  | KeyReturns None => None
  | KeyReturns (Some result) =>
      if String.eqb (result_key result) EmptyString
         || String.eqb (result_scale result) EmptyString
      then None
      else
        let mode_ := if String.eqb (result_scale result) "minor"
                     then minor else major in
        let confidence_ :=
          match firstToSecondRelativeStrength result with
          | Some value => clamp_unit value
          | None =>
              match strength result with
              | Some value => clamp_unit value
              | None => Number 0
              end
          end in
        Some {| tonic := result_key result;
                mode := mode_;
                confidence :=
                  match confidence_ with
                  | Number q => (Num.of_Z (Num.round (q * 1000)) / 1000)%js
                  | _ => 0
                  end |}
  end.

Record AnalyzeMessage : Type := {
  message_type : string;
  requestId : Z;
  message_songId : string;
  samples : list Q;
  sampleRate : Q;
  duration : Q
}.

Record AnalyzeResponse : Type := {
  response_type : string;
  response_requestId : Z;
  response_songId : string;
  response_analysis : option SongAnalysis;
  response_error : option string
}.

(** What the calls of the library come to for one message: the beat
    detector (or the set-up before it) throws, with the message of the
    error if it is an [Error], or it hands back ticks; and the call of the
    key extractor. *)
Inductive RhythmCall : Type :=
| RhythmThrows (message : option string)
| RhythmReturns (ticks : Ticks).

(** [self.onmessage]: the response posted, if any. *)
Definition onmessage (data : option AnalyzeMessage) (rhythm : RhythmCall)
           (keyCall : KeyExtractorCall) : option AnalyzeResponse :=
  match data with
  | None => None
  | Some data =>
      if negb (String.eqb (message_type data) "analyze") then None
      else
        match rhythm with
        | RhythmThrows message =>
            Some {| response_type := "analysis";
                    response_requestId := requestId data;
                    response_songId := message_songId data;
                    response_analysis := None;
                    response_error :=
                      Some match message with
                           | Some text => text
                           | None => "Analysis failed"
                           end |}
        | RhythmReturns ticks =>
            let beats := Worker.keptTicks (toNumberArray ticks) (duration data) in
            let '(segments, bpm_) := Worker.buildTempoMap beats (duration data) in
            let key_ := estimateKey keyCall in
            Some {| response_type := "analysis";
                    response_requestId := requestId data;
                    response_songId := message_songId data;
                    response_analysis :=
                      Some {| analysis_bpm :=
                                if falsy bpm_ then None
                                else option_map
                                       (fun b => (Num.of_Z (Num.round (b * 10)) / 10)%js)
                                       bpm_;
                              bpmSegments :=
                                map (fun segment =>
                                       {| start := (Num.of_Z (Num.round (start segment * 10)) / 10)%js;
                                          end_ := (Num.of_Z (Num.round (end_ segment * 10)) / 10)%js;
                                          bpm := (Num.of_Z (Num.round (bpm segment * 10)) / 10)%js |})
                                    segments;
                              beatTimestamps := Some beats;
                              key := key_ |};
                    response_error := None |}
        end
  end.

End WorkerMessage.

(** ** Decoding in the browser ([client/src/utils/audioAnalysis.ts])

    The fallback path of [decodeAudioToMono], taken where there is no
    [OfflineAudioContext]: the channels are mixed down and resampled. *)

Module ClientAudio.

Definition TARGET_SAMPLE_RATE : Q := 44100.

(** An [AudioBuffer]: [channelData] holds the arrays that
    [getChannelData] returns. *)
Record AudioBuffer : Type := {
  numberOfChannels : nat;
  buffer_length : nat;
  buffer_sampleRate : Q;
  channelData : list (list Q)
}.

Definition getChannelData (buffer : AudioBuffer) (channel : nat) : list Q :=
  nth channel (channelData buffer) [].

(** [mixToMono(buffer)].  The platform gives every channel [length]
    samples, so that the reads [data[i]] are in range. *)
Definition mixToMono (buffer : AudioBuffer) : list Q :=
  if Nat.eqb (numberOfChannels buffer) 1 then getChannelData buffer 0
  else
    let mono :=
      fold_left
        (fun mono channel =>
           let data := getChannelData buffer channel in
           map (fun i => (nth i mono 0 + nth i data 0)%js)
               (seq 0 (buffer_length buffer)))
        (seq 0 (numberOfChannels buffer))
        (repeat 0 (buffer_length buffer)) in
    let scale := (1 / Num.of_Z (Z.of_nat (numberOfChannels buffer)))%js in
    map (fun value => (value * scale)%js) mono.

(** [input[index]]: [None] is [undefined], outside the array. *)
Definition sample_at (input : list Q) (index : Z) : option Q :=
  if (index <? 0)%Z then None else nth_error input (Z.to_nat index).

(** [resampleLinear(input, sourceRate, targetRate)] for positive rates.
    A sample of the output is [None] when it is [NaN], which a read
    outside the input makes it. *)
Definition resampleLinear (input : list Q) (sourceRate targetRate : Q)
  : list (option Q) :=
  if (sourceRate === targetRate)%js then map Some input
  else
    let ratio := (sourceRate / targetRate)%js in
    let newLength := Z.max 1 (Num.round (Num.of_Z (Zlength input) / ratio)%js) in
    map (fun i =>
           let position := (Num.of_Z (Z.of_nat i) * ratio)%js in
           let left := Num.floor position in
           let right := Z.min (left + 1) (Zlength input - 1) in
           let weight := (position - Num.of_Z left)%js in
           match sample_at input left, sample_at input right with
           | Some l, Some r => Some (l + (r - l) * weight)%js
           | _, _ => None
           end)
        (seq 0 (Z.to_nat newLength)).

(** The samples [decodeAudioToMono] returns on the fallback path. *)
Definition fallbackSamples (decoded : AudioBuffer) : list (option Q) :=
  resampleLinear (mixToMono decoded) (buffer_sampleRate decoded) TARGET_SAMPLE_RATE.

End ClientAudio.

(** ** The routes that serve the analysis ([server/src/index.ts]) *)

Module Routes.

(** What the routes read of a [SongRecord]; an absent [audioFile] is
    [None]. *)
Record SongRecord : Type := {
  song_id : string;
  hasAudio : bool;
  audioFile : option string
}.

Record Config : Type := {
  librarySongsDir : string;
  config_cacheDir : string
}.

(** [res.status(status).json(body)]. *)
Record Response : Type := {
  status : Z;
  body : JsValue
}.

Definition error_body (message : string) : JsValue :=
  JObject [("error", JString message)].

(** A query parameter that is ["1"] or ["true"]; [None] is a parameter
    that is absent or not a string. *)
Definition flag (param : option string) : bool :=
  match param with
  | Some text => String.eqb text "1" || String.eqb text "true"
  | None => false
  end.

(** [value] for an [audioFile] that is truthy. *)
Definition truthy_file (file : option string) : option string :=
  match file with
  | Some name => if String.eqb name EmptyString then None else Some name
  | None => None
  end.


Section Handlers.

Context {lib : MathLib}.

(** The configuration, the index ([indexState.byId.get]), the path
    resolver of [safePath.ts] ([None] when it throws) and the detail
    of a song in the language asked for ([toDetail] after
    [normalizeLang]) are given. *)
Variable config : Config.
Variable byId : string -> option SongRecord.
Variable resolveWithinRoot : string -> string -> string -> option string.
Variable detailOf : SongRecord -> option string -> list (string * JsValue).

(** [GET /api/songs/:id/analysis]. *)
Definition analysisRoute (id : string) (refresh : option string) : Async Response :=
  match byId id with
  | None => ret {| status := 404; body := error_body "Audio not available" |}
  | Some song =>
      match (if hasAudio song then truthy_file (audioFile song) else None) with
      | None => ret {| status := 404; body := error_body "Audio not available" |}
      | Some file =>
          match resolveWithinRoot (librarySongsDir config) (song_id song) file with
          | None => ret {| status := 400; body := error_body "Invalid path" |}
          | Some audioPath_ =>
              (analysis_ <- getSongAnalysis
                              {| audioPath := audioPath_;
                                 cacheDir := config_cacheDir config;
                                 songId := song_id song;
                                 force := flag refresh |} ;;
               match analysis_ with
               | Some value =>
                   if js_truthy (Some value)
                   then ret {| status := 200; body := value |}
                   else ret {| status := 503;
                               body := error_body "Analysis unavailable" |}
               | None => ret {| status := 503;
                                body := error_body "Analysis unavailable" |}
               end)%async
          end
      end
  end.


End Handlers.

End Routes.

(** ** Properties of segment lists *)

Definition well_formed (s : TempoSegment) : Prop := start s < end_ s.

Definition in_range (lo hi : Q) (s : TempoSegment) : Prop :=
  lo <= bpm s /\ bpm s <= hi.

(** [b] comes after [a]: it starts later, ends later, and reaches back
    into [a] by [overlap] seconds at most. *)
Definition follows (overlap : Q) (a b : TempoSegment) : Prop :=
  start a < start b /\ end_ a < end_ b /\ end_ a - overlap <= start b.

(** Two segments in order of [start] that do not overlap. *)
Definition disjoint_in_order (a b : TempoSegment) : Prop :=
  start a <= start b /\ end_ a <= start b.

(** Two tempos more than the merge tolerance apart. *)
Definition tempo_apart (a b : TempoSegment) : Prop :=
  BPM_MERGE_TOLERANCE < Qabs (bpm b - bpm a).

(** The invariant of the data model: every segment has [start < end], the
    segments are ordered by [start] and pairwise disjoint, and the tempos
    of two consecutive segments are more than the merge tolerance apart. *)
Definition segment_invariant (segments : list TempoSegment) : Prop :=
  Forall well_formed segments
  /\ StronglySorted disjoint_in_order segments
  /\ Sorted tempo_apart segments.

(** ** The confidence of the key, as the specification words it *)



(** [clamp(x, 0, 1)]. *)
Definition clamp01 (x : Q) : Q := Num.max 0 (Num.min 1 x).


(** ** Concrete inputs *)

(** A stand-in for the numeric library, with rational values, to run the
    estimator on concrete buffers: the cosine is taken to be 0 (a flat
    window), the square root is three Newton steps, the logarithm is
    rounded down to an integer, and the transform hands the frame back as
    real parts. *)
Fixpoint newton_sqrt (steps : nat) (x guess : Q) : Q :=
  match steps with
  | O => guess
  | S n => newton_sqrt n x ((guess + x / guess) / 2)%js
  end.

Definition floor_log2 (x : Q) : Q :=
  (Num.of_Z (Z.log2 (Num.floor (x * 4096))) - 12)%js.

Definition real_parts (frame : list Q) : list Q :=
  flat_map (fun x => [x; 0]) frame.

Definition stand_in : MathLib :=
  {| PI := 355 # 113;
     cos := fun _ => 0;
     sqrt := fun x => newton_sqrt 3 x 1;
     log2 := floor_log2;
     realTransform := real_parts |}.

Definition zeros (n : Z) : list Q := repeat 0 (Z.to_nat n).

(** One click, then silence, over [blocks] hops of 512 samples. *)
Definition click_period (amplitude : Q) (blocks : Z) : list Q :=
  amplitude :: zeros (blocks * 512 - 1).

(** 7680 samples, about a third of a second: two clicks, twelve hops
    apart. *)
Definition two_clicks : list Q :=
  zeros 1024 ++ click_period 1 12 ++ click_period 1 1.

(** A buffer of [len] samples that is silent but for some impulses, given
    by position and value in increasing order of position:
    [render pos impulses len] is the buffer from the sample at [pos] on,
    when [impulses] are those at [pos] or later. *)
Fixpoint render (pos : Z) (impulses : list (Z * Q)) (len : Z) : list Q :=
  match impulses with
  | [] => zeros (len - pos)
  | (p, v) :: rest => zeros (p - pos) ++ v :: render (p + 1) rest len
  end.

(** [count] impulses of one amplitude, the first at sample [first], one
    every [period] hops of 512 samples. *)
Definition train (amplitude : Q) (first period : Z) (count : nat) : list (Z * Q) :=
  map (fun k => ((first + Z.of_nat k * period * 512)%Z, amplitude)) (seq 0 count).

(** 75 seconds (1653750 samples) in five stretches of 15 seconds: clicks
    every 43 hops, silence, clicks every 41 hops, louder clicks every 42
    hops, silence. *)
Definition drifting_impulses : list (Z * Q) :=
  train 1 0 43 15 ++ train 1 661500 41 15 ++ train 2 992250 42 15.

Definition drifting_track : list Q := render 0 drifting_impulses 1653750.



(** Two windows of the specification's merge scenario. *)
Definition window_a : TempoSegment := {| start := 0; end_ := 30; bpm := 119.4 |}.
Definition window_b : TempoSegment := {| start := 15; end_ := 45; bpm := 120.6 |}.

(** A song, the stat of its audio file, and worlds that differ by the
    cache file of the song. *)
Definition song : Options :=
  {| audioPath := "/music/song.mp3"; cacheDir := "/cache"; songId := "song";
     force := false |}.

Definition song_stat : Stat := {| mtimeMs := 1700000000000; size := 7340032 |}.

Definition world_with (file : option FileText) (statOk : bool) : World :=
  {| audioStat := fun path =>
       if statOk && String.eqb path "/music/song.mp3" then Some song_stat
       else None;
     decoder := fun _ => Some two_clicks;
     cacheFiles := fun path =>
       if String.eqb path "/cache/analysis/song.json" then file else None;
     cacheWritable := true;
     now := "2024-01-01T00:00:00.000Z";
     decodeCalls := 0 |}.

Definition stored_analysis : SongAnalysis :=
  {| analysis_bpm := Some 120;
     bpmSegments := [ {| start := 0; end_ := 45; bpm := 120 |} ];
     beatTimestamps := None;
     key := Some {| tonic := "C"; mode := major; confidence := 0.25 |} |}.

Definition stored_entry : AnalysisCache :=
  {| audioMtimeMs := 1700000000000; audioSize := 7340032;
     analysis := stored_analysis; createdAt := "2023-12-31T00:00:00.000Z" |}.

(** A cache file that parses, carries the stat of the audio file, and
    has a string where the analysis should be. *)
Definition malformed_entry : JsValue :=
  JObject [("audioMtimeMs", JNumber 1700000000000);
           ("audioSize", JNumber 7340032);
           ("analysis", JString "garbage");
           ("createdAt", JString "2023-12-31T00:00:00.000Z")].

(** A world whose decoder hands back 5001 samples of silence. *)
Definition silent_world : World :=
  {| audioStat := fun _ => Some song_stat;
     decoder := fun _ => Some (repeat 0 5001);
     cacheFiles := fun _ => None;
     cacheWritable := true;
     now := "2024-01-01T00:00:00.000Z";
     decodeCalls := 0 |}.

Definition silent_analysis : SongAnalysis :=
  {| analysis_bpm := None; bpmSegments := []; beatTimestamps := None;
     key := None |}.

(** ** Definitions for the proofs *)

(** [2 ^ n] as a number. *)
Definition two_to (n : nat) : Q := inject_Z (2 ^ Z.of_nat n).


(** *** Merging: a recursive reading of the loop

    [merge_into last rest] is what the loop of [mergeTempoSegments] leaves
    after [last], the last element of the array, when [rest] is still to
    come. *)

Definition merge_pair (last segment : TempoSegment) : TempoSegment :=
  let lastDuration := (end_ last - start last)%js in
  let nextDuration := (end_ segment - start segment)%js in
  let total := (lastDuration + nextDuration)%js in
  {| start := start last;
     end_ := Num.max (end_ last) (end_ segment);
     bpm := ((bpm last * lastDuration + bpm segment * nextDuration) / total)%js |}.

Definition within_tolerance (last segment : TempoSegment) : bool :=
  (Num.abs (bpm segment - bpm last) <=? BPM_MERGE_TOLERANCE)%js.

Fixpoint merge_into (last : TempoSegment) (rest : list TempoSegment)
  : list TempoSegment :=
  match rest with
  | [] => [last]
  | segment :: rest' =>
      if within_tolerance last segment
      then merge_into (merge_pair last segment) rest'
      else last :: merge_into segment rest'
  end.


(** The provisional segments: one per window, at sample offsets that grow
    by a hop at least, each with a tempo in the range. *)
Inductive provisional (sampleRate : Q) (windowSamples hopSamples : Z)
  : Z -> list TempoSegment -> Prop :=
| provisional_nil from : provisional sampleRate windowSamples hopSamples from []
| provisional_cons from s b rest :
    (from <= s)%Z ->
    BPM_MIN <= b -> b <= BPM_MAX ->
    provisional sampleRate windowSamples hopSamples (s + hopSamples) rest ->
    provisional sampleRate windowSamples hopSamples from
      ({| start := Num.div (Num.of_Z s) sampleRate;
          end_ := Num.div (Num.of_Z (s + windowSamples)) sampleRate;
          bpm := b |} :: rest).


(** By how many seconds two consecutive windows overlap. *)
Definition window_overlap (sampleRate : Q) (w h : Z) : Q :=
  (inject_Z w - inject_Z h) / sampleRate.


(** *** Silence *)

Definition all_zero (l : list Q) : Prop := Forall (fun x => x == 0) l.

(** The one fact about the transform that silence needs: it takes the
    zero frame to the zero spectrum. *)
Definition zero_preserving (lib : MathLib) : Prop :=
  forall frame, all_zero frame -> all_zero (realTransform frame).




(** What a read of the cache comes to, given the file found at the path
    ([None]: no readable file). *)
Definition cache_lookup (file : option FileText) (stat : Stat) : option JsValue :=
  match file with
  | Some (Parses (JObject props)) =>
      if strict_eq_number (assoc "audioMtimeMs" props) (mtimeMs stat)
         && strict_eq_number (assoc "audioSize" props) (size stat)
         && js_truthy (assoc "analysis" props)
      then assoc "analysis" props
      else None
  | _ => None
  end.


(** *** The tempo map of the beat-tracking strategy *)

Module WorkerAux.

Import Worker.

Definition rate_in_range (r : Q) : Prop := BPM_MIN <= r /\ r <= BPM_MAX.

(** [b] starts where [a] has ended, or later. *)
Definition after (a b : TempoSegment) : Prop := end_ a <= start b.

(** The invariant of the first loop, [prev] being the beat the next turn
    starts from. *)
Record beat_invariant (st : BeatState) (prev : Q) : Prop := {
  history_in_range : Forall rate_in_range (history st);
  intervals_well_formed : Forall well_formed (intervals st);
  intervals_in_range : Forall (in_range BPM_MIN BPM_MAX) (intervals st);
  intervals_in_order : StronglySorted after (intervals st);
  intervals_before : Forall (fun a => end_ a <= prev) (intervals st)
}.

(** The recursive reading of the second loop. *)
Definition merge_pair (last interval : TempoSegment) : TempoSegment :=
  let lastDuration := (end_ last - start last)%js in
  let nextDuration := (end_ interval - start interval)%js in
  let total := (lastDuration + nextDuration)%js in
  {| start := start last;
     end_ := end_ interval;
     bpm := ((bpm last * lastDuration + bpm interval * nextDuration) / total)%js |}.

Definition within_tolerance (last interval : TempoSegment) : bool :=
  (Num.abs (bpm interval - bpm last) <=? SEGMENT_TOLERANCE)%js.

Fixpoint merge_into (last : TempoSegment) (rest : list TempoSegment)
  : list TempoSegment :=
  match rest with
  | [] => [last]
  | interval :: rest' =>
      if within_tolerance last interval
      then merge_into (merge_pair last interval) rest'
      else last :: merge_into interval rest'
  end.

End WorkerAux.


(** *** Buffers given by their impulses

    The tempo loops read off the impulses of a rendered buffer, without
    the buffer: the proofs of [estimateTempo_render] and
    [buildTempoSegments_render] show that they compute the same. *)

(** Every sample is the number [0] itself. *)
Definition silent (l : list Q) : Prop := Forall (fun x => x = 0) l.

(** The impulses sit at increasing positions, from [pos] on and before
    [len]. *)
Fixpoint well_placed (pos : Z) (impulses : list (Z * Q)) (len : Z) : bool :=
  match impulses with
  | [] => (pos <=? len)%Z
  | (p, _) :: rest => (pos <=? p)%Z && well_placed (p + 1) rest len
  end.

(** The sum of squares over a list of samples, from [acc] on. *)
Definition fold_squares (samples : list Q) (acc : Q) : Q :=
  fold_left (fun sum sample => sum + sample * sample)%js samples acc.

(** The same sum over the impulses at positions from [lo] to [hi - 1]. *)
Definition fold_impulses (lo hi : Z) (impulses : list (Z * Q)) (acc : Q) : Q :=
  fold_left (fun sum pv => if ((lo <=? fst pv) && (fst pv <? hi))%Z
                           then (sum + snd pv * snd pv)%js else sum)
            impulses acc.

(** The energies of [count] frames, the first at sample [o]. *)
Fixpoint energies_from (count : nat) (o : Z) (impulses : list (Z * Q)) : list Q :=
  match count with
  | O => []
  | S n =>
      fold_impulses o (o + Z.of_nat frameSize) impulses 0
      :: energies_from n (o + Z.of_nat hopSize)%Z impulses
  end.

(** [estimateTempo] on the samples from [a] to [b - 1]. *)
Definition estimateTempo_at (impulses : list (Z * Q)) (a b : Z) (sampleRate : Q)
  : run (option Q) :=
  let len := (b - a)%Z in
  if (len <? Z.of_nat frameSize * 2)%Z then Returns None
  else
    let frameCount := ((len - Z.of_nat frameSize) / Z.of_nat hopSize + 1)%Z in
    if (frameCount <=? 2)%Z then Returns None
    else tempoOfEnergies (energies_from (Z.to_nat frameCount) a impulses) sampleRate.

(** The window loop on a buffer of [len] samples. *)
Fixpoint windows_loop_at (fuel : nat) (impulses : list (Z * Q)) (len : Z)
         (sampleRate : Q) (windowSamples hopSamples start_ : Z)
  : run (list TempoSegment) :=
  if (start_ + windowSamples <=? len)%Z then
    match fuel with
    | O => Loops
    | S fuel' =>
        let end__ := (start_ + windowSamples)%Z in
        (bpm_ <- estimateTempo_at impulses start_ end__ sampleRate ;;
         rest <- windows_loop_at fuel' impulses len sampleRate windowSamples
                                 hopSamples (start_ + hopSamples)%Z ;;
         Returns (if falsy bpm_ then rest
                  else match bpm_ with
                       | Some b =>
                           {| start := (Num.of_Z start_ / sampleRate)%js;
                              end_ := (Num.of_Z end__ / sampleRate)%js;
                              bpm := b |} :: rest
                       | None => rest
                       end))%run
    end
  else Returns [].

Definition buildTempoSegments_at (impulses : list (Z * Q)) (len : Z) (sampleRate : Q)
  : run (list TempoSegment) :=
  let windowSamples := Num.floor (sampleRate * BPM_WINDOW_SECONDS)%js in
  let hopSamples := Num.floor (sampleRate * BPM_HOP_SECONDS)%js in
  (segments <-
     (if ((windowSamples <=? 0) || (hopSamples <=? 0) || (len <? windowSamples))%Z
      then Returns []
      else windows_loop_at (S (Z.to_nat len)) impulses len sampleRate
                           windowSamples hopSamples 0%Z) ;;
   Returns (mergeTempoSegments segments))%run.

(** ** Definitions for the further properties *)

(** The world once the decoder has run. *)
Definition decoded_once (w : World) : World :=
  {| audioStat := audioStat w;
     decoder := decoder w;
     cacheFiles := cacheFiles w;
     cacheWritable := cacheWritable w;
     now := now w;
     decodeCalls := S (decodeCalls w) |}.

(** The world once [value] has been written at [path]. *)
Definition with_cache_file (w : World) (path : string) (value : JsValue) : World :=
  {| audioStat := audioStat w;
     decoder := decoder w;
     cacheFiles := fun p => if String.eqb p path then Some (Parses value)
                            else cacheFiles w p;
     cacheWritable := cacheWritable w;
     now := now w;
     decodeCalls := decodeCalls w |}.

(** The cache entry [writeCache] makes of an analysis. *)
Definition entry_of (stat : Stat) (a : SongAnalysis) (w : World) : AnalysisCache :=
  {| audioMtimeMs := mtimeMs stat; audioSize := size stat;
     analysis := a; createdAt := now w |}.

(** The same options, with or without [force]. *)
Definition with_force (options : Options) (force_ : bool) : Options :=
  {| audioPath := audioPath options; cacheDir := cacheDir options;
     songId := songId options; force := force_ |}.

(** A world whose cache directory cannot be written, and one whose
    decoder fails. *)
Definition read_only_world : World :=
  {| audioStat := fun _ => Some song_stat;
     decoder := fun _ => Some two_clicks;
     cacheFiles := fun _ => None;
     cacheWritable := false;
     now := "2024-01-01T00:00:00.000Z";
     decodeCalls := 0 |}.

Definition undecodable_world : World :=
  {| audioStat := fun _ => Some song_stat;
     decoder := fun _ => None;
     cacheFiles := fun _ => None;
     cacheWritable := true;
     now := "2024-01-01T00:00:00.000Z";
     decodeCalls := 0 |}.

(** The world with other files in its cache directory. *)
Definition replace_cache (w : World) (files : string -> option FileText) : World :=
  {| audioStat := audioStat w;
     decoder := decoder w;
     cacheFiles := files;
     cacheWritable := cacheWritable w;
     now := now w;
     decodeCalls := decodeCalls w |}.

(** The templates of a mode, and the score of a chroma vector against the
    template at index [i] of that mode. *)
Definition templates_of {lib : MathLib} (m : Mode) : list (list Q) :=
  match m with
  | major => MAJOR_TEMPLATES
  | minor => MINOR_TEMPLATES
  end.



(** Three minutes of a constant signal at 40 samples a second. *)
Definition slow_signal : list Q := repeat 1 (Z.to_nat 7200).

(** A segment that lies between the times [lo] and [hi]. *)
Definition within (lo hi : Q) (s : TempoSegment) : Prop :=
  lo <= start s /\ end_ s <= hi.

(** Three windows whose tempos are more than the tolerance apart. *)
Definition distinct_windows : list TempoSegment :=
  [ {| start := 0; end_ := 30; bpm := 90 |};
    {| start := 15; end_ := 45; bpm := 120.5 |};
    {| start := 30; end_ := 60; bpm := 118 |} ].



(** *** The first loop of the tempo map and the glitch filter *)

Module WorkerSteady.

Import Worker.

(** The tempo of [b] is within [GLITCH_RATIO] of the tempo of [a],
    relative to the tempo of [a]. *)
Definition steady (a b : TempoSegment) : Prop :=
  Qabs (bpm b - bpm a) <= GLITCH_RATIO * bpm a.

(** The last element of an array, if any. *)
Definition last_of {A} (l : list A) : option A := hd_error (rev l).

(** [lastStable] is the tempo of the last interval accepted. *)
Record stable_invariant (st : BeatState) : Prop := {
  stable_history : Forall WorkerAux.rate_in_range (history st);
  stable_in_range : Forall (in_range BPM_MIN BPM_MAX) (intervals st);
  stable_last : lastStable st = option_map bpm (last_of (intervals st));
  stable_sorted : Sorted steady (intervals st)
}.

End WorkerSteady.

(** Beats every half second, then one after 0.7 seconds. *)
Definition even_beats : list Q := [0; 0.5; 1; 1.5; 2.2].

(** A result of the key extractor whose strength is out of range, and a
    message to analyse. *)
Definition strong_result : WorkerMessage.KeyExtractorResult :=
  {| WorkerMessage.result_key := "A";
     WorkerMessage.result_scale := "minor";
     WorkerMessage.firstToSecondRelativeStrength := Some (Number 1.7);
     WorkerMessage.strength := Some NaN |}.

Definition analyze_message : WorkerMessage.AnalyzeMessage :=
  {| WorkerMessage.message_type := "analyze";
     WorkerMessage.requestId := 7;
     WorkerMessage.message_songId := "song";
     WorkerMessage.samples := [];
     WorkerMessage.sampleRate := 44100;
     WorkerMessage.duration := 2 |}.

(** The beats of a response lie inside the track, a quarter of a second
    allowed past its end. *)
Definition inside_track (duration_ : Q) (tick : Q) : Prop :=
  0 <= tick /\ tick <= duration_ + (1 # 4).

(** *** Audio buffers *)





(** *** A library of one song for the routes *)

Definition library_config : Routes.Config :=
  {| Routes.librarySongsDir := "/music"; Routes.config_cacheDir := "/cache" |}.

Definition library_song : Routes.SongRecord :=
  {| Routes.song_id := "song"; Routes.hasAudio := true;
     Routes.audioFile := Some "song.mp3" |}.

Definition library_index (id : string) : option Routes.SongRecord :=
  if String.eqb id "song" then Some library_song else None.

(** A resolver that joins the segments and lets every path through. *)
Definition join_path (root folder file : string) : option string :=
  Some (root ++ "/" ++ folder ++ "/" ++ file)%string.

Definition library_detail (song_ : Routes.SongRecord) (lang : option string)
  : list (string * JsValue) :=
  [("id", JString (Routes.song_id song_)); ("hasAudio", JBool (Routes.hasAudio song_))].

(** * Proofs *)

(** ** Numbers *)

Module NumFacts.

Lemma ltb_lt a b : Num.ltb a b = true <-> a < b.
Proof.
  unfold Num.ltb. rewrite negb_true_iff. split; intro H.
  - apply Qnot_le_lt. intro L. apply Qle_bool_iff in L. congruence.
  - destruct (Qle_bool b a) eqn:E; auto. apply Qle_bool_iff in E. lra.
Qed.

Lemma ltb_ge a b : Num.ltb a b = false <-> b <= a.
Proof. unfold Num.ltb. rewrite negb_false_iff. apply Qle_bool_iff. Qed.

Lemma leb_le a b : Num.leb a b = true <-> a <= b.
Proof. apply Qle_bool_iff. Qed.

Lemma leb_gt a b : Num.leb a b = false <-> b < a.
Proof.
  unfold Num.leb. split; intro H.
  - apply Qnot_le_lt. intro L. apply Qle_bool_iff in L. congruence.
  - destruct (Qle_bool a b) eqn:E; auto. apply Qle_bool_iff in E. lra.
Qed.

Lemma gtb_gt a b : Num.gtb a b = true <-> b < a.
Proof. apply ltb_lt. Qed.

Lemma gtb_le a b : Num.gtb a b = false <-> a <= b.
Proof. apply ltb_ge. Qed.

Lemma eqb_eq a b : Num.eqb a b = true <-> a == b.
Proof. apply Qeq_bool_iff. Qed.

Lemma truthy_true a : Num.truthy a = true <-> ~ a == 0.
Proof.
  unfold Num.truthy. rewrite negb_true_iff. split; intro H.
  - intro E. apply Qeq_bool_iff in E. congruence.
  - destruct (Qeq_bool a 0) eqn:E; auto. apply Qeq_bool_iff in E. contradiction.
Qed.

Lemma truthy_false a : Num.truthy a = false <-> a == 0.
Proof. unfold Num.truthy. rewrite negb_false_iff. apply Qeq_bool_iff. Qed.

Lemma add_eq a b : Num.add a b == a + b.
Proof. apply Qred_correct. Qed.

Lemma sub_eq a b : Num.sub a b == a - b.
Proof. apply Qred_correct. Qed.

Lemma mul_eq a b : Num.mul a b == a * b.
Proof. apply Qred_correct. Qed.

Lemma div_eq a b : Num.div a b == a / b.
Proof. apply Qred_correct. Qed.

Lemma max_cases a b : (a < b /\ Num.max a b = b) \/ (b <= a /\ Num.max a b = a).
Proof.
  unfold Num.max. destruct (Num.ltb a b) eqn:E.
  - left. split; auto. now apply ltb_lt.
  - right. split; auto. now apply ltb_ge.
Qed.

Lemma min_cases a b : (b < a /\ Num.min a b = b) \/ (a <= b /\ Num.min a b = a).
Proof.
  unfold Num.min. destruct (Num.ltb b a) eqn:E.
  - left. split; auto. now apply ltb_lt.
  - right. split; auto. now apply ltb_ge.
Qed.

End NumFacts.

(** Turns the operations of [Num] into those of [Q], and the boolean
    tests among the hypotheses into inequalities. *)
Ltac to_Q :=
  unfold Num.add, Num.sub, Num.mul, Num.div, Num.of_Z, Num.abs in *;
  repeat match goal with
         | H : context [Qred _] |- _ => rewrite Qred_correct in H
         | |- context [Qred _] => rewrite Qred_correct
         end.

Ltac bool_to_Q :=
  repeat match goal with
         | H : Num.ltb _ _ = true |- _ => apply NumFacts.ltb_lt in H
         | H : Num.ltb _ _ = false |- _ => apply NumFacts.ltb_ge in H
         | H : Num.leb _ _ = true |- _ => apply NumFacts.leb_le in H
         | H : Num.leb _ _ = false |- _ => apply NumFacts.leb_gt in H
         | H : Num.gtb _ _ = true |- _ => apply NumFacts.gtb_gt in H
         | H : Num.gtb _ _ = false |- _ => apply NumFacts.gtb_le in H
         | H : Num.truthy _ = true |- _ => apply NumFacts.truthy_true in H
         | H : Num.truthy _ = false |- _ => apply NumFacts.truthy_false in H
         | H : Num.eqb _ _ = true |- _ => apply NumFacts.eqb_eq in H
         end.

(** ** Rounding *)

Lemma pow10_pos decimals : 0 < Num.pow10 decimals.
Proof.
  unfold Num.pow10. change 0 with (inject_Z 0). rewrite <- Zlt_Qlt.
  apply Z.pow_pos_nonneg; lia.
Qed.

(** A bound that is a whole number of units of the last digit survives
    the rounding. *)
Lemma roundTo_lower value decimals lo k :
  lo * Num.pow10 decimals == inject_Z k -> lo <= value ->
  lo <= roundTo value decimals.
Proof.
  intros Hk Hle. unfold roundTo, Num.round. cbv zeta.
  pose proof (pow10_pos decimals) as Hf.
  set (f := Num.pow10 decimals) in *. to_Q.
  assert (Hr : (k <= Qfloor (value * f + (1 # 2)))%Z).
  { rewrite <- (Qfloor_Z k). apply Qfloor_resp_le. rewrite <- Hk. nra. }
  rewrite Zle_Qle in Hr.
  apply Qle_shift_div_l; auto. rewrite Hk. exact Hr.
Qed.

Lemma roundTo_upper value decimals hi k :
  hi * Num.pow10 decimals == inject_Z k -> value <= hi ->
  roundTo value decimals <= hi.
Proof.
  intros Hk Hle. unfold roundTo, Num.round. cbv zeta.
  pose proof (pow10_pos decimals) as Hf.
  set (f := Num.pow10 decimals) in *. to_Q.
  assert (Hr : (Qfloor (value * f + (1 # 2)) <= k)%Z).
  { assert (Hlt : (Qfloor (value * f + (1 # 2)) < k + 1)%Z).
    { rewrite Zlt_Qlt, inject_Z_plus.
      pose proof (Qfloor_le (value * f + (1 # 2))).
      assert (value * f <= inject_Z k) by (rewrite <- Hk; nra).
      change (inject_Z 1) with 1. lra. }
    lia. }
  rewrite Zle_Qle in Hr.
  apply Qle_shift_div_r; auto. rewrite Hk. exact Hr.
Qed.

(** ** Octave folding *)

Lemma two_to_S n : two_to (S n) == 2 * two_to n.
Proof.
  unfold two_to. rewrite Nat2Z.inj_succ, Z.pow_succ_r by lia.
  rewrite inject_Z_mult. reflexivity.
Qed.

Lemma two_to_pos n : 1 <= two_to n.
Proof.
  unfold two_to. change 1 with (inject_Z 1). rewrite <- Zle_Qle.
  assert (0 < 2 ^ Z.of_nat n)%Z by (apply Z.pow_pos_nonneg; lia). lia.
Qed.

Lemma fold_up_returns fuel : forall value,
  0 < value -> BPM_MIN <= value * two_to fuel ->
  exists r, fold_up fuel value = Some r /\ BPM_MIN <= r /\
            (value < BPM_MIN -> r < 2 * BPM_MIN) /\
            (BPM_MIN <= value -> r = value).
Proof.
  unfold BPM_MIN.
  induction fuel as [|fuel IH]; intros value Hpos Hfuel.
  - assert (E0 : two_to 0 == 1) by reflexivity. rewrite E0 in Hfuel.
    assert (60 <= value) by lra.
    exists value. simpl. unfold BPM_MIN.
    destruct (Num.ltb value 60) eqn:E; bool_to_Q; [lra|].
    repeat split; auto. intro; lra.
  - simpl. unfold BPM_MIN. destruct (Num.ltb value 60) eqn:E; bool_to_Q.
    + destruct (IH (Num.mul value 2)) as (r & Hr & Hge & Hlt & Heq).
      * to_Q. lra.
      * rewrite two_to_S in Hfuel. to_Q. lra.
      * exists r. repeat split; auto; [|intro; lra].
        intros _. destruct (Qlt_le_dec (Num.mul value 2) 60) as [L|L].
        -- auto.
        -- rewrite (Heq L). to_Q. lra.
    + exists value. repeat split; auto. intro; lra.
Qed.

Lemma fold_down_returns fuel : forall value,
  BPM_MIN <= value -> value <= BPM_MAX * two_to fuel ->
  exists r, fold_down fuel value = Some r /\ BPM_MIN <= r /\ r <= BPM_MAX /\
            (value <= BPM_MAX -> r = value).
Proof.
  unfold BPM_MIN, BPM_MAX.
  induction fuel as [|fuel IH]; intros value Hmin Hfuel.
  - assert (E0 : two_to 0 == 1) by reflexivity. rewrite E0 in Hfuel.
    assert (value <= 200) by lra.
    exists value. simpl. unfold BPM_MAX.
    destruct (Num.gtb value 200) eqn:E; bool_to_Q; [lra|]. auto.
  - simpl. unfold BPM_MAX. destruct (Num.gtb value 200) eqn:E; bool_to_Q.
    + destruct (IH (Num.div value 2)) as (r & Hr & Hge & Hle & Heq).
      * to_Q. unfold Qdiv. change (/ 2) with (1 # 2). lra.
      * rewrite two_to_S in Hfuel. to_Q.
        unfold Qdiv. change (/ 2) with (1 # 2). lra.
      * exists r. repeat split; auto. intro; lra.
    + exists value. auto.
Qed.

Lemma fold_up_loops fuel : forall value,
  value <= 0 -> fold_up fuel value = None.
Proof.
  induction fuel as [|fuel IH]; intros value Hle; simpl;
    destruct (Num.ltb value BPM_MIN) eqn:E; bool_to_Q; unfold BPM_MIN in *;
    try lra; auto.
  apply IH. to_Q. lra.
Qed.

(** No amount of fuel brings a non-positive value out of the first
    loop. *)
Lemma normalizeTempo_fuel_loops fuel bpm_ :
  bpm_ <= 0 -> normalizeTempo_fuel fuel bpm_ = None.
Proof.
  intro H. unfold normalizeTempo_fuel. now rewrite fold_up_loops.
Qed.

Lemma two_to_mono n m : (n <= m)%nat -> two_to n <= two_to m.
Proof.
  intro H. unfold two_to. rewrite <- Zle_Qle.
  apply Z.pow_le_mono_r; lia.
Qed.

Lemma two_to_log2_up z n :
  (Z.log2_up z <= Z.of_nat n)%Z -> inject_Z z <= two_to n.
Proof.
  intro H. unfold two_to. rewrite <- Zle_Qle.
  destruct (Z_lt_le_dec 1 z) as [Hz|Hz].
  - transitivity (2 ^ Z.log2_up z)%Z.
    + apply Z.log2_up_spec in Hz. lia.
    + apply Z.pow_le_mono_r; lia.
  - assert (0 < 2 ^ Z.of_nat n)%Z by (apply Z.pow_pos_nonneg; lia). lia.
Qed.

Lemma Q_as_fraction (q : Q) : q == inject_Z (Qnum q) / inject_Z (Zpos (Qden q)).
Proof.
  destruct q as [n d]. simpl. rewrite Qmake_Qdiv. reflexivity.
Qed.

Lemma tempo_fuel_up bpm_ fuel :
  0 < bpm_ -> (tempo_fuel bpm_ <= fuel)%nat -> BPM_MIN <= bpm_ * two_to fuel.
Proof.
  intros Hpos Hfuel. unfold BPM_MIN.
  assert (Hd : inject_Z (60 * Zpos (Qden bpm_)) <= two_to fuel).
  { apply two_to_log2_up. unfold tempo_fuel in Hfuel.
    pose proof (Z.log2_up_nonneg (60 * Zpos (Qden bpm_))).
    pose proof (Z.log2_up_nonneg (Z.max 1 (Qnum bpm_))). lia. }
  rewrite inject_Z_mult in Hd.
  assert (Hn : 1 <= inject_Z (Qnum bpm_)).
  { change 1 with (inject_Z 1). rewrite <- Zle_Qle.
    destruct bpm_ as [n d]. unfold Qlt in Hpos. simpl in *. lia. }
  assert (Hdpos : 0 < inject_Z (Zpos (Qden bpm_))).
  { change 0 with (inject_Z 0). rewrite <- Zlt_Qlt. lia. }
  rewrite (Q_as_fraction bpm_) at 1.
  set (n := inject_Z (Qnum bpm_)) in *. set (d := inject_Z (Zpos (Qden bpm_))) in *.
  change (inject_Z 60) with 60 in Hd.
  assert (E : n / d * two_to fuel == (n * two_to fuel) / d) by (field; lra).
  rewrite E. apply Qle_shift_div_l; auto.
  pose proof (two_to_pos fuel). nra.
Qed.

Lemma tempo_fuel_down bpm_ fuel :
  0 < bpm_ -> (tempo_fuel bpm_ <= fuel)%nat -> bpm_ <= BPM_MAX * two_to fuel.
Proof.
  intros Hpos Hfuel. unfold BPM_MAX.
  assert (Hn : inject_Z (Z.max 1 (Qnum bpm_)) <= two_to fuel).
  { apply two_to_log2_up. unfold tempo_fuel in Hfuel.
    pose proof (Z.log2_up_nonneg (60 * Zpos (Qden bpm_))).
    pose proof (Z.log2_up_nonneg (Z.max 1 (Qnum bpm_))). lia. }
  assert (Hn' : inject_Z (Qnum bpm_) <= two_to fuel).
  { eapply Qle_trans; [|exact Hn]. rewrite <- Zle_Qle. lia. }
  assert (Hd : 1 <= inject_Z (Zpos (Qden bpm_))).
  { change 1 with (inject_Z 1). rewrite <- Zle_Qle. lia. }
  assert (Hnpos : 0 < inject_Z (Qnum bpm_)).
  { change 0 with (inject_Z 0). rewrite <- Zlt_Qlt.
    destruct bpm_ as [n d]. unfold Qlt in Hpos. simpl in *. lia. }
  rewrite (Q_as_fraction bpm_) at 1.
  set (n := inject_Z (Qnum bpm_)) in *. set (d := inject_Z (Zpos (Qden bpm_))) in *.
  apply Qle_shift_div_r; [lra|]. nra.
Qed.

Lemma normalizeTempo_fuel_returns bpm_ fuel :
  0 < bpm_ -> (tempo_fuel bpm_ <= fuel)%nat ->
  exists value, normalizeTempo_fuel fuel bpm_ = Some value /\
                BPM_MIN <= value /\ value <= BPM_MAX /\
                (BPM_MIN <= bpm_ -> bpm_ <= BPM_MAX -> value = bpm_).
Proof.
  intros Hpos Hfuel.
  destruct (fold_up_returns fuel bpm_ Hpos (tempo_fuel_up _ _ Hpos Hfuel))
    as (r & Hr & Hge & Hlt & Heq).
  unfold normalizeTempo_fuel. rewrite Hr.
  destruct (fold_down_returns fuel r Hge) as (v & Hv & Hvge & Hvle & Hveq).
  - destruct (Qlt_le_dec bpm_ BPM_MIN) as [L|L].
    + specialize (Hlt L). pose proof (two_to_pos fuel).
      unfold BPM_MIN, BPM_MAX in *. nra.
    + rewrite (Heq L). now apply tempo_fuel_down.
  - exists v. repeat split; auto. intros H1 H2.
    rewrite (Heq H1) in *. now apply Hveq.
Qed.

Lemma fold_up_mono fuel : forall fuel' value r,
  fold_up fuel value = Some r -> (fuel <= fuel')%nat ->
  fold_up fuel' value = Some r.
Proof.
  induction fuel as [|fuel IH]; intros fuel' value r H Hle.
  - simpl in H. destruct (Num.ltb value BPM_MIN) eqn:E; [discriminate|].
    destruct fuel'; simpl; rewrite E; auto.
  - destruct fuel' as [|fuel']; [lia|]. simpl in *.
    destruct (Num.ltb value BPM_MIN); auto. apply IH; auto. lia.
Qed.

Lemma fold_down_mono fuel : forall fuel' value r,
  fold_down fuel value = Some r -> (fuel <= fuel')%nat ->
  fold_down fuel' value = Some r.
Proof.
  induction fuel as [|fuel IH]; intros fuel' value r H Hle.
  - simpl in H. destruct (Num.gtb value BPM_MAX) eqn:E; [discriminate|].
    destruct fuel'; simpl; rewrite E; auto.
  - destruct fuel' as [|fuel']; [lia|]. simpl in *.
    destruct (Num.gtb value BPM_MAX); auto. apply IH; auto. lia.
Qed.

(** More fuel does not change a value once returned. *)
Lemma normalizeTempo_fuel_mono fuel fuel' bpm_ value :
  normalizeTempo_fuel fuel bpm_ = Some value -> (fuel <= fuel')%nat ->
  normalizeTempo_fuel fuel' bpm_ = Some value.
Proof.
  unfold normalizeTempo_fuel. intros H Hle.
  destruct (fold_up fuel bpm_) as [r|] eqn:E; [|discriminate].
  rewrite (fold_up_mono _ _ _ _ E Hle). eapply fold_down_mono; eauto.
Qed.

Lemma normalizeTempo_returns bpm_ :
  0 < bpm_ ->
  exists value, normalizeTempo bpm_ = Returns value /\
                BPM_MIN <= value /\ value <= BPM_MAX.
Proof.
  intro Hpos.
  destruct (normalizeTempo_fuel_returns bpm_ (tempo_fuel bpm_) Hpos (le_n _))
    as (v & Hv & H1 & H2 & _).
  exists v. unfold normalizeTempo. rewrite Hv. auto.
Qed.

Lemma normalizeTempo_loops_iff bpm_ :
  normalizeTempo bpm_ = Loops <-> bpm_ <= 0.
Proof.
  split; intro H.
  - destruct (Qlt_le_dec 0 bpm_) as [L|L]; auto.
    destruct (normalizeTempo_returns bpm_ L) as (v & Hv & _). congruence.
  - unfold normalizeTempo. now rewrite normalizeTempo_fuel_loops.
Qed.

(** ** The lag loop and [estimateTempo] *)

Lemma best_lag_loop_range count : forall onset lag bestLag bestValue,
  let r := best_lag_loop count onset lag bestLag bestValue in
  r = bestLag \/ (lag <= r < lag + Z.of_nat count)%Z.
Proof.
  induction count as [|count IH]; intros onset lag bestLag bestValue; simpl.
  - now left.
  - destruct (Num.gtb (autocorrelation onset lag) bestValue).
    + destruct (IH onset (lag + 1)%Z lag (autocorrelation onset lag)) as [E|E].
      * right. rewrite E. lia.
      * right. lia.
    + destruct (IH onset (lag + 1)%Z bestLag bestValue) as [E|E].
      * now left.
      * right. lia.
Qed.

Lemma minLag_pos sampleRate : (1 <= minLag sampleRate)%Z.
Proof. unfold minLag. lia. Qed.

Lemma bestLag_of_range onset sampleRate :
  bestLag_of onset sampleRate = 0%Z \/ (1 <= bestLag_of onset sampleRate)%Z.
Proof.
  unfold bestLag_of.
  pose proof (minLag_pos sampleRate).
  destruct (best_lag_loop_range
              (Z.to_nat (maxLag sampleRate - minLag sampleRate + 1)) onset
              (minLag sampleRate) 0%Z 0) as [E|E]; cbv zeta in E.
  - now left.
  - right. lia.
Qed.

(** The tempo of a list of energies always returns, in the range. *)
Lemma tempoOfEnergies_returns energies sampleRate :
  0 < sampleRate ->
  exists r, tempoOfEnergies energies sampleRate = Returns r /\
            forall b, r = Some b -> BPM_MIN <= b /\ b <= BPM_MAX.
Proof.
  intro Hsr. unfold tempoOfEnergies. cbv zeta.
  set (onset := onset_strength _).
  destruct (bestLag_of_range onset sampleRate) as [E|E].
  { rewrite E. simpl. exists None. split; auto. discriminate. }
  destruct (Z.eqb_spec (bestLag_of onset sampleRate) 0); [lia|].
  set (lag := bestLag_of onset sampleRate) in *.
  destruct (normalizeTempo_returns
              (Num.div (Num.mul 60 sampleRate)
                       (Num.mul (Num.of_Z lag) (Num.of_Z (Z.of_nat hopSize)))))
    as (v & Hv & Hlo & Hhi).
  - to_Q. rewrite Zle_Qle in E. change (inject_Z 1) with 1 in E.
    change (inject_Z (Z.of_nat hopSize)) with 512.
    apply Qlt_shift_div_l; nra.
  - exists (Some v). split.
    + rewrite Hv. reflexivity.
    + intros b Hb. injection Hb as <-. auto.
Qed.

(** [estimateTempo] always returns, and a tempo it returns lies in the
    range. *)
Lemma estimateTempo_returns samples sampleRate :
  0 < sampleRate ->
  exists r, estimateTempo samples sampleRate = Returns r /\
            forall b, r = Some b -> BPM_MIN <= b /\ b <= BPM_MAX.
Proof.
  intro Hsr. unfold estimateTempo. cbv zeta.
  destruct (Zlength samples <? Z.of_nat frameSize * 2)%Z.
  { exists None. split; auto. discriminate. }
  destruct ((Zlength samples - Z.of_nat frameSize) / Z.of_nat hopSize + 1 <=? 2)%Z.
  { exists None. split; auto. discriminate. }
  now apply tempoOfEnergies_returns.
Qed.

(** ** Merging *)

Lemma merge_step_snoc before last segment :
  merge_step (before ++ [last]) segment =
  if within_tolerance last segment
  then before ++ [merge_pair last segment]
  else (before ++ [last]) ++ [segment].
Proof.
  unfold merge_step. rewrite rev_app_distr. simpl.
  fold (within_tolerance last segment).
  destruct (within_tolerance last segment); auto.
  now rewrite rev_involutive.
Qed.

Lemma fold_merge_step rest : forall before last,
  fold_left merge_step rest (before ++ [last]) = before ++ merge_into last rest.
Proof.
  induction rest as [|segment rest IH]; intros before last; simpl; auto.
  rewrite merge_step_snoc. destruct (within_tolerance last segment).
  - apply IH.
  - rewrite IH. now rewrite <- app_assoc.
Qed.

Lemma mergeTempoSegments_cons segment rest :
  mergeTempoSegments (segment :: rest) = merge_into segment rest.
Proof.
  unfold mergeTempoSegments. simpl.
  change (merge_step [] segment) with ([] ++ [segment]).
  now rewrite fold_merge_step.
Qed.

Lemma mergeTempoSegments_nil : mergeTempoSegments [] = [].
Proof. reflexivity. Qed.

(** ** The window loop *)

Lemma provisional_weaken sampleRate w h from from' segs :
  provisional sampleRate w h from' segs -> (from <= from')%Z ->
  provisional sampleRate w h from segs.
Proof.
  intros H Hle. destruct H; constructor; auto. lia.
Qed.

Lemma windows_loop_unfold fuel samples sampleRate w h start_ :
  windows_loop fuel samples sampleRate w h start_ =
  if (start_ + w <=? Zlength samples)%Z then
    match fuel with
    | O => Loops
    | S fuel' =>
        (bpm_ <- estimateTempo (subarray samples start_ (start_ + w)) sampleRate ;;
         rest <- windows_loop fuel' samples sampleRate w h (start_ + h)%Z ;;
         Returns (if falsy bpm_ then rest
                  else match bpm_ with
                       | Some b =>
                           {| start := Num.div (Num.of_Z start_) sampleRate;
                              end_ := Num.div (Num.of_Z (start_ + w)) sampleRate;
                              bpm := b |} :: rest
                       | None => rest
                       end))%run
    end
  else Returns [].
Proof. destruct fuel; reflexivity. Qed.

Lemma windows_loop_returns fuel : forall samples sampleRate w h start_,
  0 < sampleRate -> (0 < h)%Z ->
  (Zlength samples - w - start_ < Z.of_nat fuel)%Z ->
  exists segs,
    windows_loop fuel samples sampleRate w h start_ = Returns segs /\
    provisional sampleRate w h start_ segs.
Proof.
  induction fuel as [|fuel IH]; intros samples sampleRate w h start_ Hsr Hh Hfuel;
    rewrite windows_loop_unfold;
    destruct (Z.leb_spec (start_ + w) (Zlength samples)) as [Hc|Hc];
    try (exists []; split; [reflexivity|constructor]).
  - lia.
  - destruct (estimateTempo_returns (subarray samples start_ (start_ + w))
                                    sampleRate Hsr) as (r & Hr & Hrange).
    destruct (IH samples sampleRate w h (start_ + h)%Z Hsr Hh) as (rest & Hrest & Hp);
      [lia|].
    rewrite Hr, Hrest. simpl.
    assert (Hp' : provisional sampleRate w h start_ rest)
      by (eapply provisional_weaken; eauto; lia).
    destruct r as [b|]; simpl.
    + destruct (Num.truthy b); simpl.
      * eexists; split; [reflexivity|].
        destruct (Hrange b eq_refl).
        constructor; auto. lia.
      * eexists; split; [reflexivity|]. exact Hp'.
    + eexists; split; [reflexivity|]. exact Hp'.
Qed.

(** [buildTempoSegments] always returns; the window and hop sizes are
    those of the sample rate. *)
Lemma provisionalSegments_returns samples sampleRate :
  0 < sampleRate ->
  exists segs,
    provisionalSegments samples sampleRate = Returns segs /\
    provisional sampleRate
                (Num.floor (Num.mul sampleRate BPM_WINDOW_SECONDS))
                (Num.floor (Num.mul sampleRate BPM_HOP_SECONDS)) 0 segs /\
    (segs <> [] -> (0 < Num.floor (Num.mul sampleRate BPM_WINDOW_SECONDS))%Z
                   /\ (0 < Num.floor (Num.mul sampleRate BPM_HOP_SECONDS))%Z).
Proof.
  intro Hsr. unfold provisionalSegments. cbv zeta.
  set (w := Num.floor _). set (h := Num.floor _).
  destruct (Z.leb_spec w 0) as [Hw|Hw]; simpl.
  { exists []; split; [reflexivity|split; [constructor|congruence]]. }
  destruct (Z.leb_spec h 0) as [Hh|Hh]; simpl.
  { exists []; split; [reflexivity|split; [constructor|congruence]]. }
  destruct (Z.ltb_spec (Zlength samples) w) as [Hl|Hl].
  { exists []; split; [reflexivity|split; [constructor|congruence]]. }
  destruct (windows_loop_returns (S (Z.to_nat (Zlength samples))) samples
              sampleRate w h 0%Z Hsr Hh) as (segs & Hs & Hp).
  - rewrite Zlength_correct. lia.
  - exists segs. repeat split; auto.
Qed.

(** ** What the provisional segments satisfy *)

Lemma div_lt_div a b sampleRate :
  0 < sampleRate -> (a < b)%Z ->
  Num.div (Num.of_Z a) sampleRate < Num.div (Num.of_Z b) sampleRate.
Proof.
  intros Hsr Hlt. to_Q. rewrite Zlt_Qlt in Hlt.
  apply Qlt_shift_div_l; auto.
  assert (E : inject_Z a / sampleRate * sampleRate == inject_Z a) by (field; lra).
  rewrite E. exact Hlt.
Qed.

Lemma div_le_div a b sampleRate :
  0 < sampleRate -> (a <= b)%Z ->
  Num.div (Num.of_Z a) sampleRate <= Num.div (Num.of_Z b) sampleRate.
Proof.
  intros Hsr Hle. to_Q. rewrite Zle_Qle in Hle.
  apply Qle_shift_div_l; auto.
  assert (E : inject_Z a / sampleRate * sampleRate == inject_Z a) by (field; lra).
  rewrite E. exact Hle.
Qed.

Section Provisional.

Variables (sampleRate : Q) (w h : Z).
Hypothesis sampleRate_pos : 0 < sampleRate.
Hypothesis w_pos : (0 < w)%Z.
Hypothesis h_pos : (0 < h)%Z.

Lemma provisional_well_formed from segs :
  provisional sampleRate w h from segs -> Forall well_formed segs.
Proof.
  induction 1; constructor; auto.
  unfold well_formed. simpl. apply div_lt_div; auto. lia.
Qed.

Lemma provisional_in_range from segs :
  provisional sampleRate w h from segs -> Forall (in_range BPM_MIN BPM_MAX) segs.
Proof.
  induction 1; constructor; auto. split; auto.
Qed.

Lemma provisional_HdRel from s b segs :
  provisional sampleRate w h from segs -> (s + h <= from)%Z ->
  HdRel (follows (window_overlap sampleRate w h))
        {| start := Num.div (Num.of_Z s) sampleRate;
           end_ := Num.div (Num.of_Z (s + w)) sampleRate;
           bpm := b |} segs.
Proof.
  intros H Hle. destruct H; constructor.
  unfold follows, window_overlap. simpl. repeat split.
  - apply div_lt_div; auto. lia.
  - apply div_lt_div; auto. lia.
  - assert (L : (s + h <= s0)%Z) by lia.
    apply (div_le_div _ _ sampleRate sampleRate_pos) in L.
    to_Q. rewrite !inject_Z_plus in *.
    assert (E : (inject_Z s + inject_Z w) / sampleRate
                - (inject_Z w - inject_Z h) / sampleRate
                == (inject_Z s + inject_Z h) / sampleRate) by (field; lra).
    rewrite E. exact L.
Qed.

Lemma provisional_sorted from segs :
  provisional sampleRate w h from segs -> Sorted (follows (window_overlap sampleRate w h)) segs.
Proof.
  induction 1; constructor; auto.
  eapply provisional_HdRel; eauto. lia.
Qed.

End Provisional.

(** ** Invariants of the merge *)

Lemma merge_pair_well_formed last segment :
  well_formed last -> well_formed (merge_pair last segment).
Proof.
  unfold well_formed, merge_pair. simpl. intro H.
  destruct (NumFacts.max_cases (end_ last) (end_ segment)) as [[L ->]|[L ->]]; lra.
Qed.

(** A weighted mean of two numbers, with positive weights, lies between
    them. *)
Lemma weighted_mean_bounds lo hi a b da db :
  0 < da -> 0 < db -> lo <= a -> a <= hi -> lo <= b -> b <= hi ->
  lo <= (a * da + b * db) / (da + db) /\ (a * da + b * db) / (da + db) <= hi.
Proof.
  intros. split.
  - apply Qle_shift_div_l; [lra|]. nra.
  - apply Qle_shift_div_r; [lra|]. nra.
Qed.

Lemma merge_pair_in_range lo hi last segment :
  well_formed last -> well_formed segment ->
  in_range lo hi last -> in_range lo hi segment ->
  in_range lo hi (merge_pair last segment).
Proof.
  unfold well_formed, in_range, merge_pair. simpl. intros Hl Hs [L1 L2] [S1 S2].
  to_Q. apply weighted_mean_bounds; lra.
Qed.

Lemma merge_into_well_formed rest : forall last,
  well_formed last -> Forall well_formed rest ->
  Forall well_formed (merge_into last rest).
Proof.
  induction rest as [|segment rest IH]; intros last Hl Hr; simpl.
  - constructor; auto.
  - inversion Hr; subst. destruct (within_tolerance last segment).
    + apply IH; auto. now apply merge_pair_well_formed.
    + constructor; auto.
Qed.

Lemma merge_into_in_range lo hi rest : forall last,
  well_formed last -> Forall well_formed rest ->
  in_range lo hi last -> Forall (in_range lo hi) rest ->
  Forall (in_range lo hi) (merge_into last rest).
Proof.
  induction rest as [|segment rest IH]; intros last Hl Hr Il Ir; simpl.
  - constructor; auto.
  - inversion Hr; subst. inversion Ir; subst.
    destruct (within_tolerance last segment).
    + apply IH; auto.
      * now apply merge_pair_well_formed.
      * now apply merge_pair_in_range.
    + constructor; auto.
Qed.

(** The first segment the merge leaves keeps the start of [last] and ends
    no earlier. *)
Lemma merge_into_head rest : forall last,
  exists first others,
    merge_into last rest = first :: others /\
    start first = start last /\ end_ last <= end_ first.
Proof.
  induction rest as [|segment rest IH]; intros last; simpl.
  - exists last, []. repeat split; auto. lra.
  - destruct (within_tolerance last segment).
    + destruct (IH (merge_pair last segment)) as (f & o & E & Hs & He).
      exists f, o. repeat split; auto. simpl in He.
      destruct (NumFacts.max_cases (end_ last) (end_ segment)) as [[L M]|[L M]];
        rewrite M in He; lra.
    + exists last, (merge_into segment rest). repeat split; auto. lra.
Qed.

Lemma follows_merge_pair overlap last segment next :
  follows overlap last segment -> follows overlap segment next ->
  follows overlap (merge_pair last segment) next.
Proof.
  unfold follows, merge_pair. simpl. intros (A1 & A2 & A3) (B1 & B2 & B3).
  destruct (NumFacts.max_cases (end_ last) (end_ segment)) as [[L ->]|[L ->]];
    repeat split; lra.
Qed.

Lemma merge_into_sorted overlap rest : forall last,
  HdRel (follows overlap) last rest -> Sorted (follows overlap) rest ->
  Sorted (follows overlap) (merge_into last rest).
Proof.
  induction rest as [|segment rest IH]; intros last Hh Hs; simpl.
  - repeat constructor.
  - inversion Hh; subst. inversion Hs; subst.
    destruct (within_tolerance last segment).
    + apply IH; auto.
      destruct rest as [|next rest]; constructor.
      inversion H3; subst. now apply follows_merge_pair.
    + constructor; auto.
      destruct (merge_into_head rest segment) as (f & o & E & Es & Ee).
      rewrite E. constructor.
      destruct H0 as (A1 & A2 & A3). unfold follows. rewrite Es.
      repeat split; lra.
Qed.

Lemma mergeTempoSegments_well_formed segs :
  Forall well_formed segs -> Forall well_formed (mergeTempoSegments segs).
Proof.
  destruct segs as [|s segs]; intro H.
  - constructor.
  - rewrite mergeTempoSegments_cons. inversion H; subst.
    now apply merge_into_well_formed.
Qed.

Lemma mergeTempoSegments_in_range lo hi segs :
  Forall well_formed segs -> Forall (in_range lo hi) segs ->
  Forall (in_range lo hi) (mergeTempoSegments segs).
Proof.
  destruct segs as [|s segs]; intros H I.
  - constructor.
  - rewrite mergeTempoSegments_cons. inversion H; subst. inversion I; subst.
    now apply merge_into_in_range.
Qed.

Lemma mergeTempoSegments_sorted overlap segs :
  Sorted (follows overlap) segs ->
  Sorted (follows overlap) (mergeTempoSegments segs).
Proof.
  destruct segs as [|s segs]; intro H.
  - constructor.
  - rewrite mergeTempoSegments_cons. inversion H; subst.
    now apply merge_into_sorted.
Qed.

Lemma follows_trans overlap a b c :
  0 <= overlap ->
  start a < start b /\ end_ a < end_ b ->
  start b < start c /\ end_ b < end_ c ->
  start a < start c /\ end_ a < end_ c.
Proof. intros ? [] []. split; lra. Qed.

(** Consecutive order gives the order of every pair. *)
Lemma sorted_follows_strongly overlap segs :
  Sorted (follows overlap) segs ->
  StronglySorted (fun a b => start a < start b /\ end_ a < end_ b) segs.
Proof.
  intro H. apply Sorted_StronglySorted.
  - intros a b c [] []. split; lra.
  - induction H; constructor; auto.
    destruct H0; constructor. destruct H0 as (? & ? & ?). split; auto.
Qed.


(** ** Silence *)

Lemma all_zero_repeat n : all_zero (repeat 0 n).
Proof. apply Forall_forall. intros x H. apply repeat_spec in H. now subst. Qed.

Lemma all_zero_firstn n : forall l, all_zero l -> all_zero (firstn n l).
Proof.
  induction n as [|n IH]; intros l H; simpl; [constructor|].
  destruct H; constructor; auto. now apply IH.
Qed.

Lemma all_zero_skipn n : forall l, all_zero l -> all_zero (skipn n l).
Proof.
  induction n as [|n IH]; intros l H; simpl; auto.
  destruct H; [constructor|]. now apply IH.
Qed.

Lemma all_zero_subarray l a b : all_zero l -> all_zero (subarray l a b).
Proof. intro H. unfold subarray. now apply all_zero_firstn, all_zero_skipn. Qed.

Lemma all_zero_nth l i : all_zero l -> nth i l 0 == 0.
Proof.
  intro H. destruct (nth_in_or_default i l 0) as [I|E].
  - unfold all_zero in H. rewrite Forall_forall in H. now apply H.
  - now rewrite E.
Qed.

Lemma sum_squares_zero l : forall acc,
  all_zero l -> acc == 0 ->
  fold_left (fun sum sample => sum + sample * sample)%js l acc == 0.
Proof.
  induction l as [|x l IH]; intros acc Hl Hacc; simpl; auto.
  inversion Hl; subst. apply IH; auto. to_Q. rewrite Hacc, H1. reflexivity.
Qed.

Lemma frame_energy_zero rest : all_zero rest -> frame_energy rest == 0.
Proof.
  intro H. unfold frame_energy. apply sum_squares_zero.
  - now apply all_zero_firstn.
  - reflexivity.
Qed.

Lemma frame_energies_zero n : forall rest,
  all_zero rest -> all_zero (frame_energies n rest).
Proof.
  induction n as [|n IH]; intros rest H; cbn [frame_energies]; constructor.
  - now apply frame_energy_zero.
  - apply IH. now apply all_zero_skipn.
Qed.

Lemma onset_diffs_zero energies : forall prev,
  prev == 0 -> all_zero energies -> all_zero (onset_diffs prev energies).
Proof.
  induction energies as [|e rest IH]; intros prev Hp He; simpl; constructor.
  - inversion He; subst.
    destruct (Num.gtb (Num.sub e prev) 0) eqn:E; [|reflexivity].
    bool_to_Q. to_Q. lra.
  - inversion He; subst. apply IH; auto.
Qed.

Lemma sum_zero l : forall acc,
  all_zero l -> acc == 0 -> fold_left Num.add l acc == 0.
Proof.
  induction l as [|x l IH]; intros acc Hl Hacc; simpl; auto.
  inversion Hl; subst. apply IH; auto. to_Q. lra.
Qed.

Lemma onset_strength_zero energies :
  all_zero energies -> all_zero (onset_strength energies).
Proof.
  intro H. unfold onset_strength. cbv zeta.
  set (raw := match energies with [] => [] | e0 :: rest => onset_diffs e0 rest end).
  assert (Hraw : all_zero raw).
  { subst raw. destruct energies as [|e0 rest]; [constructor|].
    inversion H; subst. now apply onset_diffs_zero. }
  set (mean := if (0 <? Zlength raw)%Z then _ else 0).
  assert (Hmean : mean == 0).
  { subst mean. destruct (0 <? Zlength raw)%Z; [|reflexivity].
    to_Q. rewrite (sum_zero raw 0 Hraw); [|reflexivity].
    unfold Qdiv. apply Qmult_0_l. }
  unfold all_zero in *. rewrite Forall_forall in *. intros x Hx.
  apply in_map_iff in Hx. destruct Hx as (v & <- & Hv).
  specialize (Hraw v Hv).
  destruct (NumFacts.max_cases 0 (Num.sub v mean)) as [[L ->]|[L ->]].
  - to_Q. lra.
  - reflexivity.
Qed.

Lemma autocorrelation_zero onset lag :
  all_zero onset -> autocorrelation onset lag == 0.
Proof.
  intro H. unfold autocorrelation.
  assert (G : forall pairs acc,
             Forall (fun p => snd p == 0) pairs -> acc == 0 ->
             fold_left (fun sum p => sum + fst p * snd p)%js pairs acc == 0).
  { induction pairs as [|p pairs IH]; intros acc Hp Hacc; simpl; auto.
    inversion Hp; subst. apply IH; auto. to_Q. rewrite Hacc, H2. ring. }
  apply G; [|reflexivity].
  apply Forall_forall. intros [a b] Hin. simpl.
  apply in_combine_r in Hin. unfold all_zero in H. rewrite Forall_forall in H.
  now apply H.
Qed.

Lemma best_lag_loop_zero count : forall onset lag,
  all_zero onset -> best_lag_loop count onset lag 0%Z 0 = 0%Z.
Proof.
  induction count as [|count IH]; intros onset lag H; simpl; auto.
  destruct (Num.gtb (autocorrelation onset lag) 0) eqn:E.
  - bool_to_Q. rewrite (autocorrelation_zero onset lag H) in E. lra.
  - now apply IH.
Qed.

(** A silent buffer has no tempo. *)
Lemma estimateTempo_zero samples sampleRate :
  all_zero samples -> estimateTempo samples sampleRate = Returns None.
Proof.
  intro H. unfold estimateTempo. cbv zeta.
  destruct (Zlength samples <? Z.of_nat frameSize * 2)%Z; auto.
  destruct ((Zlength samples - Z.of_nat frameSize) / Z.of_nat hopSize + 1 <=? 2)%Z;
    auto.
  unfold tempoOfEnergies, bestLag_of. cbv zeta. rewrite best_lag_loop_zero; auto.
  now apply onset_strength_zero, frame_energies_zero.
Qed.

Lemma windows_loop_zero fuel : forall samples sampleRate w h start_,
  all_zero samples -> (0 < h)%Z ->
  (Zlength samples - w - start_ < Z.of_nat fuel)%Z ->
  windows_loop fuel samples sampleRate w h start_ = Returns [].
Proof.
  induction fuel as [|fuel IH]; intros samples sampleRate w h start_ Hz Hh Hfuel;
    rewrite windows_loop_unfold;
    destruct (Z.leb_spec (start_ + w) (Zlength samples)) as [Hc|Hc]; auto.
  - lia.
  - rewrite estimateTempo_zero by now apply all_zero_subarray.
    rewrite IH; auto. lia.
Qed.

Lemma buildTempoSegments_zero samples sampleRate :
  all_zero samples -> buildTempoSegments samples sampleRate = Returns [].
Proof.
  intro H. unfold buildTempoSegments, provisionalSegments. cbv zeta.
  set (w := Num.floor _). set (h := Num.floor _).
  destruct (Z.leb_spec w 0) as [Hw|Hw]; cbn [orb]; auto.
  destruct (Z.leb_spec h 0) as [Hh|Hh]; cbn [orb]; auto.
  destruct (Z.ltb_spec (Zlength samples) w) as [Hl|Hl]; auto.
  rewrite windows_loop_zero; auto.
  rewrite Zlength_correct. lia.
Qed.

(** *** The key of a silent buffer *)

Section KeyFacts.

Context {lib : MathLib}.

Lemma add_at_zero chroma : forall pc magnitude,
  all_zero chroma -> magnitude == 0 -> all_zero (add_at pc magnitude chroma).
Proof.
  induction chroma as [|c rest IH]; intros pc magnitude Hc Hm.
  - destruct pc; constructor.
  - inversion Hc; subst. destruct pc; simpl; constructor; auto.
    + to_Q. lra.
    + now apply IH.
Qed.

Lemma accumulate_bins_zero sampleRate spectrum chroma :
  all_zero spectrum -> all_zero chroma ->
  all_zero (accumulate_bins sampleRate spectrum chroma).
Proof.
  intros Hs. unfold accumulate_bins.
  generalize (seq 1 (Z.to_nat (KEY_FRAME_SIZE / 2) - 1)). intro bins.
  revert chroma. induction bins as [|bin bins IH]; intros chroma Hc; simpl; auto.
  apply IH.
  destruct (_ || _); auto.
  apply add_at_zero; auto.
  to_Q. rewrite (all_zero_nth spectrum (bin * 2) Hs).
  rewrite (all_zero_nth spectrum (bin * 2 + 1) Hs). ring.
Qed.

Lemma windowed_frame_zero samples window :
  all_zero samples ->
  all_zero (map (fun p => (fst p * snd p)%js) (combine samples window)).
Proof.
  intro H. apply Forall_forall. intros x Hx.
  apply in_map_iff in Hx. destruct Hx as ([a b] & <- & Hin). simpl.
  apply in_combine_l in Hin. unfold all_zero in H. rewrite Forall_forall in H.
  to_Q. rewrite (H a Hin). ring.
Qed.

Lemma key_frames_loop_unfold fuel samples sampleRate maxSamples start_ chroma :
  key_frames_loop fuel samples sampleRate maxSamples start_ chroma =
  if (start_ + KEY_FRAME_SIZE <=? maxSamples)%Z then
    match fuel with
    | O => Loops
    | S fuel' =>
        key_frames_loop fuel' samples sampleRate maxSamples
          (start_ + KEY_HOP_SIZE)%Z
          (accumulate_bins sampleRate
             (realTransform
                (map (fun p => (fst p * snd p)%js)
                     (combine (subarray samples start_ (start_ + KEY_FRAME_SIZE))
                              HANN_WINDOW)))
             chroma)
    end
  else Returns chroma.
Proof. destruct fuel; reflexivity. Qed.

(** The frame loop always returns. *)
Lemma key_frames_loop_returns fuel : forall samples sampleRate maxSamples start_ chroma,
  (maxSamples - KEY_FRAME_SIZE - start_ < Z.of_nat fuel)%Z ->
  exists result,
    key_frames_loop fuel samples sampleRate maxSamples start_ chroma
    = Returns result.
Proof.
  induction fuel as [|fuel IH]; intros samples sampleRate maxSamples start_ chroma Hf;
    rewrite key_frames_loop_unfold;
    destruct (Z.leb_spec (start_ + KEY_FRAME_SIZE) maxSamples) as [Hc|Hc];
    try (eexists; reflexivity).
  - lia.
  - apply IH. unfold KEY_HOP_SIZE. lia.
Qed.

Lemma key_frames_loop_zero fuel : forall samples sampleRate maxSamples start_ chroma,
  zero_preserving lib -> all_zero samples -> all_zero chroma ->
  (maxSamples - KEY_FRAME_SIZE - start_ < Z.of_nat fuel)%Z ->
  exists result,
    key_frames_loop fuel samples sampleRate maxSamples start_ chroma
    = Returns result /\ all_zero result.
Proof.
  induction fuel as [|fuel IH];
    intros samples sampleRate maxSamples start_ chroma Hlib Hs Hc Hf;
    rewrite key_frames_loop_unfold;
    destruct (Z.leb_spec (start_ + KEY_FRAME_SIZE) maxSamples) as [Hle|Hle];
    try (eexists; split; [reflexivity|assumption]).
  - lia.
  - apply IH; auto.
    + apply accumulate_bins_zero; auto.
      apply Hlib, windowed_frame_zero. now apply all_zero_subarray.
    + unfold KEY_HOP_SIZE. lia.
Qed.

Lemma normalizeVector_zero values :
  all_zero values -> normalizeVector values = None.
Proof.
  intro H. unfold normalizeVector. cbv zeta.
  assert (E : fold_left (fun sum value => sum + value * value)%js values 0 == 0)
    by (apply sum_squares_zero; [assumption|reflexivity]).
  apply NumFacts.truthy_false in E. now rewrite E.
Qed.

Lemma estimateKey_returns samples sampleRate :
  exists r, estimateKey samples sampleRate = Returns r.
Proof.
  unfold estimateKey. cbv zeta.
  set (maxSamples := Z.min _ _).
  destruct (maxSamples <? KEY_FRAME_SIZE)%Z; [eexists; reflexivity|].
  destruct (key_frames_loop_returns (S (Z.to_nat maxSamples)) samples sampleRate
              maxSamples 0%Z (repeat 0 12)) as (c & Hc).
  - unfold KEY_FRAME_SIZE. lia.
  - rewrite Hc. simpl. eexists; reflexivity.
Qed.

Lemma estimateKey_zero samples sampleRate :
  zero_preserving lib -> all_zero samples ->
  estimateKey samples sampleRate = Returns None.
Proof.
  intros Hlib Hs. unfold estimateKey. cbv zeta.
  set (maxSamples := Z.min _ _).
  destruct (maxSamples <? KEY_FRAME_SIZE)%Z; auto.
  destruct (key_frames_loop_zero (S (Z.to_nat maxSamples)) samples sampleRate
              maxSamples 0%Z (repeat 0 12) Hlib Hs (all_zero_repeat 12))
    as (c & Hc & Hz).
  - unfold KEY_FRAME_SIZE. lia.
  - rewrite Hc. simpl. now rewrite normalizeVector_zero.
Qed.

End KeyFacts.

(** ** The scoring loops *)






Lemma clamp01_bounds x : 0 <= clamp01 x /\ clamp01 x <= 1.
Proof.
  unfold clamp01.
  destruct (NumFacts.min_cases 1 x) as [[L ->]|[L ->]];
    destruct (NumFacts.max_cases 0 x) as [[M E]|[M E]];
    destruct (NumFacts.max_cases 0 1) as [[M' E']|[M' E']];
    rewrite ?E, ?E'; lra.
Qed.

Section ScoreFacts.

Context {lib : MathLib}.






End ScoreFacts.

(** ** The cache *)

(** Every path through [readCache] resolves, with the world as it was. *)
Lemma readCache_lookup cachePath stat w :
  readCache cachePath stat w
  = (Resolved (cache_lookup (cacheFiles w cachePath) stat), w).
Proof.
  unfold readCache, try_catch, bind, fs_readFile, cache_lookup.
  destruct (cacheFiles w cachePath) as [[|v]|]; simpl; auto.
  destruct v; simpl; auto.
  destruct (strict_eq_number (assoc "audioMtimeMs" props) (mtimeMs stat));
    simpl; auto.
  destruct (strict_eq_number (assoc "audioSize" props) (size stat));
    simpl; auto.
  destruct (js_truthy (assoc "analysis" props)); simpl; auto.
Qed.

Section OrchestratorFacts.

Context {lib : MathLib}.

Lemma getSongAnalysis_no_stat options w :
  audioStat w (audioPath options) = None ->
  getSongAnalysis options w = (Resolved None, w).
Proof.
  intro H. unfold getSongAnalysis, bind, try_catch, fs_stat. now rewrite H.
Qed.

Lemma getSongAnalysis_with_stat options w stat :
  audioStat w (audioPath options) = Some stat ->
  getSongAnalysis options w =
  if force options then recompute options stat w
  else match cache_lookup
               (cacheFiles w (getCachePath (cacheDir options) (songId options)))
               stat with
       | Some value => (Resolved (Some value), w)
       | None => recompute options stat w
       end.
Proof.
  intro H. unfold getSongAnalysis, bind, try_catch, fs_stat. rewrite H. simpl.
  destruct (force options); simpl; auto.
  rewrite readCache_lookup.
  destruct (cache_lookup _ _); reflexivity.
Qed.

End OrchestratorFacts.

(** *** Reading back what was written *)



Lemma as_KeyEstimate_value k : as_KeyEstimate (KeyEstimate_value k) = Some k.
Proof. destruct k as [t [|] c]; reflexivity. Qed.



Lemma strict_eq_number_refl q : strict_eq_number (Some (JNumber q)) q = true.
Proof. simpl. apply Qeq_bool_iff. reflexivity. Qed.


(** ** The tempo map of the beat-tracking strategy *)

Module WorkerFacts.

Import Worker WorkerAux.

Lemma sum_bounds lo hi l : forall acc,
  Forall (fun x => lo <= x /\ x <= hi) l ->
  acc + lo * inject_Z (Zlength l) <= fold_left Num.add l acc /\
  fold_left Num.add l acc <= acc + hi * inject_Z (Zlength l).
Proof.
  induction l as [|x l IH]; intros acc H; simpl.
  - change (inject_Z (Zlength [])) with 0. split; lra.
  - inversion H as [|? ? [Hlo Hhi] Hl]; subst.
    destruct (IH (Num.add acc x) Hl) as [L U].
    rewrite Zlength_cons. unfold Z.succ. rewrite inject_Z_plus.
    change (inject_Z 1) with 1.
    pose proof (NumFacts.add_eq acc x). split; lra.
Qed.

Lemma average_bounds lo hi l :
  l <> [] -> Forall (fun x => lo <= x /\ x <= hi) l ->
  exists a, average l = Some a /\ lo <= a /\ a <= hi.
Proof.
  intros Hne H. unfold average. destruct l as [|x l]; [congruence|].
  eexists. split; [reflexivity|].
  destruct (sum_bounds lo hi (x :: l) 0 H) as [L U].
  assert (Hn : 0 < inject_Z (Zlength (x :: l))).
  { change 0 with (inject_Z 0). rewrite <- Zlt_Qlt.
    rewrite Zlength_correct. simpl length. lia. }
  unfold Num.of_Z. rewrite NumFacts.div_eq.
  set (n := inject_Z (Zlength (x :: l))) in *.
  set (total := fold_left Num.add (x :: l) 0) in *.
  clearbody n total. rewrite Qplus_0_l in L, U. split.
  - apply Qle_shift_div_l; auto.
  - apply Qle_shift_div_r; auto.
Qed.

Lemma slice_last_Forall (P : Q -> Prop) n l :
  Forall P l -> Forall P (slice_last n l).
Proof.
  unfold slice_last. generalize (length l - n)%nat. intro k. revert l.
  induction k as [|k IH]; intros l H; simpl; auto.
  destruct H; [constructor|]. now apply IH.
Qed.

Lemma slice_last_nonempty n l : (0 < n)%nat -> l <> [] -> slice_last n l <> [].
Proof.
  intros Hn Hl E. unfold slice_last in E.
  assert (L : length (skipn (length l - n) l) = (length l - (length l - n))%nat)
    by apply length_skipn.
  rewrite E in L. change (length (@nil Q)) with 0%nat in L.
  destruct l; [congruence|]. cbn [length] in L. lia.
Qed.

(** What one turn of the first loop does: nothing, or one more interval,
    well formed and with a smoothed tempo in the range. *)
Lemma beat_step_cases st start_ end__ :
  Forall rate_in_range (history st) ->
  beat_step st start_ end__ = st \/
  exists smoothed nextHistory,
    beat_step st start_ end__ =
    {| intervals := intervals st
                    ++ [ {| start := start_; end_ := end__; bpm := smoothed |} ];
       history := nextHistory;
       lastStable := Some smoothed |} /\
    start_ < end__ /\ rate_in_range smoothed /\ Forall rate_in_range nextHistory.
Proof.
  intro Hh. unfold beat_step. cbv zeta.
  destruct (Num.leb (Num.sub end__ start_) 0) eqn:E1; [now left|].
  destruct (Num.ltb (Num.div 60 (Num.sub end__ start_)) BPM_MIN) eqn:E2;
    [now left|].
  destruct (Num.gtb (Num.div 60 (Num.sub end__ start_)) BPM_MAX) eqn:E3;
    [now left|]. cbn [orb].
  set (raw := Num.div 60 (Num.sub end__ start_)) in *.
  set (nextHistory := slice_last MOVING_AVG_WINDOW (history st ++ [raw])).
  assert (Hraw : rate_in_range raw) by (bool_to_Q; split; assumption).
  assert (Hnext : Forall rate_in_range nextHistory).
  { apply slice_last_Forall. apply Forall_app. split; auto. }
  destruct (average_bounds BPM_MIN BPM_MAX nextHistory) as (a & Ha & Hlo & Hhi).
  - apply slice_last_nonempty; [unfold MOVING_AVG_WINDOW; lia|].
    destruct (history st); discriminate.
  - exact Hnext.
  - rewrite Ha. destruct (negb (Num.truthy a)); [now left|].
    destruct (is_glitch (lastStable st) a); [now left|].
    right. exists a, nextHistory. repeat split; auto.
    bool_to_Q. to_Q. lra.
Qed.

Lemma StronglySorted_snoc {A} (R : A -> A -> Prop) l x :
  StronglySorted R l -> Forall (fun a => R a x) l -> StronglySorted R (l ++ [x]).
Proof.
  induction 1 as [|a l Hs IH Ha]; intro Hx; simpl.
  - repeat constructor.
  - inversion Hx; subst. constructor; auto.
    apply Forall_app. split; auto.
Qed.

Lemma beat_step_invariant st prev beat :
  beat_invariant st prev -> prev <= beat ->
  beat_invariant (beat_step st prev beat) beat.
Proof.
  intros [H1 H2 H3 H4 H5] Hle.
  assert (H5' : Forall (fun a => end_ a <= beat) (intervals st)).
  { eapply Forall_impl; [|exact H5]. simpl. intros; lra. }
  destruct (beat_step_cases st prev beat H1) as [E|(sm & nh & E & Hlt & Hr & Hn)];
    rewrite E.
  - constructor; auto.
  - constructor; simpl; auto.
    + apply Forall_app. split; [assumption|].
      constructor; [exact Hlt|constructor].
    + apply Forall_app. split; [assumption|].
      constructor; [exact Hr|constructor].
    + apply StronglySorted_snoc; auto.
    + apply Forall_app. split; [assumption|].
      constructor; [|constructor]. simpl. lra.
Qed.

Lemma beats_loop_invariant rest : forall prev st,
  beat_invariant st prev -> StronglySorted Qle (prev :: rest) ->
  exists last, beat_invariant (beats_loop prev rest st) last.
Proof.
  induction rest as [|beat rest IH]; intros prev st Hinv Hs; simpl.
  - now exists prev.
  - inversion Hs as [|? ? Hs' Hall]; subst. inversion Hall; subst.
    apply IH; auto. now apply beat_step_invariant.
Qed.

Lemma Sorted_Qle_strongly beats : Sorted Qle beats -> StronglySorted Qle beats.
Proof.
  apply Sorted_StronglySorted. intros a b c. apply Qle_trans.
Qed.

(** On beats that never go back, the accepted intervals are well formed,
    in the range and in order. *)
Lemma acceptedIntervals_sorted beats :
  Sorted Qle beats ->
  Forall well_formed (acceptedIntervals beats) /\
  Forall (in_range BPM_MIN BPM_MAX) (acceptedIntervals beats) /\
  Sorted after (acceptedIntervals beats).
Proof.
  intro Hs. unfold acceptedIntervals. destruct beats as [|first rest].
  - repeat constructor.
  - destruct (beats_loop_invariant rest first
                {| intervals := []; history := []; lastStable := None |})
      as (last & [H1 H2 H3 H4 H5]).
    + constructor; simpl; constructor.
    + now apply Sorted_Qle_strongly.
    + repeat split; auto. now apply StronglySorted_Sorted.
Qed.

(** Whatever the beats, an accepted interval has its tempo in the range. *)
Lemma beats_loop_in_range rest : forall prev st,
  Forall rate_in_range (history st) ->
  Forall (in_range BPM_MIN BPM_MAX) (intervals st) ->
  Forall (in_range BPM_MIN BPM_MAX) (intervals (beats_loop prev rest st)).
Proof.
  induction rest as [|beat rest IH]; intros prev st Hh Hi; simpl; auto.
  destruct (beat_step_cases st prev beat Hh) as [E|(sm & nh & E & Hlt & Hr & Hn)];
    rewrite E.
  - now apply IH.
  - apply IH; simpl; auto.
    apply Forall_app. split; [assumption|]. constructor; [exact Hr|constructor].
Qed.

Lemma acceptedIntervals_in_range beats :
  Forall (in_range BPM_MIN BPM_MAX) (acceptedIntervals beats).
Proof.
  unfold acceptedIntervals. destruct beats as [|first rest]; [constructor|].
  apply beats_loop_in_range; constructor.
Qed.

(** *** The second loop *)

Lemma worker_merge_step_snoc before last interval :
  merge_step (before ++ [last]) interval =
  if within_tolerance last interval
  then before ++ [merge_pair last interval]
  else (before ++ [last]) ++ [interval].
Proof.
  unfold merge_step. rewrite rev_app_distr. simpl.
  fold (within_tolerance last interval).
  destruct (within_tolerance last interval); auto.
  now rewrite rev_involutive.
Qed.

Lemma worker_fold_merge_step rest : forall before last,
  fold_left merge_step rest (before ++ [last]) = before ++ merge_into last rest.
Proof.
  induction rest as [|interval rest IH]; intros before last; simpl; auto.
  rewrite worker_merge_step_snoc. destruct (within_tolerance last interval).
  - apply IH.
  - rewrite IH. now rewrite <- app_assoc.
Qed.

Lemma mergeIntervals_cons interval rest :
  mergeIntervals (interval :: rest) = merge_into interval rest.
Proof.
  unfold mergeIntervals. simpl.
  change (merge_step [] interval) with ([] ++ [interval]).
  now rewrite worker_fold_merge_step.
Qed.

Lemma worker_merge_pair_props lo hi last interval :
  well_formed last -> well_formed interval -> after last interval ->
  in_range lo hi last -> in_range lo hi interval ->
  well_formed (merge_pair last interval) /\
  in_range lo hi (merge_pair last interval).
Proof.
  unfold well_formed, after, in_range, merge_pair. simpl.
  intros Hl Hi Ha [L1 L2] [I1 I2]. split; [lra|].
  to_Q. apply weighted_mean_bounds; lra.
Qed.

Lemma worker_merge_into_in_range lo hi rest : forall last,
  well_formed last -> Forall well_formed rest ->
  HdRel after last rest -> Sorted after rest ->
  in_range lo hi last -> Forall (in_range lo hi) rest ->
  Forall (in_range lo hi) (merge_into last rest).
Proof.
  induction rest as [|interval rest IH]; intros last Hl Hr Hh Hs Il Ir; simpl.
  - constructor; auto.
  - inversion Hr as [|? ? Wi Wr]; subst. inversion Ir as [|? ? Ii Irest]; subst.
    inversion Hh as [|? ? Ha]; subst. inversion Hs as [|? ? Hs' Hhd]; subst.
    destruct (within_tolerance last interval).
    + destruct (worker_merge_pair_props lo hi last interval) as [W I]; auto.
      apply IH; auto.
      destruct Hhd as [|next rest' Hn]; constructor.
      unfold after in *. simpl. assumption.
    + constructor; auto.
Qed.

Lemma mergeIntervals_in_range lo hi intervals_ :
  Forall well_formed intervals_ -> Sorted after intervals_ ->
  Forall (in_range lo hi) intervals_ ->
  Forall (in_range lo hi) (mergeIntervals intervals_).
Proof.
  destruct intervals_ as [|i rest]; intros Hw Hs Hr.
  - constructor.
  - rewrite mergeIntervals_cons.
    inversion Hw; subst. inversion Hs; subst. inversion Hr; subst.
    now apply worker_merge_into_in_range.
Qed.

Lemma extendLast_in_range lo hi merged duration :
  Forall (in_range lo hi) merged ->
  Forall (in_range lo hi) (extendLast merged duration).
Proof.
  intro H. unfold extendLast.
  destruct (rev merged) as [|last before] eqn:E; auto.
  destruct (Num.gtb duration (end_ last)); auto.
  assert (Hrev : Forall (in_range lo hi) (rev merged)) by now apply Forall_rev.
  rewrite E in Hrev. inversion Hrev; subst.
  apply Forall_app. split.
  - now apply Forall_rev.
  - constructor; [exact H2|constructor].
Qed.

Lemma keptTicks_sorted ticks duration :
  Sorted Qle ticks -> Sorted Qle (keptTicks ticks duration).
Proof.
  intro H. apply StronglySorted_Sorted.
  apply Sorted_Qle_strongly in H. unfold keptTicks.
  induction H as [|t l Hs IH Hall]; simpl; [constructor|].
  destruct (_ && _); auto. constructor; auto.
  apply Forall_forall. intros x Hx. apply filter_In in Hx.
  rewrite Forall_forall in Hall. now apply Hall.
Qed.

End WorkerFacts.

(** ** Buffers given by their impulses *)

Lemma silent_repeat n : silent (repeat 0 n).
Proof. apply Forall_forall. intros x H. now apply repeat_spec in H. Qed.

Lemma silent_firstn n : forall l, silent l -> silent (firstn n l).
Proof.
  induction n as [|n IH]; intros l H; simpl; [constructor|].
  destruct H; constructor; auto. now apply IH.
Qed.

Lemma silent_skipn n : forall l, silent l -> silent (skipn n l).
Proof.
  induction n as [|n IH]; intros l H; simpl; auto.
  destruct H; [constructor|]. now apply IH.
Qed.

Lemma add_zero_canonical acc : Qred acc = acc -> Num.add acc (Num.mul 0 0) = acc.
Proof.
  intro H. change (Num.mul 0 0) with 0. unfold Num.add.
  rewrite <- H at 2. apply Qred_complete. ring.
Qed.

Lemma add_canonical a b : Qred (Num.add a b) = Num.add a b.
Proof. unfold Num.add. apply Qred_complete, Qred_correct. Qed.

(** Silence adds nothing to a sum of squares. *)
Lemma fold_squares_silent l : forall acc,
  silent l -> Qred acc = acc -> fold_squares l acc = acc.
Proof.
  induction l as [|x l IH]; intros acc Hl Hacc; simpl; auto.
  inversion Hl; subst. unfold fold_squares in *. simpl.
  rewrite add_zero_canonical by assumption. now apply IH.
Qed.

Lemma fold_squares_app l1 l2 acc :
  fold_squares (l1 ++ l2) acc = fold_squares l2 (fold_squares l1 acc).
Proof. apply fold_left_app. Qed.

Lemma zeros_length n : length (zeros n) = Z.to_nat n.
Proof. apply repeat_length. Qed.

Lemma well_placed_le len impulses : forall pos,
  well_placed pos impulses len = true -> (pos <= len)%Z.
Proof.
  induction impulses as [|[p v] rest IH]; intros pos H; simpl in H.
  - now apply Z.leb_le.
  - apply andb_prop in H. destruct H as [Hp Hr]. apply Z.leb_le in Hp.
    specialize (IH _ Hr). lia.
Qed.

Lemma render_length len impulses : forall pos,
  well_placed pos impulses len = true ->
  length (render pos impulses len) = Z.to_nat (len - pos).
Proof.
  induction impulses as [|[p v] rest IH]; intros pos H; simpl in *.
  - apply zeros_length.
  - apply andb_prop in H. destruct H as [Hp Hr]. apply Z.leb_le in Hp.
    rewrite length_app, zeros_length. simpl. rewrite (IH _ Hr).
    pose proof (well_placed_le len rest _ Hr). lia.
Qed.

Lemma fold_impulses_beyond len impulses : forall pos lo hi acc,
  well_placed pos impulses len = true -> (hi <= pos)%Z ->
  fold_impulses lo hi impulses acc = acc.
Proof.
  induction impulses as [|[p v] rest IH]; intros pos lo hi acc H Hle; auto.
  simpl in H. apply andb_prop in H. destruct H as [Hp Hr]. apply Z.leb_le in Hp.
  unfold fold_impulses. simpl.
  replace (p <? hi)%Z with false by (symmetry; apply Z.ltb_ge; lia).
  rewrite andb_false_r. apply (IH (p + 1)%Z); auto. lia.
Qed.

Lemma fold_impulses_lower len impulses : forall pos lo lo' hi acc,
  well_placed pos impulses len = true -> (lo <= pos)%Z -> (lo' <= pos)%Z ->
  fold_impulses lo hi impulses acc = fold_impulses lo' hi impulses acc.
Proof.
  induction impulses as [|[p v] rest IH]; intros pos lo lo' hi acc H Hlo Hlo'; auto.
  simpl in H. apply andb_prop in H. destruct H as [Hp Hr]. apply Z.leb_le in Hp.
  unfold fold_impulses. simpl.
  replace (lo <=? p)%Z with true by (symmetry; apply Z.leb_le; lia).
  replace (lo' <=? p)%Z with true by (symmetry; apply Z.leb_le; lia).
  apply (IH (p + 1)%Z); auto; lia.
Qed.

(** The sum of squares over a stretch of a rendered buffer is the sum
    over the impulses in the stretch. *)
Lemma window_squares len impulses : forall pos acc o n,
  well_placed pos impulses len = true ->
  (pos <= o)%Z -> (0 <= n)%Z -> (o + n <= len)%Z -> Qred acc = acc ->
  fold_squares (firstn (Z.to_nat n)
                       (skipn (Z.to_nat (o - pos)) (render pos impulses len))) acc
  = fold_impulses o (o + n) impulses acc.
Proof.
  induction impulses as [|[p v] rest IH]; intros pos acc o n H Hpos Hn Hlen Hacc.
  - simpl. apply fold_squares_silent; auto.
    apply silent_firstn, silent_skipn, silent_repeat.
  - simpl in H. apply andb_prop in H. destruct H as [Hp Hr]. apply Z.leb_le in Hp.
    cbn [render]. rewrite skipn_app, zeros_length.
    destruct (Z_lt_le_dec p o) as [Hbefore|Hfrom].
    + (* the impulse comes before the stretch *)
      rewrite (skipn_all2 (zeros (p - pos))) by (rewrite zeros_length; lia).
      replace (Z.to_nat (o - pos) - Z.to_nat (p - pos))%nat
        with (S (Z.to_nat (o - (p + 1)))) by lia.
      cbn [app skipn]. rewrite (IH (p + 1)%Z) by (auto; lia).
      unfold fold_impulses. simpl.
      replace (o <=? p)%Z with false by (symmetry; apply Z.leb_gt; lia).
      reflexivity.
    + replace (Z.to_nat (o - pos) - Z.to_nat (p - pos))%nat with 0%nat by lia.
      cbn [skipn]. rewrite firstn_app.
      assert (Hs : silent (skipn (Z.to_nat (o - pos)) (zeros (p - pos))))
        by apply silent_skipn, silent_repeat.
      assert (Hl : length (skipn (Z.to_nat (o - pos)) (zeros (p - pos)))
                   = Z.to_nat (p - o))
        by (rewrite length_skipn, zeros_length; lia).
      rewrite Hl, fold_squares_app.
      rewrite (fold_squares_silent
                 (firstn (Z.to_nat n) (skipn (Z.to_nat (o - pos)) (zeros (p - pos))))
                 acc)
        by (auto using silent_firstn).
      destruct (Z_lt_le_dec p (o + n)) as [Hin|Hafter].
      * (* the impulse is in the stretch *)
        replace (Z.to_nat n - Z.to_nat (p - o))%nat
          with (S (Z.to_nat (o + n - (p + 1)))) by lia.
        cbn [firstn]. unfold fold_squares at 1. cbn [fold_left].
        fold (fold_squares (firstn (Z.to_nat (o + n - (p + 1)))
                                   (render (p + 1) rest len))
                           (Num.add acc (Num.mul v v))).
        pose proof (IH (p + 1)%Z (Num.add acc (Num.mul v v)) (p + 1)%Z
                       (o + n - (p + 1))%Z Hr) as E.
        replace (p + 1 - (p + 1))%Z with 0%Z in E by lia.
        replace (p + 1 + (o + n - (p + 1)))%Z with (o + n)%Z in E by lia.
        cbn [Z.to_nat skipn] in E. rewrite E by (auto using add_canonical; lia).
        unfold fold_impulses at 2. cbn [fold_left fst snd].
        replace (o <=? p)%Z with true by (symmetry; apply Z.leb_le; lia).
        replace (p <? o + n)%Z with true by (symmetry; apply Z.ltb_lt; lia).
        cbn [andb].
        apply (fold_impulses_lower len rest (p + 1)%Z); auto; lia.
      * (* the impulse comes after the stretch *)
        replace (Z.to_nat n - Z.to_nat (p - o))%nat with 0%nat by lia.
        cbn [firstn]. unfold fold_squares at 1. cbn [fold_left].
        unfold fold_impulses. cbn [fold_left fst snd].
        replace (p <? o + n)%Z with false by (symmetry; apply Z.ltb_ge; lia).
        rewrite andb_false_r.
        symmetry. apply (fold_impulses_beyond len rest (p + 1)%Z); auto; lia.
Qed.

(** The frame energies of a stretch of a rendered buffer. *)
Lemma frame_energies_render len impulses pos :
  well_placed pos impulses len = true ->
  forall count o width,
    (pos <= o)%Z -> (o + Z.of_nat width <= len)%Z ->
    (count <> 0 -> (count - 1) * hopSize + frameSize <= width)%nat ->
    frame_energies count
      (firstn width (skipn (Z.to_nat (o - pos)) (render pos impulses len)))
    = energies_from count o impulses.
Proof.
  intro H. induction count as [|count IH]; intros o width Hpos Hlen Hw; auto.
  cbn [frame_energies energies_from]. f_equal.
  - unfold frame_energy. rewrite firstn_firstn.
    assert (Hfw : (frameSize <= width)%nat)
      by (specialize (Hw (Nat.neq_succ_0 _)); lia).
    assert (Hmin : Nat.min frameSize width = frameSize) by lia.
    rewrite Hmin.
    change (fold_squares
              (firstn frameSize (skipn (Z.to_nat (o - pos)) (render pos impulses len)))
              0
            = fold_impulses o (o + Z.of_nat frameSize) impulses 0).
    rewrite <- (Nat2Z.id frameSize) at 1.
    apply window_squares; auto; lia.
  - rewrite skipn_firstn_comm, skipn_skipn.
    replace (hopSize + Z.to_nat (o - pos))%nat
      with (Z.to_nat (o + Z.of_nat hopSize - pos)) by lia.
    apply IH; try lia.
    + specialize (Hw (Nat.neq_succ_0 _)). unfold hopSize, frameSize in *. lia.
    + intro Hc. specialize (Hw (Nat.neq_succ_0 _)).
      unfold hopSize, frameSize in *. lia.
Qed.

Lemma subarray_length len impulses a b :
  well_placed 0 impulses len = true -> (0 <= a)%Z -> (a <= b)%Z -> (b <= len)%Z ->
  Zlength (subarray (render 0 impulses len) a b) = (b - a)%Z.
Proof.
  intros H Ha Hab Hb. rewrite Zlength_correct. unfold subarray.
  rewrite length_firstn, length_skipn, (render_length len impulses 0 H). lia.
Qed.

(** [estimateTempo] on a stretch of a rendered buffer. *)
Lemma estimateTempo_render len impulses a b sampleRate :
  well_placed 0 impulses len = true -> (0 <= a)%Z -> (a <= b)%Z -> (b <= len)%Z ->
  estimateTempo (subarray (render 0 impulses len) a b) sampleRate
  = estimateTempo_at impulses a b sampleRate.
Proof.
  intros H Ha Hab Hb. unfold estimateTempo, estimateTempo_at. cbv zeta.
  rewrite (subarray_length len impulses a b H Ha Hab Hb).
  destruct (Z.ltb_spec (b - a) (Z.of_nat frameSize * 2)) as [Hs|Hs]; auto.
  destruct (Z.leb_spec ((b - a - Z.of_nat frameSize) / Z.of_nat hopSize + 1) 2)
    as [Hc|Hc]; auto.
  f_equal. unfold subarray.
  replace (Z.to_nat a) with (Z.to_nat (a - 0)) by (f_equal; lia).
  apply frame_energies_render; auto; try lia.
  intros _.
  assert (Hdiv : (Z.of_nat hopSize
                  * ((b - a - Z.of_nat frameSize) / Z.of_nat hopSize)
                  <= b - a - Z.of_nat frameSize)%Z)
    by (apply Z.mul_div_le; unfold hopSize; lia).
  unfold hopSize, frameSize in *. 
  assert (Hq : (0 <= (b - a - 1024) / 512)%Z)
    by (apply Z.div_pos; lia).
  change (Z.of_nat 1024) with 1024%Z in *. change (Z.of_nat 512) with 512%Z in *.
  set (q := ((b - a - 1024) / 512)%Z) in *.
  apply Nat2Z.inj_le. rewrite Nat2Z.inj_add, Nat2Z.inj_mul, Nat2Z.inj_sub by lia.
  rewrite !Z2Nat.id by lia.
  change (Z.of_nat 1) with 1%Z. change (Z.of_nat 1024) with 1024%Z.
  change (Z.of_nat 512) with 512%Z. lia.
Qed.

Lemma windows_loop_at_unfold fuel impulses len sampleRate w h start_ :
  windows_loop_at fuel impulses len sampleRate w h start_ =
  if (start_ + w <=? len)%Z then
    match fuel with
    | O => Loops
    | S fuel' =>
        (bpm_ <- estimateTempo_at impulses start_ (start_ + w) sampleRate ;;
         rest <- windows_loop_at fuel' impulses len sampleRate w h (start_ + h)%Z ;;
         Returns (if falsy bpm_ then rest
                  else match bpm_ with
                       | Some b =>
                           {| start := Num.div (Num.of_Z start_) sampleRate;
                              end_ := Num.div (Num.of_Z (start_ + w)) sampleRate;
                              bpm := b |} :: rest
                       | None => rest
                       end))%run
    end
  else Returns [].
Proof. destruct fuel; reflexivity. Qed.

Lemma windows_loop_render len impulses sampleRate w h fuel : forall start_,
  well_placed 0 impulses len = true -> (0 <= w)%Z -> (0 <= h)%Z -> (0 <= start_)%Z ->
  windows_loop fuel (render 0 impulses len) sampleRate w h start_
  = windows_loop_at fuel impulses len sampleRate w h start_.
Proof.
  induction fuel as [|fuel IH]; intros start_ H Hw Hh Hs;
    rewrite windows_loop_unfold, windows_loop_at_unfold;
    rewrite Zlength_correct, (render_length len impulses 0 H);
    pose proof (well_placed_le len impulses 0%Z H) as Hlen;
    replace (Z.of_nat (Z.to_nat (len - 0))) with len by lia;
    destruct (Z.leb_spec (start_ + w) len) as [Hc|Hc]; auto.
  rewrite (estimateTempo_render len impulses start_ (start_ + w)) by (auto; lia).
  rewrite IH by (auto; lia). reflexivity.
Qed.

(** [buildTempoSegments] on a rendered buffer. *)
Lemma buildTempoSegments_render len impulses sampleRate :
  well_placed 0 impulses len = true -> (0 <= len)%Z ->
  buildTempoSegments (render 0 impulses len) sampleRate
  = buildTempoSegments_at impulses len sampleRate.
Proof.
  intros H Hlen. unfold buildTempoSegments, provisionalSegments, buildTempoSegments_at.
  cbv zeta. rewrite Zlength_correct, (render_length len impulses 0 H).
  replace (Z.of_nat (Z.to_nat (len - 0))) with len by lia.
  set (w := Num.floor _). set (h := Num.floor _).
  destruct (Z.leb_spec w 0) as [Hw|Hw]; cbn [orb]; auto.
  destruct (Z.leb_spec h 0) as [Hh|Hh]; cbn [orb]; auto.
  destruct (Z.ltb_spec len w) as [Hl|Hl]; auto.
  rewrite windows_loop_render by (auto; lia). reflexivity.
Qed.

(** * The claims *)

Lemma Sorted_weaken {A} (R R' : A -> A -> Prop) l :
  (forall a b, R a b -> R' a b) -> Sorted R l -> Sorted R' l.
Proof.
  intros Himp H. induction H as [|a l Hs IH Hh]; constructor; auto.
  destruct Hh; constructor; auto.
Qed.

Lemma follows_weaken overlap overlap' a b :
  overlap <= overlap' -> follows overlap a b -> follows overlap' a b.
Proof.
  intros Hle (H1 & H2 & H3). repeat split; auto. lra.
Qed.

Lemma window_samples :
  Num.floor (Num.mul SAMPLE_RATE BPM_WINDOW_SECONDS) = 661500%Z.
Proof. reflexivity. Qed.

Lemma hop_samples :
  Num.floor (Num.mul SAMPLE_RATE BPM_HOP_SECONDS) = 330750%Z.
Proof. reflexivity. Qed.

Lemma sample_rate_pos : 0 < SAMPLE_RATE.
Proof. reflexivity. Qed.

(** The provisional segments of a buffer at the sample rate of the
    server, and what is known of them. *)
Lemma provisionalSegments_facts samples :
  exists segs,
    provisionalSegments samples SAMPLE_RATE = Returns segs /\
    Forall well_formed segs /\
    Forall (in_range BPM_MIN BPM_MAX) segs /\
    Sorted (follows 15) segs.
Proof.
  destruct (provisionalSegments_returns samples SAMPLE_RATE sample_rate_pos)
    as (segs & Hs & Hp & Hpos).
  exists segs. split; auto.
  destruct segs as [|s segs]; [repeat constructor|].
  destruct Hpos as [Hw Hh]; [discriminate|].
  split; [|split].
  - exact (provisional_well_formed _ _ _ sample_rate_pos Hw _ _ Hp).
  - exact (provisional_in_range _ _ _ _ _ Hp).
  - eapply Sorted_weaken;
      [|exact (provisional_sorted _ _ _ sample_rate_pos Hh _ _ Hp)].
    intros a b. apply follows_weaken.
    rewrite window_samples, hop_samples. vm_compute. discriminate.
Qed.

(** C1, as amended.  For every sample buffer [buildTempoSegments]
    returns, and in the list it returns every segment has [start < end],
    the segments are in strictly increasing order of [start] (and of
    [end]), and a segment reaches back into its predecessor by 15 seconds
    at most (the window less the hop).  Segments may overlap, and the
    tempos of consecutive segments may be within the merge tolerance. *)
Theorem buildTempoSegments_ordered (samples : list Q) :
  exists segments,
    buildTempoSegments samples SAMPLE_RATE = Returns segments /\
    Forall well_formed segments /\
    StronglySorted (fun a b => start a < start b /\ end_ a < end_ b) segments /\
    Sorted (follows 15) segments.
Proof.
  destruct (provisionalSegments_facts samples) as (segs & Hs & Hw & _ & Hf).
  exists (mergeTempoSegments segs). unfold buildTempoSegments. rewrite Hs.
  split; [reflexivity|].
  assert (Hm : Sorted (follows 15) (mergeTempoSegments segs))
    by now apply mergeTempoSegments_sorted.
  repeat split; auto.
  - now apply mergeTempoSegments_well_formed.
  - eapply sorted_follows_strongly; eauto.
Qed.

(** C1, as stated, fails on [drifting_track]: the two segments returned
    overlap by 15 seconds and their tempos are 1.9 BPM apart, so the list
    breaks the invariant of the data model twice. *)
Lemma drifting_track_breaks_segment_invariant :
  buildTempoSegments drifting_track SAMPLE_RATE
  = Returns [ {| start := 0; end_ := 30; bpm := 165375 # 2752 |};
              {| start := 15; end_ := 75; bpm := 650475 # 10496 |} ]
  /\ ~ disjoint_in_order {| start := 0; end_ := 30; bpm := 165375 # 2752 |}
                         {| start := 15; end_ := 75; bpm := 650475 # 10496 |}
  /\ ~ tempo_apart {| start := 0; end_ := 30; bpm := 165375 # 2752 |}
                   {| start := 15; end_ := 75; bpm := 650475 # 10496 |}
  /\ ~ segment_invariant
         [ {| start := 0; end_ := 30; bpm := 165375 # 2752 |};
           {| start := 15; end_ := 75; bpm := 650475 # 10496 |} ].
Proof.
  assert (D : ~ disjoint_in_order
                {| start := 0; end_ := 30; bpm := 165375 # 2752 |}
                {| start := 15; end_ := 75; bpm := 650475 # 10496 |}).
  { unfold disjoint_in_order. simpl. intros [_ H]. revert H. vm_compute. auto. }
  split.
  { unfold drifting_track.
    rewrite buildTempoSegments_render by (vm_compute; reflexivity || discriminate).
    vm_compute. reflexivity. }
  split; [exact D|]. split.
  - unfold tempo_apart. simpl. vm_compute. discriminate.
  - intros (_ & Hs & _). inversion Hs as [|? ? _ Hall]; subst.
    inversion Hall; subst. contradiction.
Qed.

Section AnalysisFacts.

Context {lib : MathLib}.

Lemma buildTempoSegments_short decoded :
  (Zlength decoded < 661500)%Z ->
  buildTempoSegments decoded SAMPLE_RATE = Returns [].
Proof.
  intro H. unfold buildTempoSegments, provisionalSegments. cbv zeta.
  rewrite window_samples, hop_samples.
  apply Z.ltb_lt in H. rewrite H. reflexivity.
Qed.

Lemma estimateTempo_tiny samples sampleRate :
  (Zlength samples < 2048)%Z -> estimateTempo samples sampleRate = Returns None.
Proof.
  intro H. unfold estimateTempo. cbv zeta.
  change (Z.of_nat frameSize * 2)%Z with 2048%Z.
  apply Z.ltb_lt in H. now rewrite H.
Qed.

(** The analysis of a buffer with no tempo segment: the overall tempo is
    the estimate over the whole buffer. *)
Lemma analyze_without_segments decoded :
  buildTempoSegments decoded SAMPLE_RATE = Returns [] ->
  exists a tempo,
    analyze decoded = Returns a /\
    bpmSegments a = [] /\
    estimateTempo decoded SAMPLE_RATE = Returns tempo /\
    analysis_bpm a = (if falsy tempo then None
                      else option_map (fun b => roundTo b 1) tempo).
Proof.
  intro Hb.
  destruct (estimateTempo_returns decoded SAMPLE_RATE sample_rate_pos)
    as (tempo & Ht & _).
  destruct (estimateKey_returns decoded SAMPLE_RATE) as (k & Hk).
  unfold analyze, overallBpm. rewrite Hb. cbn [run_bind pickOverallBpm].
  rewrite Ht. cbn [run_bind]. rewrite Hk. cbn [run_bind].
  eexists. exists tempo. split; [reflexivity|]. simpl. auto.
Qed.

End AnalysisFacts.

(** C2, as amended.  For every decoded buffer shorter than one tempo
    window (661500 samples, 30 s at 22050 Hz) the analysis is assembled,
    its [bpmSegments] is empty, and its overall [bpm] is the estimate of
    [estimateTempo] over the whole buffer, rounded to one decimal: [null]
    when that estimate is [null], as it is for a buffer shorter than two
    frames (2048 samples). *)
Theorem short_buffer_analysis (lib : MathLib) (decoded : list Q) :
  (Zlength decoded < 661500)%Z ->
  exists a tempo,
    analyze decoded = Returns a /\
    bpmSegments a = [] /\
    estimateTempo decoded SAMPLE_RATE = Returns tempo /\
    analysis_bpm a = (if falsy tempo then None
                      else option_map (fun b => roundTo b 1) tempo) /\
    ((Zlength decoded < 2048)%Z -> analysis_bpm a = None).
Proof.
  intro H.
  destruct (analyze_without_segments decoded (buildTempoSegments_short decoded H))
    as (a & tempo & Ha & Hs & Ht & Hb).
  exists a, tempo. repeat split; auto.
  intro Htiny. rewrite (estimateTempo_tiny decoded SAMPLE_RATE Htiny) in Ht.
  injection Ht as <-. exact Hb.
Qed.

Lemma short_buffer_analysis_witness :
  (Zlength two_clicks < 661500)%Z /\
  exists a tempo,
    analyze (lib := stand_in) two_clicks = Returns a /\
    bpmSegments a = [] /\
    estimateTempo two_clicks SAMPLE_RATE = Returns tempo /\
    analysis_bpm a = (if falsy tempo then None
                      else option_map (fun b => roundTo b 1) tempo) /\
    ((Zlength two_clicks < 2048)%Z -> analysis_bpm a = None).
Proof.
  split; [reflexivity|].
  apply (short_buffer_analysis stand_in two_clicks). reflexivity.
Defined.

(** C2, as stated, fails on [two_clicks]: the buffer is shorter than one
    tempo window, its analysis has no segment, and the overall [bpm] of
    the analysis is 107.7. *)
Lemma two_clicks_has_tempo :
  (Zlength two_clicks < 661500)%Z /\
  exists a,
    analyze (lib := stand_in) two_clicks = Returns a /\
    bpmSegments a = [] /\
    analysis_bpm a = Some 107.7.
Proof.
  split; [reflexivity|].
  destruct (analyze_without_segments (lib := stand_in) two_clicks
              (buildTempoSegments_short two_clicks eq_refl))
    as (a & tempo & Ha & Hs & Ht & Hb).
  assert (E : estimateTempo two_clicks SAMPLE_RATE = Returns (Some (55125 # 512)))
    by (vm_compute; reflexivity).
  rewrite E in Ht. injection Ht as <-.
  exists a. repeat split; auto.
Qed.

(** C5.  For every strictly positive bpm value, [normalizeTempo] returns,
    with a value between [BPM_MIN = 60] and [BPM_MAX = 200], whatever the
    fuel once there is enough; and 50 is folded to 100. *)
Theorem normalizeTempo_folds_into_range (bpm_ : Q) :
  0 < bpm_ ->
  exists value,
    normalizeTempo bpm_ = Returns value /\
    60 <= value /\ value <= 200 /\
    (forall fuel, (tempo_fuel bpm_ <= fuel)%nat ->
                  normalizeTempo_fuel fuel bpm_ = Some value) /\
    normalizeTempo 50 = Returns 100.
Proof.
  intro Hpos.
  destruct (normalizeTempo_fuel_returns bpm_ (tempo_fuel bpm_) Hpos (le_n _))
    as (v & Hv & H1 & H2 & _).
  exists v. unfold normalizeTempo. rewrite Hv. repeat split; auto.
  intros fuel Hf. eapply normalizeTempo_fuel_mono; eauto.
Qed.

Lemma normalizeTempo_folds_into_range_witness :
  0 < 50 /\
  exists value,
    normalizeTempo 50 = Returns value /\
    60 <= value /\ value <= 200 /\
    (forall fuel, (tempo_fuel 50 <= fuel)%nat ->
                  normalizeTempo_fuel fuel 50 = Some value) /\
    normalizeTempo 50 = Returns 100.
Proof.
  split; [reflexivity|].
  apply (normalizeTempo_folds_into_range 50). reflexivity.
Defined.



(** C8.  When the transform takes the zero frame to the zero spectrum,
    the analysis of an all-zero buffer of any length is assembled, with
    [bpm] null, [bpmSegments] empty and [key] null; and an orchestrator
    run that decodes such a buffer (one sample at least) resolves with
    that analysis. *)
Theorem silence_yields_nothing (lib : MathLib) (n : nat)
        (options : Options) (stat : Stat) (w : World) :
  zero_preserving lib ->
  analyze (repeat 0 n) = Returns silent_analysis /\
  (decoder w (audioPath options) = Some (repeat 0 (S n)) ->
   cacheWritable w = true ->
   fst (recompute options stat w)
   = Resolved (Some (SongAnalysis_value silent_analysis))).
Proof.
  intro Hlib.
  assert (Ha : forall k, analyze (repeat 0 k) = Returns silent_analysis).
  { intro k. pose proof (all_zero_repeat k) as Hz.
    unfold analyze, overallBpm.
    rewrite (buildTempoSegments_zero _ _ Hz). cbn [run_bind pickOverallBpm].
    rewrite (estimateTempo_zero _ _ Hz). cbn [run_bind].
    rewrite (estimateKey_zero _ _ Hlib Hz). reflexivity. }
  split; [apply Ha|].
  intros Hd Hw. unfold recompute, bind, decodeAudioSamples. rewrite Hd.
  assert (Hlen : (Zlength (repeat 0%Q (S n)) =? 0)%Z = false).
  { apply Z.eqb_neq. rewrite Zlength_correct, repeat_length. lia. }
  rewrite Hlen. unfold await_run. rewrite Ha.
  unfold writeCache, bind, current_time, fs_writeFile, ret. simpl.
  rewrite Hw. reflexivity.
Qed.

Lemma stand_in_zero_preserving : zero_preserving stand_in.
Proof.
  intros frame H. unfold all_zero in *. simpl. unfold real_parts.
  induction H as [|x l Hx Hl IH]; simpl; [constructor|].
  constructor; auto. constructor; auto. reflexivity.
Qed.

Lemma silence_yields_nothing_witness :
  analyze (lib := stand_in) (repeat 0 5000) = Returns silent_analysis /\
  fst (recompute (lib := stand_in) song song_stat silent_world)
  = Resolved (Some (SongAnalysis_value silent_analysis)).
Proof.
  destruct (silence_yields_nothing stand_in 5000 song song_stat silent_world
              stand_in_zero_preserving) as [A B].
  split; [exact A|]. apply B; reflexivity.
Defined.

(** C3, as amended.  For every non-forced call of [getSongAnalysis] on a
    file that can be stat'ed: the cache read never raises and leaves the
    world as it was; when the cache file parses to an object whose
    [audioMtimeMs] and [audioSize] equal the current stat and whose
    [analysis] is truthy, that stored value is returned as it is, with no
    check of its shape, without decoding and without a write (so a
    well-formed entry gives back the stored [SongAnalysis]); when the file
    is unreadable, does not parse, parses to something that is not an
    object, or is an object whose stored pair differs from the stat or
    whose [analysis] is missing or falsy, the read is a miss and the call
    goes on to recompute. *)
Theorem cache_read_hit_or_miss (lib : MathLib) (options : Options) (w : World)
        (stat : Stat) :
  audioStat w (audioPath options) = Some stat ->
  force options = false ->
  let cachePath := getCachePath (cacheDir options) (songId options) in
  (exists r, readCache cachePath stat w = (Resolved r, w)) /\
  (forall props value,
      cacheFiles w cachePath = Some (Parses (JObject props)) ->
      strict_eq_number (assoc "audioMtimeMs" props) (mtimeMs stat) = true ->
      strict_eq_number (assoc "audioSize" props) (size stat) = true ->
      assoc "analysis" props = Some value ->
      js_truthy (Some value) = true ->
      getSongAnalysis options w = (Resolved (Some value), w)) /\
  (forall entry,
      cacheFiles w cachePath = Some (Parses (AnalysisCache_value entry)) ->
      audioMtimeMs entry == mtimeMs stat ->
      audioSize entry == size stat ->
      getSongAnalysis options w
      = (Resolved (Some (SongAnalysis_value (analysis entry))), w)) /\
  (cacheFiles w cachePath = None \/
   cacheFiles w cachePath = Some Unparseable \/
   (exists v, cacheFiles w cachePath = Some (Parses v) /\ props_of v = None) \/
   (exists props,
       cacheFiles w cachePath = Some (Parses (JObject props)) /\
       (strict_eq_number (assoc "audioMtimeMs" props) (mtimeMs stat) = false \/
        strict_eq_number (assoc "audioSize" props) (size stat) = false \/
        js_truthy (assoc "analysis" props) = false)) ->
   readCache cachePath stat w = (Resolved None, w) /\
   getSongAnalysis options w = recompute options stat w).
Proof.
  intros Hstat Hforce cachePath.
  pose proof (getSongAnalysis_with_stat options w stat Hstat) as Hget.
  rewrite Hforce in Hget. fold cachePath in Hget.
  split; [|split; [|split]].
  - eexists. apply readCache_lookup.
  - intros props value Hfile Hm Hs Ha Ht. rewrite Hget, Hfile. simpl.
    rewrite Hm, Hs, Ha. simpl in Ht |- *. now rewrite Ht.
  - intros entry Hfile Hm Hs. rewrite Hget, Hfile.
    unfold cache_lookup, AnalysisCache_value.
    cbn -[SongAnalysis_value Num.eqb]. unfold Num.eqb.
    rewrite (proj2 (Qeq_bool_iff _ _) Hm), (proj2 (Qeq_bool_iff _ _) Hs).
    reflexivity.
  - intro Hmiss.
    assert (Hl : cache_lookup (cacheFiles w cachePath) stat = None).
    { destruct Hmiss as [E|[E|[(v & E & Hv)|(props & E & Hc)]]]; rewrite E; simpl;
        auto.
      - destruct v; simpl in Hv; auto; discriminate.
      - destruct Hc as [Hc|[Hc|Hc]]; rewrite Hc; simpl; auto.
        + now rewrite andb_false_r.
        + now rewrite andb_false_r. }
    split.
    + rewrite readCache_lookup. now rewrite Hl.
    + rewrite Hget. now rewrite Hl.
Qed.

Lemma cache_read_hit_or_miss_witness :
  getSongAnalysis (lib := stand_in) song
                  (world_with (Some (Parses (AnalysisCache_value stored_entry))) true)
  = (Resolved (Some (SongAnalysis_value stored_analysis)),
     world_with (Some (Parses (AnalysisCache_value stored_entry))) true).
Proof.
  destruct (cache_read_hit_or_miss stand_in song
              (world_with (Some (Parses (AnalysisCache_value stored_entry))) true)
              song_stat eq_refl eq_refl) as (_ & _ & Hit & _).
  apply (Hit stored_entry); reflexivity.
Defined.

(** C3, as stated, fails on [malformed_entry]: the entry has no
    [SongAnalysis] in it, and the non-forced call returns its [analysis]
    string as a hit, without decoding. *)
Lemma malformed_entry_is_a_hit :
  as_AnalysisCache malformed_entry = None /\
  getSongAnalysis (lib := stand_in) song
                  (world_with (Some (Parses malformed_entry)) true)
  = (Resolved (Some (JString "garbage")),
     world_with (Some (Parses malformed_entry)) true) /\
  decodeCalls (snd (getSongAnalysis (lib := stand_in) song
                      (world_with (Some (Parses malformed_entry)) true))) = 0%nat.
Proof.
  assert (H : getSongAnalysis (lib := stand_in) song
                (world_with (Some (Parses malformed_entry)) true)
              = (Resolved (Some (JString "garbage")),
                 world_with (Some (Parses malformed_entry)) true)).
  { rewrite (getSongAnalysis_with_stat
               song (world_with (Some (Parses malformed_entry)) true)
               song_stat eq_refl).
    reflexivity. }
  split; [reflexivity|]. split; [exact H|]. now rewrite H.
Qed.

(** C4.  When the stat of the audio file fails, [getSongAnalysis]
    resolves with [null] at once: the world, and the cache in it, is the
    one it was called in. *)
Theorem stat_failure_returns_null (lib : MathLib) (options : Options) (w : World) :
  audioStat w (audioPath options) = None ->
  getSongAnalysis options w = (Resolved None, w).
Proof.
  intro Hstat.
  unfold getSongAnalysis, bind, try_catch, fs_stat.
  rewrite Hstat. reflexivity.
Qed.

Lemma stat_failure_returns_null_witness :
  getSongAnalysis (lib := stand_in) song
                  (world_with (Some (Parses (AnalysisCache_value stored_entry))) false)
  = (Resolved None,
     world_with (Some (Parses (AnalysisCache_value stored_entry))) false).
Proof.
  apply (stat_failure_returns_null stand_in song). reflexivity.
Defined.







(** * Further properties of the analysis code *)

(** ** Rounding and the remainder *)


Lemma round_of_Z (k : Z) : Num.round (inject_Z k) = k.
Proof.
  unfold Num.round.
  assert (L : (k <= Qfloor (inject_Z k + (1 # 2)))%Z).
  { rewrite <- (Qfloor_Z k) at 1. apply Qfloor_resp_le. lra. }
  assert (U : (Qfloor (inject_Z k + (1 # 2)) < k + 1)%Z).
  { rewrite Zlt_Qlt, inject_Z_plus. change (inject_Z 1) with 1.
    pose proof (Qfloor_le (inject_Z k + (1 # 2))). lra. }
  lia.
Qed.

Lemma round_proper (x y : Q) : x == y -> Num.round x = Num.round y.
Proof. intro E. unfold Num.round. now rewrite E. Qed.


Lemma roundTo_fixed value decimals :
  roundTo (roundTo value decimals) decimals = roundTo value decimals.
Proof.
  pose proof (pow10_pos decimals) as Hf.
  unfold roundTo. cbv zeta.
  set (f := Num.pow10 decimals) in *.
  set (k := Num.round (Num.mul value f)).
  assert (E : Num.round (Num.mul (Num.div (Num.of_Z k) f) f) = k).
  { rewrite <- (round_of_Z k) at 2. apply round_proper.
    to_Q. field. lra. }
  now rewrite E.
Qed.

Lemma roundTo_monotone value other decimals :
  value <= other -> roundTo value decimals <= roundTo other decimals.
Proof.
  pose proof (pow10_pos decimals) as Hf.
  intro Hle. unfold roundTo, Num.round. cbv zeta.
  set (f := Num.pow10 decimals) in *. to_Q.
  apply Qle_shift_div_l; auto.
  assert (E : inject_Z (Qfloor (value * f + (1 # 2))) / f * f
              == inject_Z (Qfloor (value * f + (1 # 2)))) by (field; lra).
  rewrite E. rewrite <- Zle_Qle. apply Qfloor_resp_le. nra.
Qed.

(** X2.  Rounding twice to the same number of decimals is rounding once:
    [roundTo] leaves what it returns unchanged.  And [roundTo] is
    monotone: of two values, the greater does not round to less. *)
Theorem roundTo_idempotent_monotone (value other : Q) (decimals : nat) :
  roundTo (roundTo value decimals) decimals = roundTo value decimals /\
  (value <= other -> roundTo value decimals <= roundTo other decimals).
Proof.
  split.
  - apply roundTo_fixed.
  - apply roundTo_monotone.
Qed.

(** X3.  For a positive modulus, [modulo value mod] is the remainder of
    the floored division: it lies in [0, mod) and differs from [value] by
    a multiple of [mod], also for a negative [value]. *)
Theorem modulo_floored (value mod_ : Z) :
  (0 < mod_)%Z ->
  modulo value mod_ = (value mod mod_)%Z /\
  (0 <= modulo value mod_ < mod_)%Z /\
  (exists k, value = k * mod_ + modulo value mod_)%Z.
Proof.
  intro Hm.
  assert (E : modulo value mod_ = (value mod mod_)%Z).
  { unfold modulo.
    pose proof (Z.rem_bound_abs value mod_ ltac:(lia)) as Hb.
    destruct (Z.le_gt_cases 0 value) as [Hv|Hv].
    - rewrite (Z.rem_mod_nonneg value mod_) by lia.
      pose proof (Z.mod_pos_bound value mod_ Hm).
      rewrite Z.rem_mod_nonneg by lia.
      rewrite <- (Z.mul_1_l mod_) at 2. rewrite Z.mod_add by lia.
      apply Z.mod_mod. lia.
    - pose proof (Z.rem_nonpos value mod_ ltac:(lia) ltac:(lia)) as Hn.
      assert (Hr : (0 <= Z.rem value mod_ + mod_ < mod_ \/
                    Z.rem value mod_ + mod_ = mod_)%Z) by lia.
      pose proof (Z.rem_mod_eq_0 value mod_ ltac:(lia)) as H0.
      pose proof (Z.quot_rem' value mod_) as Hq.
      destruct Hr as [Hr|Hr].
      + rewrite Z.rem_small by lia.
        apply (Z.mod_unique value mod_ (Z.quot value mod_ - 1)); lia.
      + rewrite Hr. rewrite Z.rem_same by lia.
        assert (Z.rem value mod_ = 0)%Z by lia.
        symmetry. apply H0. assumption. }
  split; [exact E|]. rewrite E. split.
  - apply Z.mod_pos_bound; lia.
  - exists (value / mod_)%Z. rewrite Z.mul_comm. apply Z.div_mod. lia.
Qed.

Lemma modulo_floored_witness :
  modulo (-1) 12 = ((-1) mod 12)%Z /\
  (0 <= modulo (-1) 12 < 12)%Z /\
  (exists k, -1 = k * 12 + modulo (-1) 12)%Z.
Proof. apply (modulo_floored (-1) 12). lia. Defined.
(** ** The median *)

Lemma sort_insert_perm x sorted : Permutation (sort_insert x sorted) (x :: sorted).
Proof.
  induction sorted as [|y rest IH]; simpl; auto.
  destruct (Num.ltb x y); auto.
  rewrite IH. apply perm_swap.
Qed.

Lemma sort_insert_sorted x sorted :
  Sorted Qle sorted -> Sorted Qle (sort_insert x sorted).
Proof.
  induction sorted as [|y rest IH]; intro H; simpl.
  - repeat constructor.
  - destruct (Num.ltb x y) eqn:E; bool_to_Q.
    + constructor; auto. constructor. lra.
    + inversion H as [|? ? Hs Hh]; subst. constructor; auto.
      destruct rest as [|z rest']; simpl.
      * repeat constructor. exact E.
      * inversion Hh; subst. destruct (Num.ltb x z); constructor; auto.
Qed.

Lemma fold_sort_insert values : forall sorted,
  Sorted Qle sorted ->
  let result := fold_left (fun sorted x => sort_insert x sorted) values sorted in
  Sorted Qle result /\ Permutation result (values ++ sorted).
Proof.
  induction values as [|x rest IH]; intros sorted Hs; simpl.
  - split; auto.
  - destruct (IH (sort_insert x sorted) (sort_insert_sorted x sorted Hs)) as [S1 P1].
    split; auto. rewrite P1. rewrite sort_insert_perm.
    symmetry. apply Permutation_middle.
Qed.

(** The model of [[...values].sort((a, b) => a - b)] is a sort. *)
Lemma sort_numbers_sorted values :
  StronglySorted Qle (sort_numbers values) /\ Permutation (sort_numbers values) values.
Proof.
  destruct (fold_sort_insert values [] (Sorted_nil _)) as [S P].
  rewrite app_nil_r in P. split; auto.
  apply Sorted_StronglySorted; auto. intros a b c. apply Qle_trans.
Qed.

Lemma sort_numbers_length values : length (sort_numbers values) = length values.
Proof. apply Permutation_length, sort_numbers_sorted. Qed.

Lemma sort_numbers_Forall (P : Q -> Prop) values :
  Forall P values -> Forall P (sort_numbers values).
Proof.
  intro H. eapply Permutation_Forall; [|exact H].
  symmetry. apply sort_numbers_sorted.
Qed.

Lemma Forall_nth_Q (P : Q -> Prop) l i :
  Forall P l -> (i < length l)%nat -> P (nth i l 0).
Proof.
  intros H Hi. rewrite Forall_forall in H. apply H. now apply nth_In.
Qed.

Lemma median_some values :
  values <> [] ->
  let sorted := sort_numbers values in
  let mid := Nat.div (length sorted) 2 in
  (length sorted = (2 * mid)%nat /\ (1 <= mid)%nat /\
   median values = Some (Num.div (Num.add (nth (mid - 1) sorted 0) (nth mid sorted 0)) 2))
  \/ (length sorted = (2 * mid + 1)%nat /\
      median values = Some (nth mid sorted 0)).
Proof.
  intro Hne. cbv zeta. unfold median.
  destruct values as [|v values]; [congruence|].
  set (sorted := sort_numbers (v :: values)).
  assert (Hlen : (0 < length sorted)%nat).
  { unfold sorted. rewrite sort_numbers_length. simpl. lia. }
  assert (Hd := Nat.div_mod_eq (length sorted) 2).
  assert (Hm := Nat.mod_upper_bound (length sorted) 2 ltac:(lia)).
  destruct (Nat.eqb (Nat.modulo (length sorted) 2) 0) eqn:E.
  - left. apply Nat.eqb_eq in E. repeat split; auto; lia.
  - right. apply Nat.eqb_neq in E. split; auto. lia.
Qed.

Lemma median_bounds lo hi values :
  values <> [] -> Forall (fun x => lo <= x /\ x <= hi) values ->
  exists m, median values = Some m /\ lo <= m /\ m <= hi.
Proof.
  intros Hne Hall.
  pose proof (sort_numbers_Forall _ _ Hall) as Hs.
  destruct (median_some values Hne) as [(Hl & Hmid & E)|(Hl & E)];
    rewrite E; eexists; (split; [reflexivity|]).
  - pose proof (Forall_nth_Q _ (sort_numbers values) (length (sort_numbers values) / 2 - 1) Hs ltac:(lia)) as H1.
    pose proof (Forall_nth_Q _ (sort_numbers values) (length (sort_numbers values) / 2) Hs ltac:(lia)) as H2.
    cbv beta in H1, H2. to_Q.
    unfold Qdiv. change (/ 2) with (1 # 2). lra.
  - exact (Forall_nth_Q _ (sort_numbers values) (length (sort_numbers values) / 2) Hs ltac:(lia)).
Qed.

Lemma StronglySorted_nth l : StronglySorted Qle l ->
  forall i j, (i <= j < length l)%nat -> nth i l 0 <= nth j l 0.
Proof.
  induction 1 as [|a l Hs IH Ha]; intros i j Hij; simpl in Hij; [lia|].
  destruct i as [|i], j as [|j]; simpl; try lra; try lia.
  - rewrite Forall_forall in Ha. apply Ha, nth_In. lia.
  - apply IH. lia.
Qed.

(** How many elements of [l] pass the test [f]. *)
Lemma count_firstn (f : Q -> bool) l n :
  (n <= length l)%nat -> Forall (fun x => f x = true) (firstn n l) ->
  (n <= length (filter f l))%nat.
Proof.
  intros Hn H. rewrite <- (firstn_skipn n l) at 1. rewrite filter_app, length_app.
  assert (E : filter f (firstn n l) = firstn n l).
  { clear Hn. induction (firstn n l) as [|x r IH]; simpl; auto.
    inversion H; subst. rewrite H2. f_equal. auto. }
  rewrite E, length_firstn. lia.
Qed.

Lemma count_skipn (f : Q -> bool) l n :
  Forall (fun x => f x = true) (skipn n l) ->
  (length l - n <= length (filter f l))%nat.
Proof.
  intros H. rewrite <- (firstn_skipn n l) at 2. rewrite filter_app, length_app.
  assert (E : filter f (skipn n l) = skipn n l).
  { induction (skipn n l) as [|x r IH]; simpl; auto.
    inversion H; subst. rewrite H2. f_equal. auto. }
  rewrite E, length_skipn. lia.
Qed.

Lemma Forall_firstn_nth (P : Q -> Prop) l n :
  (n <= length l)%nat -> (forall i, (i < n)%nat -> P (nth i l 0)) ->
  Forall P (firstn n l).
Proof.
  revert l. induction n as [|n IH]; intros l Hn H; simpl; [constructor|].
  destruct l as [|x l]; simpl in Hn; [lia|]. constructor.
  - apply (H 0%nat). lia.
  - apply IH; [lia|]. intros i Hi. apply (H (S i)). lia.
Qed.

Lemma Forall_skipn_nth (P : Q -> Prop) l n :
  (forall i, (n <= i < length l)%nat -> P (nth i l 0)) ->
  Forall P (skipn n l).
Proof.
  revert l. induction n as [|n IH]; intros l H; simpl.
  - apply Forall_forall. intros x Hx. destruct (In_nth _ _ 0 Hx) as (i & Hi & <-).
    apply H. lia.
  - destruct l as [|x l]; [constructor|]. apply IH.
    intros i Hi. apply (H (S i)). simpl. lia.
Qed.

Lemma Permutation_count (f : Q -> bool) l l' :
  Permutation l l' -> length (filter f l) = length (filter f l').
Proof.
  induction 1; simpl; auto.
  - destruct (f x); simpl; auto.
  - destruct (f x), (f y); simpl; auto.
  - congruence.
Qed.

(** X4.  The median of a non-empty array is a value in the middle of it:
    at least half of the values are less than or equal to it, and at least
    half are greater than or equal to it. *)
Theorem median_in_the_middle (values : list Q) (m : Q) :
  median values = Some m ->
  (length values <= 2 * length (filter (fun x => Num.leb x m) values))%nat /\
  (length values <= 2 * length (filter (fun x => Num.leb m x) values))%nat.
Proof.
  intro Hm.
  assert (Hne : values <> []) by (intro E; subst; discriminate).
  destruct (sort_numbers_sorted values) as [Hs Hp].
  rewrite <- (Permutation_count _ _ _ Hp), <- (Permutation_count _ _ _ Hp).
  rewrite <- (Permutation_length Hp).
  pose proof (median_some values Hne) as Hmed. cbv zeta in Hmed.
  remember (sort_numbers values) as sorted eqn:Es.
  remember (length sorted / 2)%nat as mid eqn:Em.
  pose proof (StronglySorted_nth sorted Hs) as Hnth.
  destruct Hmed as [(Hl & Hmid & E)|(Hl & E)];
    rewrite E in Hm; injection Hm as <-.
  - (* even length: the mean of the two middle values *)
    pose proof (Hnth (mid - 1)%nat mid ltac:(lia)) as Hab.
    remember (nth (mid - 1) sorted 0) as a eqn:Ea.
    remember (nth mid sorted 0) as b eqn:Eb.
    assert (Ha : a <= Num.div (Num.add a b) 2)
      by (to_Q; unfold Qdiv; change (/ 2) with (1 # 2); lra).
    assert (Hb : Num.div (Num.add a b) 2 <= b)
      by (to_Q; unfold Qdiv; change (/ 2) with (1 # 2); lra).
    remember (Num.div (Num.add a b) 2) as m eqn:Emed.
    split.
    + pose proof (count_firstn (fun x => Num.leb x m)
                               sorted mid ltac:(lia)) as Hc.
      assert (mid <= length (filter (fun x => Num.leb x m) sorted))%nat.
      { apply Hc. apply Forall_firstn_nth; [lia|]. intros i Hi.
        apply NumFacts.leb_le. apply Qle_trans with a; [|exact Ha].
        rewrite Ea. apply Hnth. lia. }
      lia.
    + pose proof (count_skipn (fun x => Num.leb m x)
                              sorted mid) as Hc.
      assert (length sorted - mid
              <= length (filter (fun x => Num.leb m x) sorted))%nat.
      { apply Hc. apply Forall_skipn_nth. intros i Hi.
        apply NumFacts.leb_le. apply Qle_trans with b; [exact Hb|].
        rewrite Eb. apply Hnth. lia. }
      lia.
  - (* odd length: the middle value *)
    remember (nth mid sorted 0) as m eqn:Emed.
    split.
    + pose proof (count_firstn (fun x => Num.leb x m)
                               sorted (S mid) ltac:(lia)) as Hc.
      assert (S mid <= length (filter (fun x => Num.leb x m) sorted))%nat.
      { apply Hc. apply Forall_firstn_nth; [lia|]. intros i Hi.
        apply NumFacts.leb_le. rewrite Emed. apply Hnth. lia. }
      lia.
    + pose proof (count_skipn (fun x => Num.leb m x)
                              sorted mid) as Hc.
      assert (length sorted - mid
              <= length (filter (fun x => Num.leb m x) sorted))%nat.
      { apply Hc. apply Forall_skipn_nth. intros i Hi.
        apply NumFacts.leb_le. rewrite Emed. apply Hnth. lia. }
      lia.
Qed.

Lemma median_in_the_middle_witness :
  let values : list Q := [3; 1; 7; 2] in
  let m : Q := 5 # 2 in
  (length values <= 2 * length (filter (fun x => Num.leb x m) values))%nat /\
  (length values <= 2 * length (filter (fun x => Num.leb m x) values))%nat.
Proof. apply (median_in_the_middle [3; 1; 7; 2] (5 # 2)). reflexivity. Defined.
(** ** The overall tempo *)

Lemma normalizeTempo_in_range bpm_ :
  BPM_MIN <= bpm_ -> bpm_ <= BPM_MAX -> normalizeTempo bpm_ = Returns bpm_.
Proof.
  intros L U.
  assert (Hpos : 0 < bpm_) by (unfold BPM_MIN in L; lra).
  destruct (normalizeTempo_fuel_returns bpm_ (tempo_fuel bpm_) Hpos (le_n _))
    as (v & Hv & _ & _ & Hid).
  unfold normalizeTempo. rewrite Hv. f_equal. now apply Hid.
Qed.

Lemma falsy_positive q : 0 < q -> falsy (Some q) = false.
Proof.
  intro H. unfold falsy.
  destruct (Num.truthy q) eqn:E; auto. bool_to_Q. lra.
Qed.

Lemma Forall_map_bpm (P : Q -> Prop) segments :
  Forall (fun s => P (bpm s)) segments -> Forall P (map bpm segments).
Proof. induction 1; simpl; constructor; auto. Qed.

Lemma pickOverallBpm_some segment segments lo hi :
  0 < lo -> Forall (in_range lo hi) (segment :: segments) ->
  exists value,
    pickOverallBpm (segment :: segments) = Returns (Some value) /\
    BPM_MIN <= value /\ value <= BPM_MAX /\
    (BPM_MIN <= lo -> hi <= BPM_MAX ->
     median (map bpm (segment :: segments)) = Some value /\
     lo <= value /\ value <= hi).
Proof.
  intros Hlo Hall.
  destruct (median_bounds lo hi (map bpm (segment :: segments))) as (m & Hm & L & U).
  - discriminate.
  - apply Forall_map_bpm. exact Hall.
  - assert (Hpos : 0 < m) by lra.
    destruct (normalizeTempo_returns m Hpos) as (v & Hv & Hv1 & Hv2).
    exists v. unfold pickOverallBpm. rewrite Hm, (falsy_positive m Hpos), Hv.
    split; [reflexivity|]. split; [exact Hv1|]. split; [exact Hv2|].
    intros H1 H2. rewrite normalizeTempo_in_range in Hv by lra.
    injection Hv as <-. auto.
Qed.

(** X5.  [pickOverallBpm] gives [null] for no segment.  For segments with
    positive tempos it gives a number between 60 and 200; when the tempos
    are between 60 and 200 already, that number is their median and lies
    between the least and the greatest of them. *)
Theorem pickOverallBpm_in_range (segments : list TempoSegment) (lo hi : Q) :
  0 < lo -> Forall (in_range lo hi) segments ->
  match segments with
  | [] => pickOverallBpm segments = Returns None
  | _ => exists value,
           pickOverallBpm segments = Returns (Some value) /\
           BPM_MIN <= value /\ value <= BPM_MAX /\
           (BPM_MIN <= lo -> hi <= BPM_MAX ->
            median (map bpm segments) = Some value /\ lo <= value /\ value <= hi)
  end.
Proof.
  intros Hlo Hall. destruct segments as [|s segments].
  - reflexivity.
  - now apply pickOverallBpm_some.
Qed.

Lemma pickOverallBpm_in_range_witness :
  exists value,
    pickOverallBpm [window_a; window_b] = Returns (Some value) /\
    BPM_MIN <= value /\ value <= BPM_MAX /\
    (BPM_MIN <= 100 -> 121 <= BPM_MAX ->
     median (map bpm [window_a; window_b]) = Some value /\
     100 <= value /\ value <= 121).
Proof.
  apply (pickOverallBpm_in_range [window_a; window_b] 100 121).
  - reflexivity.
  - constructor; [split; vm_compute; discriminate|].
    constructor; [split; vm_compute; discriminate|constructor].
Defined.

Section OverallTempo.

Context {lib : MathLib}.

Lemma buildTempoSegments_facts samples :
  exists segments,
    buildTempoSegments samples SAMPLE_RATE = Returns segments /\
    Forall well_formed segments /\
    Forall (in_range BPM_MIN BPM_MAX) segments.
Proof.
  destruct (provisionalSegments_facts samples) as (segs & Hs & Hw & Hr & _).
  exists (mergeTempoSegments segs). unfold buildTempoSegments. rewrite Hs.
  split; [reflexivity|]. split.
  - now apply mergeTempoSegments_well_formed.
  - now apply mergeTempoSegments_in_range.
Qed.

Lemma overallBpm_returns decoded segments :
  Forall (in_range BPM_MIN BPM_MAX) segments ->
  exists r, overallBpm decoded segments = Returns r /\
            (forall b, r = Some b -> BPM_MIN <= b /\ b <= BPM_MAX) /\
            (segments <> [] -> r <> None).
Proof.
  intro Hr. unfold overallBpm.
  destruct segments as [|s segments].
  - cbn [pickOverallBpm run_bind].
    destruct (estimateTempo_returns decoded SAMPLE_RATE sample_rate_pos)
      as (r & Hr' & Hb).
    exists r. split; [exact Hr'|]. split; [exact Hb|]. congruence.
  - destruct (pickOverallBpm_some s segments BPM_MIN BPM_MAX eq_refl Hr)
      as (v & Hv & L & U & _).
    rewrite Hv. cbn [run_bind].
    exists (Some v). split; [reflexivity|]. split.
    + intros b Hb. injection Hb as <-. auto.
    + discriminate.
Qed.

(** What [getSongAnalysis] assembles from a decoded buffer. *)
Lemma analyze_facts decoded :
  exists segments r k,
    buildTempoSegments decoded SAMPLE_RATE = Returns segments /\
    overallBpm decoded segments = Returns r /\
    estimateKey decoded SAMPLE_RATE = Returns k /\
    (forall b, r = Some b -> BPM_MIN <= b /\ b <= BPM_MAX) /\
    (segments <> [] -> r <> None) /\
    analyze decoded
    = Returns {| analysis_bpm := if falsy r then None
                                 else option_map (fun b => roundTo b 1) r;
                 bpmSegments := map roundSegment segments;
                 beatTimestamps := None;
                 key := k |}.
Proof.
  destruct (buildTempoSegments_facts decoded) as (segments & Hs & Hw & Hr).
  destruct (overallBpm_returns decoded segments Hr) as (r & Ho & Hb & Hne).
  destruct (estimateKey_returns decoded SAMPLE_RATE) as (k & Hk).
  exists segments, r, k. repeat (split; [assumption|]).
  unfold analyze. rewrite Hs. cbn [run_bind]. rewrite Ho. cbn [run_bind].
  rewrite Hk. reflexivity.
Qed.

(** X6.  The analysis of a decoded buffer is always assembled: the loops
    of the tempo and key estimators come to an end on every buffer.  Its
    overall [bpm] is [null] or a number between 60 and 200; it is [null]
    only when there is no tempo segment; and the analysis of the server
    carries no beat timestamps. *)
Theorem analyze_returns (decoded : list Q) :
  exists a,
    analyze decoded = Returns a /\
    (forall b, analysis_bpm a = Some b -> 60 <= b /\ b <= 200) /\
    (analysis_bpm a = None -> bpmSegments a = []) /\
    beatTimestamps a = None.
Proof.
  destruct (analyze_facts decoded) as (segments & r & k & _ & _ & _ & Hb & Hne & Ha).
  eexists. split; [exact Ha|].
  cbn [analysis_bpm bpmSegments beatTimestamps].
  destruct r as [b|].
  - destruct (Hb b eq_refl) as [L U]. unfold BPM_MIN, BPM_MAX in L, U.
    rewrite falsy_positive by lra. cbn [option_map].
    split; [|split; [discriminate|reflexivity]].
    intros b' Hb'. injection Hb' as <-. split.
    + apply (roundTo_lower b 1 60 600); [reflexivity|exact L].
    + apply (roundTo_upper b 1 200 2000); [reflexivity|exact U].
  - cbn [falsy]. split; [discriminate|]. split; [|reflexivity].
    intros _. destruct segments as [|s segments]; [reflexivity|].
    exfalso. apply Hne; [discriminate|reflexivity].
Qed.

End OverallTempo.
(** ** The orchestrator *)

Section OrchestratorRuns.

Context {lib : MathLib}.

(** The three ways [getSongAnalysis] ends once it has to decode. *)
Lemma recompute_cases options stat w :
  let cachePath := getCachePath (cacheDir options) (songId options) in
  match decoder w (audioPath options) with
  | None => recompute options stat w = (Resolved None, decoded_once w)
  | Some samples =>
      if (Zlength samples =? 0)%Z
      then recompute options stat w = (Resolved None, decoded_once w)
      else exists a,
          analyze samples = Returns a /\
          recompute options stat w
          = if cacheWritable w
            then (Resolved (Some (SongAnalysis_value a)),
                  with_cache_file (decoded_once w) cachePath
                    (AnalysisCache_value (entry_of stat a w)))
            else (Rejected "EACCES", decoded_once w)
  end.
Proof.
  cbv zeta. unfold recompute, bind, decodeAudioSamples.
  destruct (decoder w (audioPath options)) as [samples|] eqn:Hd; [|reflexivity].
  destruct (Zlength samples =? 0)%Z eqn:Hz; [reflexivity|].
  destruct (analyze_facts samples) as (? & ? & ? & _ & _ & _ & _ & _ & Ha).
  eexists. split; [exact Ha|]. rewrite Ha.
  unfold await_run, writeCache, bind, current_time, fs_writeFile, ret.
  unfold with_cache_file, decoded_once, entry_of.
  cbn [cacheWritable now audioStat decoder cacheFiles decodeCalls].
  destruct (cacheWritable w); reflexivity.
Qed.

Lemma Zlength_zero {A} (l : list A) : (Zlength l =? 0)%Z = true <-> l = [].
Proof.
  rewrite Z.eqb_eq. destruct l as [|x l]; [split; reflexivity|].
  rewrite Zlength_cons, Zlength_correct. split; [lia|discriminate].
Qed.

Lemma getSongAnalysis_recomputes options w stat :
  audioStat w (audioPath options) = Some stat ->
  force options = true
  \/ cache_lookup (cacheFiles w (getCachePath (cacheDir options) (songId options)))
                  stat = None ->
  getSongAnalysis options w = recompute options stat w.
Proof.
  intros Hs Hm. rewrite (getSongAnalysis_with_stat options w stat Hs).
  destruct (force options); [reflexivity|].
  destruct Hm as [Hm|Hm]; [discriminate|]. now rewrite Hm.
Qed.

Lemma cache_lookup_truthy file stat value :
  cache_lookup file stat = Some value -> js_truthy (Some value) = true.
Proof.
  unfold cache_lookup. destruct file as [[|v]|]; try discriminate.
  destruct v; try discriminate.
  destruct (strict_eq_number _ _ && strict_eq_number _ _
            && js_truthy (assoc "analysis" props)) eqn:E; [|discriminate].
  apply andb_true_iff in E. destruct E as [_ E]. intro H. now rewrite H in E.
Qed.

(** How a call of [getSongAnalysis] ends, in every world. *)
Lemma getSongAnalysis_runs options w :
  exists outcome w',
    getSongAnalysis options w = (outcome, w') /\
    outcome <> Pending /\
    (cacheWritable w = true -> exists r, outcome = Resolved r) /\
    (forall value, outcome = Resolved (Some value) -> js_truthy (Some value) = true) /\
    (decodeCalls w <= decodeCalls w' <= S (decodeCalls w))%nat /\
    (forall path, path <> getCachePath (cacheDir options) (songId options) ->
                  cacheFiles w' path = cacheFiles w path).
Proof.
  destruct (audioStat w (audioPath options)) as [stat|] eqn:Hs.
  - rewrite (getSongAnalysis_with_stat options w stat Hs).
    assert (Hr : exists outcome w',
               recompute options stat w = (outcome, w') /\
               outcome <> Pending /\
               (cacheWritable w = true -> exists r, outcome = Resolved r) /\
               (forall value, outcome = Resolved (Some value) ->
                              js_truthy (Some value) = true) /\
               (decodeCalls w <= decodeCalls w' <= S (decodeCalls w))%nat /\
               (forall path,
                   path <> getCachePath (cacheDir options) (songId options) ->
                   cacheFiles w' path = cacheFiles w path)).
    { pose proof (recompute_cases options stat w) as Hc. cbv zeta in Hc.
      destruct (decoder w (audioPath options)) as [samples|].
      - destruct (Zlength samples =? 0)%Z.
        + rewrite Hc. do 2 eexists. split; [reflexivity|].
          split; [discriminate|]. split; [eauto|]. split; [discriminate|].
          simpl. split; [lia|auto].
        + destruct Hc as (a & _ & Hc). rewrite Hc.
          destruct (cacheWritable w); do 2 eexists; (split; [reflexivity|]);
            (split; [discriminate|]); (split; [eauto; discriminate|]).
          * split; [intros value H; injection H as <-; reflexivity|].
            simpl. split; [lia|].
            intros path Hp. apply String.eqb_neq in Hp. now rewrite Hp.
          * split; [discriminate|]. simpl. split; [lia|auto].
      - rewrite Hc. do 2 eexists. split; [reflexivity|].
        split; [discriminate|]. split; [eauto|]. split; [discriminate|].
        simpl. split; [lia|auto]. }
    destruct (force options); [exact Hr|].
    destruct (cache_lookup _ _) as [value|] eqn:Hl; [|exact Hr].
    do 2 eexists. split; [reflexivity|]. split; [discriminate|].
    split; [eauto|]. split; [|split; [lia|auto]].
    intros value' H. injection H as <-. exact (cache_lookup_truthy _ _ _ Hl).
  - rewrite (getSongAnalysis_no_stat options w Hs).
    do 2 eexists. split; [reflexivity|]. split; [discriminate|].
    split; [eauto|]. split; [discriminate|]. split; [lia|auto].
Qed.

(** X7.  A call of [getSongAnalysis] always settles, and it resolves
    whenever the cache directory can be written.  Whatever the outcome, it
    runs the decoder once at most and leaves every cache file but the
    song's own as it was. *)
Theorem getSongAnalysis_settles (options : Options) (w : World) :
  exists outcome w',
    getSongAnalysis options w = (outcome, w') /\
    outcome <> Pending /\
    (cacheWritable w = true -> exists r, outcome = Resolved r) /\
    (decodeCalls w <= decodeCalls w' <= S (decodeCalls w))%nat /\
    (forall path, path <> getCachePath (cacheDir options) (songId options) ->
                  cacheFiles w' path = cacheFiles w path).
Proof.
  destruct (getSongAnalysis_runs options w) as (outcome & w' & E & H1 & H2 & _ & H3 & H4).
  exists outcome, w'. repeat (split; [assumption|]). exact H4.
Qed.

(** X8.  When the analysis has been computed and the cache file cannot
    be written, the call rejects with the error of the write: there is no
    handler around [writeCache].  The decoder has run and the cache files
    are as they were. *)
Theorem cache_write_failure_rejects (options : Options) (w : World) (stat : Stat)
        (samples : list Q) :
  audioStat w (audioPath options) = Some stat ->
  force options = true
  \/ cache_lookup (cacheFiles w (getCachePath (cacheDir options) (songId options)))
                  stat = None ->
  decoder w (audioPath options) = Some samples ->
  samples <> [] ->
  cacheWritable w = false ->
  getSongAnalysis options w = (Rejected "EACCES", decoded_once w).
Proof.
  intros Hs Hm Hd Hne Hw.
  rewrite (getSongAnalysis_recomputes options w stat Hs Hm).
  pose proof (recompute_cases options stat w) as Hc. cbv zeta in Hc.
  rewrite Hd in Hc.
  destruct (Zlength samples =? 0)%Z eqn:Hz.
  - apply Zlength_zero in Hz. contradiction.
  - destruct Hc as (a & _ & Hc). now rewrite Hc, Hw.
Qed.

(** X9.  A forced call does not look at the cache: with the audio file
    in place it goes on to decode whatever the cache holds, and its result
    is the same whatever files the cache directory holds. *)
Theorem forced_call_ignores_cache (options : Options) (w : World) (stat : Stat)
        (files : string -> option FileText) :
  force options = true ->
  audioStat w (audioPath options) = Some stat ->
  getSongAnalysis options w = recompute options stat w /\
  decodeCalls (snd (getSongAnalysis options w)) = S (decodeCalls w) /\
  fst (getSongAnalysis options (replace_cache w files))
  = fst (getSongAnalysis options w).
Proof.
  intros Hf Hs.
  assert (E : getSongAnalysis options w = recompute options stat w)
    by (apply getSongAnalysis_recomputes; auto).
  assert (E' : getSongAnalysis options (replace_cache w files)
               = recompute options stat (replace_cache w files))
    by (apply getSongAnalysis_recomputes; auto).
  rewrite E, E'. split; [reflexivity|].
  pose proof (recompute_cases options stat w) as Hc.
  pose proof (recompute_cases options stat (replace_cache w files)) as Hc'.
  cbv zeta in Hc, Hc'. cbn [decoder replace_cache cacheWritable] in Hc'.
  destruct (decoder w (audioPath options)) as [samples|].
  - destruct (Zlength samples =? 0)%Z.
    + rewrite Hc, Hc'. split; reflexivity.
    + destruct Hc as (a & Ha & Hc). destruct Hc' as (a' & Ha' & Hc').
      assert (a' = a) by congruence. subst a'.
      rewrite Hc, Hc'. destruct (cacheWritable w); split; reflexivity.
  - rewrite Hc, Hc'. split; reflexivity.
Qed.

(** X10.  When [getSongAnalysis] computes an analysis and the cache can
    be written, the cache file of the song then holds that analysis under
    the stat of the audio file, and the next call without [force] returns
    the same value from the cache, without decoding again. *)
Theorem computed_analysis_is_cached (options : Options) (w : World) (stat : Stat)
        (samples : list Q) :
  audioStat w (audioPath options) = Some stat ->
  force options = true
  \/ cache_lookup (cacheFiles w (getCachePath (cacheDir options) (songId options)))
                  stat = None ->
  decoder w (audioPath options) = Some samples ->
  samples <> [] ->
  cacheWritable w = true ->
  exists a w',
    analyze samples = Returns a /\
    getSongAnalysis options w = (Resolved (Some (SongAnalysis_value a)), w') /\
    cacheFiles w' (getCachePath (cacheDir options) (songId options))
    = Some (Parses (AnalysisCache_value (entry_of stat a w))) /\
    decodeCalls w' = S (decodeCalls w) /\
    getSongAnalysis (with_force options false) w'
    = (Resolved (Some (SongAnalysis_value a)), w').
Proof.
  intros Hs Hm Hd Hne Hw.
  rewrite (getSongAnalysis_recomputes options w stat Hs Hm).
  pose proof (recompute_cases options stat w) as Hc. cbv zeta in Hc.
  rewrite Hd in Hc.
  destruct (Zlength samples =? 0)%Z eqn:Hz.
  { apply Zlength_zero in Hz. contradiction. }
  destruct Hc as (a & Ha & Hc). rewrite Hw in Hc.
  exists a. eexists. split; [exact Ha|]. split; [exact Hc|].
  set (cachePath := getCachePath (cacheDir options) (songId options)).
  split; [|split].
  - simpl. now rewrite String.eqb_refl.
  - reflexivity.
  - rewrite (getSongAnalysis_with_stat (with_force options false) _ stat)
      by exact Hs.
    cbn [force with_force cacheDir songId]. fold cachePath.
    cbn [cacheFiles with_cache_file]. rewrite String.eqb_refl.
    unfold cache_lookup, AnalysisCache_value, entry_of.
    cbn -[SongAnalysis_value Num.eqb].
    unfold Num.eqb. rewrite !(proj2 (Qeq_bool_iff _ _) (Qeq_refl _)).
    reflexivity.
Qed.

(** X11.  When the decoder fails, or hands back no sample, the call
    resolves with [null] and writes nothing: the cache files are as they
    were. *)
Theorem decode_failure_returns_null (options : Options) (w : World) (stat : Stat) :
  audioStat w (audioPath options) = Some stat ->
  force options = true
  \/ cache_lookup (cacheFiles w (getCachePath (cacheDir options) (songId options)))
                  stat = None ->
  decoder w (audioPath options) = None \/ decoder w (audioPath options) = Some [] ->
  getSongAnalysis options w = (Resolved None, decoded_once w) /\
  cacheFiles (decoded_once w) = cacheFiles w.
Proof.
  intros Hs Hm Hd.
  rewrite (getSongAnalysis_recomputes options w stat Hs Hm).
  pose proof (recompute_cases options stat w) as Hc. cbv zeta in Hc.
  destruct Hd as [Hd|Hd]; rewrite Hd in Hc; simpl in Hc; rewrite Hc;
    split; reflexivity.
Qed.

End OrchestratorRuns.

Lemma cache_write_failure_rejects_witness :
  getSongAnalysis (lib := stand_in) song read_only_world
  = (Rejected "EACCES", decoded_once read_only_world).
Proof.
  apply (cache_write_failure_rejects (lib := stand_in) song read_only_world
           song_stat two_clicks).
  - reflexivity.
  - right. reflexivity.
  - reflexivity.
  - discriminate.
  - reflexivity.
Defined.

Lemma forced_call_ignores_cache_witness :
  let w := world_with (Some (Parses (AnalysisCache_value stored_entry))) true in
  getSongAnalysis (lib := stand_in) (with_force song true) w
  = recompute (lib := stand_in) (with_force song true) song_stat w /\
  decodeCalls (snd (getSongAnalysis (lib := stand_in) (with_force song true) w))
  = S (decodeCalls w) /\
  fst (getSongAnalysis (lib := stand_in) (with_force song true)
                       (replace_cache w (fun _ => None)))
  = fst (getSongAnalysis (lib := stand_in) (with_force song true) w).
Proof.
  apply (forced_call_ignores_cache (lib := stand_in) (with_force song true)
           (world_with (Some (Parses (AnalysisCache_value stored_entry))) true)
           song_stat (fun _ => None)).
  - reflexivity.
  - reflexivity.
Defined.

Lemma computed_analysis_is_cached_witness :
  let w := world_with None true in
  exists a w',
    analyze (lib := stand_in) two_clicks = Returns a /\
    getSongAnalysis (lib := stand_in) song w
    = (Resolved (Some (SongAnalysis_value a)), w') /\
    cacheFiles w' (getCachePath (cacheDir song) (songId song))
    = Some (Parses (AnalysisCache_value (entry_of song_stat a w))) /\
    decodeCalls w' = S (decodeCalls w) /\
    getSongAnalysis (lib := stand_in) (with_force song false) w'
    = (Resolved (Some (SongAnalysis_value a)), w').
Proof.
  apply (computed_analysis_is_cached (lib := stand_in) song (world_with None true)
           song_stat two_clicks).
  - reflexivity.
  - right. reflexivity.
  - reflexivity.
  - discriminate.
  - reflexivity.
Defined.

Lemma decode_failure_returns_null_witness :
  getSongAnalysis (lib := stand_in) song undecodable_world
  = (Resolved None, decoded_once undecodable_world) /\
  cacheFiles (decoded_once undecodable_world) = cacheFiles undecodable_world.
Proof.
  apply (decode_failure_returns_null (lib := stand_in) song undecodable_world
           song_stat).
  - reflexivity.
  - right. reflexivity.
  - left. reflexivity.
Defined.
(** ** The key estimator *)

Section KeyChoice.

Context {lib : MathLib}.






(** *** What the estimator reads *)

Lemma subarray_app samples extra a b :
  (0 <= a)%Z -> (a <= b)%Z -> (b <= Zlength samples)%Z ->
  subarray (samples ++ extra) a b = subarray samples a b.
Proof.
  intros Ha Hab Hb. unfold subarray. rewrite Zlength_correct in Hb.
  rewrite skipn_app, firstn_app.
  replace (Z.to_nat (b - a) - length (skipn (Z.to_nat a) samples))%nat with 0%nat
    by (rewrite length_skipn; lia).
  cbn [firstn]. now rewrite app_nil_r.
Qed.

Lemma key_frames_loop_app fuel extra : forall samples sampleRate maxSamples start_ chroma,
  (0 <= start_)%Z -> (maxSamples <= Zlength samples)%Z ->
  key_frames_loop fuel (samples ++ extra) sampleRate maxSamples start_ chroma
  = key_frames_loop fuel samples sampleRate maxSamples start_ chroma.
Proof.
  induction fuel as [|fuel IH]; intros samples sampleRate maxSamples start_ chroma Hs Hm;
    rewrite (key_frames_loop_unfold _ (samples ++ extra) sampleRate maxSamples start_ chroma);
    rewrite (key_frames_loop_unfold _ samples sampleRate maxSamples start_ chroma);
    destruct (Z.leb_spec (start_ + KEY_FRAME_SIZE) maxSamples) as [Hle|Hle].
  - reflexivity.
  - reflexivity.
  - rewrite subarray_app by (unfold KEY_FRAME_SIZE in *; lia).
    apply IH; [unfold KEY_HOP_SIZE; lia|exact Hm].
  - reflexivity.
Qed.

(** X13.  [estimateKey] reads the first 120 seconds of the buffer and
    nothing after them: once a buffer holds 120 seconds of samples, what
    follows does not change the result. *)
Theorem estimateKey_reads_two_minutes (samples extra : list Q) (sampleRate : Q) :
  (Num.floor (KEY_MAX_SECONDS * sampleRate)%js <= Zlength samples)%Z ->
  estimateKey (samples ++ extra) sampleRate = estimateKey samples sampleRate.
Proof.
  intro H. unfold estimateKey. cbv zeta.
  assert (E : Z.min (Zlength (samples ++ extra))
                    (Num.floor (KEY_MAX_SECONDS * sampleRate)%js)
              = Z.min (Zlength samples)
                      (Num.floor (KEY_MAX_SECONDS * sampleRate)%js)).
  { rewrite !Zlength_correct in *. rewrite length_app. lia. }
  rewrite E.
  destruct (_ <? KEY_FRAME_SIZE)%Z; [reflexivity|].
  rewrite key_frames_loop_app by lia. reflexivity.
Qed.

(** *** Normalisation and the templates *)

Lemma sum_squares_nonneg values : forall acc,
  0 <= acc ->
  acc <= fold_left (fun sum value => sum + value * value)%js values acc.
Proof.
  induction values as [|x rest IH]; intros acc Hacc; simpl; [lra|].
  assert (Hstep : acc <= Num.add acc (Num.mul x x)) by (to_Q; nra).
  apply Qle_trans with (Num.add acc (Num.mul x x)); [exact Hstep|].
  apply IH. lra.
Qed.



Lemma buildTemplates_rows template normalized :
  normalizeVector template = Some normalized ->
  length (buildTemplates template) = 12%nat /\
  forall shift, (shift < 12)%nat ->
    length (nth shift (buildTemplates template) []) = 12%nat /\
    forall i, (i < 12)%nat ->
      nth i (nth shift (buildTemplates template) []) 0
      = nth (Nat.modulo (i + shift) 12) normalized 0.
Proof.
  intro H. unfold buildTemplates. rewrite H. split.
  - now rewrite length_map, length_seq.
  - intros shift Hs.
    set (row := fun shift =>
                  map (fun i => nth (Nat.modulo (i + shift) 12) normalized 0) (seq 0 12)).
    assert (E : nth shift (map row (seq 0 12)) [] = row shift).
    { rewrite (nth_indep _ [] (row 0%nat)) by (rewrite length_map, length_seq; lia).
      rewrite (map_nth row). now rewrite seq_nth. }
    change (map (fun shift0 => map _ (seq 0 12)) (seq 0 12)) with (map row (seq 0 12)).
    rewrite E. unfold row. split.
    + now rewrite length_map, length_seq.
    + intros i Hi.
      rewrite (nth_indep _ 0 (nth (Nat.modulo (0 + shift) 12) normalized 0))
        by (rewrite length_map, length_seq; lia).
      rewrite (map_nth (fun i => nth (Nat.modulo (i + shift) 12) normalized 0)).
      now rewrite seq_nth.
Qed.

Lemma template_normalizes template :
  Num.truthy (fold_left (fun sum value => sum + value * value)%js template 0) = true ->
  exists normalized, normalizeVector template = Some normalized /\
                     length normalized = length template.
Proof.
  intro H. unfold normalizeVector. cbv zeta. rewrite H. cbn [negb].
  eexists. split; [reflexivity|]. apply length_map.
Qed.

(** X15.  Whatever the square root of the numeric library, each of the
    two template tables has twelve rows of twelve entries, so that the
    scoring loops read inside them; the row at index [shift] is the
    normalised profile turned by [shift] places: its entry [i] is the
    entry [(i + shift) mod 12] of the profile, and the row at index 0 is
    the normalised profile itself. *)
Theorem templates_are_rotations (m : Mode) :
  exists normalized,
    normalizeVector (match m with major => MAJOR_TEMPLATE | minor => MINOR_TEMPLATE end)
    = Some normalized /\
    length (templates_of m) = 12%nat /\
    nth 0 (templates_of m) [] = normalized /\
    forall shift, (shift < 12)%nat ->
      length (nth shift (templates_of m) []) = 12%nat /\
      forall i, (i < 12)%nat ->
        nth i (nth shift (templates_of m) []) 0
        = nth (Nat.modulo (i + shift) 12) normalized 0.
Proof.
  set (template := match m with major => MAJOR_TEMPLATE | minor => MINOR_TEMPLATE end).
  assert (Ht : templates_of m = buildTemplates template) by (destruct m; reflexivity).
  assert (Hl : length template = 12%nat) by (destruct m; reflexivity).
  destruct (template_normalizes template) as (normalized & Hn & Hlen).
  { destruct m; reflexivity. }
  exists normalized. rewrite Ht.
  destruct (buildTemplates_rows template normalized Hn) as [Hrows Hrow].
  split; [exact Hn|]. split; [exact Hrows|]. split; [|exact Hrow].
  destruct (Hrow 0%nat ltac:(lia)) as [Hl0 Hi0].
  apply (nth_ext _ _ 0 0); [lia|].
  intros i Hi. rewrite Hl0 in Hi. rewrite (Hi0 i Hi).
  rewrite Nat.add_0_r, Nat.mod_small by lia. reflexivity.
Qed.

End KeyChoice.


Lemma estimateKey_reads_two_minutes_witness :
  estimateKey (lib := stand_in) (slow_signal ++ [5; 7]) 40
  = estimateKey (lib := stand_in) slow_signal 40.
Proof.
  apply (estimateKey_reads_two_minutes (lib := stand_in) slow_signal [5; 7] 40).
  vm_compute. discriminate.
Defined.
(** ** The tempo segments *)

Lemma within_weaken lo lo' hi s : lo' <= lo -> within lo hi s -> within lo' hi s.
Proof. intros H [A B]. split; [lra|exact B]. Qed.

Lemma windows_loop_within fuel : forall samples sampleRate w h start_,
  0 < sampleRate -> (0 < h)%Z ->
  (Zlength samples - w - start_ < Z.of_nat fuel)%Z ->
  exists segs,
    windows_loop fuel samples sampleRate w h start_ = Returns segs /\
    Forall (within (Num.div (Num.of_Z start_) sampleRate)
                   (Num.div (Num.of_Z (Zlength samples - w + w)) sampleRate)) segs /\
    (Z.of_nat (length segs) <= Z.max 0 ((Zlength samples - w - start_) / h + 1))%Z.
Proof.
  induction fuel as [|fuel IH]; intros samples sampleRate w h start_ Hsr Hh Hfuel;
    rewrite windows_loop_unfold;
    destruct (Z.leb_spec (start_ + w) (Zlength samples)) as [Hc|Hc];
    try (exists []; split; [reflexivity|split; [constructor|simpl; lia]]).
  - lia.
  - destruct (estimateTempo_returns (subarray samples start_ (start_ + w))
                                    sampleRate Hsr) as (r & Hr & _).
    destruct (IH samples sampleRate w h (start_ + h)%Z Hsr Hh) as (rest & Hrest & Hw & Hn);
      [lia|].
    rewrite Hr, Hrest. cbn [run_bind].
    assert (Hw' : Forall (within (Num.div (Num.of_Z start_) sampleRate)
                                 (Num.div (Num.of_Z (Zlength samples - w + w)) sampleRate))
                         rest).
    { eapply Forall_impl; [|exact Hw]. intros s. apply within_weaken.
      apply div_le_div; [exact Hsr|lia]. }
    assert (Hn' : (Z.of_nat (S (length rest))
                   <= Z.max 0 ((Zlength samples - w - start_) / h + 1))%Z).
    { replace (Zlength samples - w - (start_ + h))%Z
        with (Zlength samples - w - start_ + (-1) * h)%Z in Hn by lia.
      rewrite Z.div_add in Hn by lia.
      assert (0 <= (Zlength samples - w - start_) / h)%Z
        by (apply Z.div_pos; lia).
      lia. }
    assert (Hn'' : (Z.of_nat (length rest)
                    <= Z.max 0 ((Zlength samples - w - start_) / h + 1))%Z) by lia.
    destruct r as [b|]; cbn [falsy].
    + destruct (Num.truthy b); cbn [negb].
      * eexists. split; [reflexivity|]. split; [|exact Hn'].
        constructor; [|exact Hw']. split; cbn [start end_].
        -- apply Qle_refl.
        -- apply div_le_div; [exact Hsr|lia].
      * eexists. split; [reflexivity|]. split; [exact Hw'|exact Hn''].
    + eexists. split; [reflexivity|]. split; [exact Hw'|exact Hn''].
Qed.

Lemma merge_into_within lo hi rest : forall last,
  within lo hi last -> Forall (within lo hi) rest ->
  Forall (within lo hi) (merge_into last rest).
Proof.
  induction rest as [|segment rest IH]; intros last Hl Hr; simpl.
  - constructor; [exact Hl|constructor].
  - inversion Hr as [|? ? Hs Hr']; subst.
    destruct (within_tolerance last segment).
    + apply IH; [|exact Hr']. destruct Hl as [L1 L2], Hs as [S1 S2].
      split; cbn [merge_pair start end_]; [exact L1|].
      destruct (NumFacts.max_cases (end_ last) (end_ segment)) as [[_ ->]|[_ ->]];
        assumption.
    + constructor; [exact Hl|]. apply IH; assumption.
Qed.

Lemma merge_into_length rest : forall last,
  (length (merge_into last rest) <= S (length rest))%nat.
Proof.
  induction rest as [|segment rest IH]; intros last; simpl; [lia|].
  destruct (within_tolerance last segment).
  - specialize (IH (merge_pair last segment)). lia.
  - specialize (IH segment). simpl. lia.
Qed.

Lemma mergeTempoSegments_length segments :
  (length (mergeTempoSegments segments) <= length segments)%nat.
Proof.
  destruct segments as [|s rest]; [simpl; lia|].
  rewrite mergeTempoSegments_cons. apply merge_into_length.
Qed.

(** X16.  Every tempo segment of a buffer lies inside the track: it
    starts at 0 or later and ends at the duration of the buffer or
    earlier (before the rounding of the emitted values).  There are no
    more segments than windows: none for a buffer shorter than 661500
    samples, and one more for every further 330750 samples at most. *)
Theorem tempo_segments_within_track (samples : list Q) :
  exists segments,
    buildTempoSegments samples SAMPLE_RATE = Returns segments /\
    Forall (within 0 (inject_Z (Zlength samples) / SAMPLE_RATE)) segments /\
    (Z.of_nat (length segments)
     <= Z.max 0 ((Zlength samples - 661500) / 330750 + 1))%Z.
Proof.
  unfold buildTempoSegments, provisionalSegments. cbv zeta.
  rewrite window_samples, hop_samples.
  change (661500 <=? 0)%Z with false. change (330750 <=? 0)%Z with false.
  cbn [orb].
  destruct (Z.ltb_spec (Zlength samples) 661500) as [Hl|Hl].
  - exists []. split; [reflexivity|]. split; [constructor|simpl; lia].
  - destruct (windows_loop_within (S (Z.to_nat (Zlength samples))) samples
                SAMPLE_RATE 661500 330750 0 sample_rate_pos ltac:(lia))
      as (segs & Hs & Hw & Hn); [lia|].
    rewrite Hs. cbn [run_bind]. eexists. split; [reflexivity|].
    rewrite Z.sub_0_r in Hn.
    assert (Hw' : Forall (within 0 (inject_Z (Zlength samples) / SAMPLE_RATE)) segs).
    { eapply Forall_impl; [|exact Hw]. intros s [A B]. split.
      - revert A. to_Q. intro A.
        apply Qle_trans with (inject_Z 0 / SAMPLE_RATE); [|exact A].
        vm_compute. discriminate.
      - revert B. replace (Zlength samples - 661500 + 661500)%Z
          with (Zlength samples) by lia.
        to_Q. auto. }
    split.
    + destruct segs as [|s rest]; [constructor|].
      rewrite mergeTempoSegments_cons. inversion Hw'; subst.
      now apply merge_into_within.
    + pose proof (mergeTempoSegments_length segs). lia.
Qed.

(** X17.  Merging never makes the list longer, and it keeps the start of
    the first segment: the empty list stays empty, and the merge of a list
    that begins with [first] begins with a segment that starts where
    [first] starts and ends where it ends or later. *)
Theorem mergeTempoSegments_shrinks (segments : list TempoSegment) :
  (length (mergeTempoSegments segments) <= length segments)%nat /\
  match segments with
  | [] => mergeTempoSegments segments = []
  | first :: _ =>
      exists merged others,
        mergeTempoSegments segments = merged :: others /\
        start merged = start first /\ end_ first <= end_ merged
  end.
Proof.
  split; [apply mergeTempoSegments_length|].
  destruct segments as [|first rest]; [reflexivity|].
  rewrite mergeTempoSegments_cons. apply merge_into_head.
Qed.

Lemma merge_into_apart rest : forall last,
  HdRel tempo_apart last rest -> Sorted tempo_apart rest ->
  merge_into last rest = last :: rest.
Proof.
  induction rest as [|segment rest IH]; intros last Hh Hs; simpl; [reflexivity|].
  inversion Hh as [|? ? Ha]; subst. inversion Hs; subst.
  assert (E : within_tolerance last segment = false).
  { unfold within_tolerance. apply NumFacts.leb_gt.
    unfold tempo_apart in Ha. to_Q. exact Ha. }
  rewrite E. f_equal. now apply IH.
Qed.

(** X18.  A list in which the tempos of any two consecutive segments are
    more than the tolerance of 2 apart is left as it is by the merge. *)
Theorem mergeTempoSegments_keeps_distinct (segments : list TempoSegment) :
  Sorted tempo_apart segments ->
  mergeTempoSegments segments = segments.
Proof.
  intro H. destruct segments as [|first rest]; [reflexivity|].
  rewrite mergeTempoSegments_cons. inversion H; subst.
  now apply merge_into_apart.
Qed.

Lemma mergeTempoSegments_keeps_distinct_witness :
  mergeTempoSegments distinct_windows = distinct_windows.
Proof.
  apply (mergeTempoSegments_keeps_distinct distinct_windows).
  repeat constructor; vm_compute; reflexivity.
Defined.
(** ** The tempo estimate and the gain of the signal *)






















(** ** The tempo map of the beat-tracking strategy, further *)

Module WorkerOrder.

Import Worker WorkerAux WorkerFacts WorkerSteady.

Lemma merge_into_ordered rest : forall last,
  well_formed last -> Forall well_formed rest ->
  HdRel after last rest -> Sorted after rest ->
  Forall well_formed (merge_into last rest) /\
  Sorted after (merge_into last rest) /\
  exists first others,
    merge_into last rest = first :: others /\ start first = start last.
Proof.
  induction rest as [|interval rest IH]; intros last Hl Hr Hh Hs; simpl.
  - repeat split; try (repeat constructor; assumption). now exists last, [].
  - inversion Hr as [|? ? Wi Wr]; subst.
    inversion Hh as [|? ? Ha]; subst. inversion Hs as [|? ? Hs' Hhd]; subst.
    destruct (within_tolerance last interval).
    + destruct (IH (merge_pair last interval)) as (W & S & f & o & E & Ef); auto.
      * unfold well_formed, after, merge_pair in *. simpl. lra.
      * destruct Hhd as [|next rest' Hn]; constructor.
        unfold after in *. simpl. assumption.
      * repeat split; auto. exists f, o. split; auto.
    + destruct (IH interval) as (W & S & f & o & E & Ef); auto.
      repeat split.
      * constructor; auto.
      * constructor; auto. rewrite E. constructor. unfold after in *. now rewrite Ef.
      * now exists last, (merge_into interval rest).
Qed.

Lemma mergeIntervals_ordered intervals_ :
  Forall well_formed intervals_ -> Sorted after intervals_ ->
  Forall well_formed (mergeIntervals intervals_) /\
  Sorted after (mergeIntervals intervals_).
Proof.
  destruct intervals_ as [|i rest]; intros Hw Hs.
  - split; constructor.
  - rewrite mergeIntervals_cons. inversion Hw; subst. inversion Hs; subst.
    destruct (merge_into_ordered rest i) as (W & S & _); auto.
Qed.

Lemma Sorted_after_last l : forall x x',
  Sorted after (l ++ [x]) -> start x' = start x -> Sorted after (l ++ [x']).
Proof.
  induction l as [|a l IH]; intros x x' H E; simpl in *.
  - repeat constructor.
  - inversion H as [|? ? Hs Hh]; subst. constructor; [now apply (IH x)|].
    destruct l as [|b l]; simpl in *.
    + inversion Hh; subst. constructor. unfold after in *. now rewrite E.
    + inversion Hh; subst. now constructor.
Qed.

(** What [extendLast] does to a list given by its last element. *)
Lemma extendLast_snoc before last duration :
  extendLast (before ++ [last]) duration
  = before ++ [ {| start := start last;
                   end_ := Num.max (end_ last) duration;
                   bpm := bpm last |} ].
Proof.
  unfold extendLast. rewrite rev_app_distr. simpl.
  unfold Num.max, Num.gtb.
  destruct (Num.ltb (end_ last) duration).
  - now rewrite rev_involutive.
  - now destruct last.
Qed.

Lemma snoc_cases {A} (l : list A) : l = [] \/ exists before last, l = before ++ [last].
Proof.
  destruct (rev l) as [|x r] eqn:E.
  - left. apply (f_equal (@rev A)) in E. now rewrite rev_involutive in E.
  - right. exists (rev r), x. apply (f_equal (@rev A)) in E.
    now rewrite rev_involutive in E.
Qed.

Lemma extendLast_ordered merged duration :
  Forall well_formed merged -> Sorted after merged ->
  Forall well_formed (extendLast merged duration) /\
  Sorted after (extendLast merged duration).
Proof.
  intros Hw Hs. destruct (snoc_cases merged) as [->|(before & last & ->)].
  - split; constructor.
  - rewrite extendLast_snoc. apply Forall_app in Hw. destruct Hw as [Hb Hl].
    inversion Hl as [|? ? Wl _]; subst. split.
    + apply Forall_app. split; [exact Hb|]. constructor; [|constructor].
      unfold well_formed in *. simpl.
      destruct (NumFacts.max_cases (end_ last) duration) as [[L ->]|[L ->]]; lra.
    + now apply (Sorted_after_last before last).
Qed.

(** One turn of the first loop: nothing, or one more interval, whose
    smoothed tempo passed the glitch test. *)
Lemma beat_step_steady st start_ end__ :
  Forall rate_in_range (history st) ->
  beat_step st start_ end__ = st \/
  exists smoothed nextHistory,
    beat_step st start_ end__ =
    {| intervals := intervals st
                    ++ [ {| start := start_; end_ := end__; bpm := smoothed |} ];
       history := nextHistory;
       lastStable := Some smoothed |} /\
    rate_in_range smoothed /\ Forall rate_in_range nextHistory /\
    is_glitch (lastStable st) smoothed = false.
Proof.
  intro Hh. unfold beat_step. cbv zeta.
  destruct (Num.leb (Num.sub end__ start_) 0) eqn:E1; [now left|].
  destruct (Num.ltb (Num.div 60 (Num.sub end__ start_)) BPM_MIN) eqn:E2;
    [now left|].
  destruct (Num.gtb (Num.div 60 (Num.sub end__ start_)) BPM_MAX) eqn:E3;
    [now left|]. cbn [orb].
  set (raw := Num.div 60 (Num.sub end__ start_)) in *.
  set (nextHistory := slice_last MOVING_AVG_WINDOW (history st ++ [raw])).
  assert (Hraw : rate_in_range raw) by (bool_to_Q; split; assumption).
  assert (Hnext : Forall rate_in_range nextHistory).
  { apply slice_last_Forall. apply Forall_app. split; auto. }
  destruct (average_bounds BPM_MIN BPM_MAX nextHistory) as (a & Ha & Hlo & Hhi).
  - apply slice_last_nonempty; [unfold MOVING_AVG_WINDOW; lia|].
    destruct (history st); discriminate.
  - exact Hnext.
  - rewrite Ha. destruct (negb (Num.truthy a)); [now left|].
    destruct (is_glitch (lastStable st) a) eqn:Eg; [now left|].
    right. exists a, nextHistory. repeat split; auto.
Qed.

Lemma Sorted_snoc {A} (R : A -> A -> Prop) l x :
  Sorted R l -> (forall y, last_of l = Some y -> R y x) -> Sorted R (l ++ [x]).
Proof.
  induction 1 as [|a l Hs IH Hh]; intro Hx; simpl.
  - repeat constructor.
  - constructor.
    + apply IH. intros y Hy. apply Hx. unfold last_of in *. simpl.
      destruct (rev l) as [|z r] eqn:E; [discriminate|]. simpl in *. exact Hy.
    + destruct l as [|b l]; simpl.
      * constructor. apply Hx. reflexivity.
      * inversion Hh; subst. now constructor.
Qed.

Lemma last_of_snoc {A} (l : list A) x : last_of (l ++ [x]) = Some x.
Proof. unfold last_of. now rewrite rev_app_distr. Qed.

Lemma last_of_In {A} (l : list A) x : last_of l = Some x -> In x l.
Proof.
  unfold last_of. intro H. apply in_rev.
  destruct (rev l); [discriminate|]. injection H as ->. now left.
Qed.

Lemma beat_step_stable st start_ end__ :
  stable_invariant st -> stable_invariant (beat_step st start_ end__).
Proof.
  intros [H1 H2 H3 H4].
  destruct (beat_step_steady st start_ end__ H1) as [E|(sm & nh & E & Hr & Hn & Hg)];
    rewrite E; [now constructor|].
  constructor; simpl; auto.
  - apply Forall_app. split; [assumption|]. constructor; [exact Hr|constructor].
  - now rewrite last_of_snoc.
  - apply Sorted_snoc; auto. intros y Hy.
    rewrite H3, Hy in Hg. simpl in Hg.
    assert (Hy' : in_range BPM_MIN BPM_MAX y).
    { rewrite Forall_forall in H2. apply H2. now apply last_of_In. }
    destruct Hy' as [Hlo _]. unfold BPM_MIN in Hlo.
    assert (Ht : Num.truthy (bpm y) = true) by (apply NumFacts.truthy_true; lra).
    rewrite Ht in Hg. simpl in Hg. bool_to_Q.
    unfold steady. simpl. revert Hg. to_Q. intro Hg.
    set (d := Qabs (sm - bpm y)) in *.
    assert (Hd : d == d / bpm y * bpm y) by (field; lra).
    apply Qle_trans with (d / bpm y * bpm y); [rewrite <- Hd; apply Qle_refl|].
    apply Qmult_le_compat_r; [exact Hg|lra].
Qed.

Lemma beats_loop_stable rest : forall prev st,
  stable_invariant st -> stable_invariant (beats_loop prev rest st).
Proof.
  induction rest as [|beat rest IH]; intros prev st H; simpl; auto.
  apply IH. now apply beat_step_stable.
Qed.

Lemma acceptedIntervals_steady beats : Sorted steady (acceptedIntervals beats).
Proof.
  unfold acceptedIntervals. destruct beats as [|first rest]; [constructor|].
  apply beats_loop_stable. constructor; simpl; auto.
Qed.

(** The overall tempo of the map of beats that never go back. *)
Lemma buildTempoMap_overall beats duration :
  Sorted Qle beats ->
  match fst (buildTempoMap beats duration) with
  | [] => snd (buildTempoMap beats duration) = None
  | _ => exists b, snd (buildTempoMap beats duration) = Some b /\
                   BPM_MIN <= b /\ b <= BPM_MAX
  end.
Proof.
  intro Hsorted. unfold buildTempoMap. cbn [fst snd].
  destruct (acceptedIntervals_sorted beats Hsorted) as (Hw & Hr & Hs).
  assert (Hrange : Forall (in_range BPM_MIN BPM_MAX)
                          (extendLast (mergeIntervals (acceptedIntervals beats))
                                      duration)).
  { apply extendLast_in_range. now apply mergeIntervals_in_range. }
  destruct (extendLast _ _) as [|s rest]; [reflexivity|].
  apply (median_bounds BPM_MIN BPM_MAX (map bpm (s :: rest))).
  - discriminate.
  - apply Forall_map_bpm. exact Hrange.
Qed.

End WorkerOrder.

(** X20.  When the beats never go back in time, the segments of the
    tempo map are in order and do not overlap: each has [start < end], and
    each starts where the one before it has ended, or later. *)
Theorem tempo_map_in_order (beats : list Q) (duration : Q) :
  Sorted Qle beats ->
  Forall well_formed (fst (Worker.buildTempoMap beats duration)) /\
  Sorted WorkerAux.after (fst (Worker.buildTempoMap beats duration)).
Proof.
  intro Hsorted.
  destruct (WorkerFacts.acceptedIntervals_sorted beats Hsorted) as (Hw & _ & Hs).
  destruct (WorkerOrder.mergeIntervals_ordered _ Hw Hs) as [Hw' Hs'].
  unfold Worker.buildTempoMap. cbn [fst].
  now apply WorkerOrder.extendLast_ordered.
Qed.

Lemma tempo_map_in_order_witness :
  Forall well_formed (fst (Worker.buildTempoMap even_beats 12)) /\
  Sorted WorkerAux.after (fst (Worker.buildTempoMap even_beats 12)).
Proof.
  apply (tempo_map_in_order even_beats 12).
  repeat constructor; vm_compute; discriminate.
Defined.


(** X22.  The tempo map reaches the end of the track: when there is a
    segment, the last one is the last merged segment with its end moved
    to the duration of the track, unless it ends later already; the
    segments before it are the merged segments as they are. *)
Theorem tempo_map_reaches_the_end (beats : list Q) (duration : Q) :
  let merged := Worker.mergeIntervals (Worker.acceptedIntervals beats) in
  let segments := fst (Worker.buildTempoMap beats duration) in
  (merged = [] /\ segments = []) \/
  exists before original last,
    merged = before ++ [original] /\
    segments = before ++ [last] /\
    start last = start original /\ bpm last = bpm original /\
    end_ original <= end_ last /\ duration <= end_ last /\
    (end_ last = end_ original \/ end_ last = duration).
Proof.
  cbv zeta. unfold Worker.buildTempoMap. cbn [fst].
  destruct (WorkerOrder.snoc_cases
              (Worker.mergeIntervals (Worker.acceptedIntervals beats)))
    as [E|(before & original & E)]; rewrite E.
  - left. split; reflexivity.
  - right. rewrite WorkerOrder.extendLast_snoc.
    exists before, original. eexists. split; [reflexivity|].
    split; [reflexivity|]. cbn [start bpm end_].
    destruct (NumFacts.max_cases (end_ original) duration) as [[L ->]|[L ->]];
      repeat split; auto; lra.
Qed.

(** X23.  Whatever the beats, two consecutive intervals that the first
    loop of the tempo map accepts have tempos within 30 percent of each
    other, relative to the earlier one: an interval whose smoothed tempo
    jumps further is dropped. *)
Theorem accepted_intervals_are_steady (beats : list Q) :
  Sorted WorkerSteady.steady (Worker.acceptedIntervals beats) /\
  Forall (in_range Worker.BPM_MIN Worker.BPM_MAX) (Worker.acceptedIntervals beats).
Proof.
  split.
  - apply WorkerOrder.acceptedIntervals_steady.
  - apply WorkerFacts.acceptedIntervals_in_range.
Qed.
(** ** The message handler of the worker *)

Lemma clamp_unit_bounds x q :
  WorkerMessage.clamp_unit x = Number q -> 0 <= q /\ q <= 1.
Proof.
  unfold WorkerMessage.clamp_unit. destruct x as [| | |p]; simpl; try discriminate.
  - intro H. injection H as <-.
    destruct (NumFacts.max_cases 0 1) as [[_ ->]|[_ ->]]; lra.
  - intro H. injection H as <-. lra.
  - intro H. injection H as <-. apply (clamp01_bounds p).
Qed.

Lemma round_thousandths q :
  0 <= q -> q <= 1 ->
  let r := (Num.of_Z (Num.round (q * 1000)) / 1000)%js in
  r = roundTo q 3 /\ 0 <= r /\ r <= 1.
Proof.
  intros L U. cbv zeta. split; [reflexivity|].
  change ((Num.of_Z (Num.round (q * 1000)) / 1000)%js) with (roundTo q 3). split.
  - apply (roundTo_lower q 3 0 0); [reflexivity|exact L].
  - apply (roundTo_upper q 3 1 1000); [reflexivity|exact U].
Qed.

(** X24.  The key estimate of the worker has a confidence between 0 and
    1, a whole number of thousandths, whatever strength the extractor
    reports ([NaN] and the infinities included); its tonic is not empty,
    and its mode is minor exactly when the extractor says so. *)
Theorem worker_key_confidence (call : WorkerMessage.KeyExtractorCall)
        (k : KeyEstimate) :
  WorkerMessage.estimateKey call = Some k ->
  0 <= confidence k /\ confidence k <= 1 /\
  roundTo (confidence k) 3 = confidence k /\
  tonic k <> EmptyString /\
  exists result,
    call = WorkerMessage.KeyReturns (Some result) /\
    tonic k = WorkerMessage.result_key result /\
    (mode k = minor <-> WorkerMessage.result_scale result = "minor").
Proof.
  unfold WorkerMessage.estimateKey.
  destruct call as [|[result|]]; try discriminate.
  destruct (String.eqb (WorkerMessage.result_key result) EmptyString) eqn:Ek;
    [discriminate|].
  destruct (String.eqb (WorkerMessage.result_scale result) EmptyString) eqn:Es;
    [discriminate|].
  cbn [orb]. cbv zeta. intro H. injection H as <-. cbn [confidence tonic mode].
  assert (Hc : forall c : Float,
             (forall q, c = Number q -> 0 <= q /\ q <= 1) ->
             let r := match c with
                      | Number q => (Num.of_Z (Num.round (q * 1000)) / 1000)%js
                      | _ => 0
                      end in
             0 <= r /\ r <= 1 /\ roundTo r 3 = r).
  { intros c Hq. destruct c as [| | |q]; cbv zeta;
      try (split; [lra|split; [lra|reflexivity]]).
    destruct (Hq q eq_refl) as [L U].
    destruct (round_thousandths q L U) as (E & L' & U').
    split; [exact L'|]. split; [exact U'|].
    rewrite E. apply roundTo_fixed. }
  set (c := match WorkerMessage.firstToSecondRelativeStrength result with
            | Some value => WorkerMessage.clamp_unit value
            | None => match WorkerMessage.strength result with
                      | Some value => WorkerMessage.clamp_unit value
                      | None => Number 0
                      end
            end).
  assert (Hq : forall q, c = Number q -> 0 <= q /\ q <= 1).
  { intros q. unfold c.
    destruct (WorkerMessage.firstToSecondRelativeStrength result) as [v|].
    - apply clamp_unit_bounds.
    - destruct (WorkerMessage.strength result) as [v|].
      + apply clamp_unit_bounds.
      + intro H. injection H as <-. lra. }
  destruct (Hc c Hq) as (L & U & E).
  split; [exact L|]. split; [exact U|]. split; [exact E|]. split.
  - intro H. rewrite H in Ek. discriminate.
  - exists result. split; [reflexivity|]. split; [reflexivity|].
    destruct (String.eqb (WorkerMessage.result_scale result) "minor") eqn:Em.
    + apply String.eqb_eq in Em. split; auto.
    + apply String.eqb_neq in Em. split; [discriminate|contradiction].
Qed.

Lemma worker_key_confidence_witness :
  let k := {| tonic := "A"; mode := minor; confidence := 1 |} in
  0 <= confidence k /\ confidence k <= 1 /\
  roundTo (confidence k) 3 = confidence k /\
  tonic k <> EmptyString /\
  exists result,
    WorkerMessage.KeyReturns (Some strong_result)
    = WorkerMessage.KeyReturns (Some result) /\
    tonic k = WorkerMessage.result_key result /\
    (mode k = minor <-> WorkerMessage.result_scale result = "minor").
Proof.
  apply (worker_key_confidence (WorkerMessage.KeyReturns (Some strong_result))
           {| tonic := "A"; mode := minor; confidence := 1 |}).
  reflexivity.
Defined.

Lemma finite_items_nil : WorkerMessage.finite_items [] = [].
Proof. reflexivity. Qed.

Lemma keptTicks_inside ticks duration_ :
  Forall (inside_track duration_) (Worker.keptTicks ticks duration_).
Proof.
  unfold Worker.keptTicks. apply Forall_forall. intros t Ht.
  apply filter_In in Ht. destruct Ht as [_ Ht].
  apply andb_true_iff in Ht. destruct Ht as [H0 H1]. bool_to_Q.
  split; [exact H0|]. revert H1. to_Q. intro H1.
  apply Qle_trans with (duration_ + 0.25); [exact H1|].
  apply Qplus_le_r. vm_compute. discriminate.
Qed.

(** X25.  The worker answers the messages of type ["analyze"] and no
    other.  Its response carries the request id and the song id of the
    message, and either an error and no analysis, when the beat detector
    throws, or an analysis and no error: in that analysis the beat
    timestamps are the finite ticks of the detector that lie between 0 and
    a quarter of a second past the duration, in their order, and the key
    is what [estimateKey] makes of the extractor's result. *)
Theorem worker_response (data : WorkerMessage.AnalyzeMessage)
        (rhythm : WorkerMessage.RhythmCall) (keyCall : WorkerMessage.KeyExtractorCall) :
  match WorkerMessage.onmessage (Some data) rhythm keyCall with
  | None => WorkerMessage.message_type data <> "analyze"
  | Some response =>
      WorkerMessage.message_type data = "analyze" /\
      WorkerMessage.response_requestId response = WorkerMessage.requestId data /\
      WorkerMessage.response_songId response = WorkerMessage.message_songId data /\
      match rhythm with
      | WorkerMessage.RhythmThrows _ =>
          WorkerMessage.response_analysis response = None /\
          WorkerMessage.response_error response <> None
      | WorkerMessage.RhythmReturns ticks =>
          WorkerMessage.response_error response = None /\
          exists a beats,
            WorkerMessage.response_analysis response = Some a /\
            beatTimestamps a = Some beats /\
            beats = Worker.keptTicks (WorkerMessage.toNumberArray ticks)
                                     (WorkerMessage.duration data) /\
            Forall (inside_track (WorkerMessage.duration data)) beats /\
            key a = WorkerMessage.estimateKey keyCall /\
            length (bpmSegments a)
            = length (fst (Worker.buildTempoMap beats (WorkerMessage.duration data))) /\
            (Sorted Qle (WorkerMessage.toNumberArray ticks) ->
             (analysis_bpm a = None <-> bpmSegments a = []) /\
             forall b, analysis_bpm a = Some b ->
                       Worker.BPM_MIN <= b /\ b <= Worker.BPM_MAX)
      end
  end.
Proof.
  unfold WorkerMessage.onmessage.
  destruct (String.eqb (WorkerMessage.message_type data) "analyze") eqn:Et;
    cbn [negb].
  - apply String.eqb_eq in Et. destruct rhythm as [message|ticks].
    + cbn. repeat split; auto. discriminate.
    + set (beats := Worker.keptTicks _ _).
      destruct (Worker.buildTempoMap beats (WorkerMessage.duration data))
        as [segments bpm_] eqn:Em.
      cbn [WorkerMessage.response_requestId WorkerMessage.response_songId
           WorkerMessage.response_analysis WorkerMessage.response_error].
      split; [exact Et|]. split; [reflexivity|]. split; [reflexivity|].
      split; [reflexivity|].
      eexists. exists beats. split; [reflexivity|].
      cbn [beatTimestamps key bpmSegments fst].
      split; [reflexivity|]. split; [reflexivity|].
      split; [apply keptTicks_inside|]. split; [reflexivity|].
      rewrite Em. split; [apply length_map|].
      intro Hsorted.
      pose proof (WorkerOrder.buildTempoMap_overall
                    beats (WorkerMessage.duration data)
                    (WorkerFacts.keptTicks_sorted _ _ Hsorted)) as Ho.
      rewrite Em in Ho. cbn [fst snd] in Ho.
      destruct segments as [|s rest].
      * rewrite Ho. cbn [falsy map]. split; [split; reflexivity|discriminate].
      * destruct Ho as (b & -> & L & U).
        assert (Hpos : 0 < b) by (unfold Worker.BPM_MIN in L; lra).
        rewrite (falsy_positive b Hpos). cbn [option_map map].
        split; [split; discriminate|].
        intros b' Hb'. injection Hb' as <-.
        change ((Num.of_Z (Num.round (b * 10)) / 10)%js) with (roundTo b 1). split.
        -- apply (roundTo_lower b 1 Worker.BPM_MIN 400); [reflexivity|exact L].
        -- apply (roundTo_upper b 1 Worker.BPM_MAX 2080); [reflexivity|exact U].
  - now apply String.eqb_neq in Et.
Qed.
(** ** Mixing down and resampling in the browser *)

Module ClientAudioFacts.

Import ClientAudio.






End ClientAudioFacts.


(** *** Resampling *)

Module ResampleFacts.

Import ClientAudio.







Lemma ratio_pos sourceRate targetRate :
  0 < sourceRate -> 0 < targetRate -> 0 < Num.div sourceRate targetRate.
Proof.
  intros Hs Ht. to_Q. apply Qlt_shift_div_l; [exact Ht|]. lra.
Qed.

End ResampleFacts.



(** X28.  Resampling nothing, at rates that differ, gives one sample
    that is [NaN]: the result is never empty, and its one read falls
    outside the input. *)
Theorem resampleLinear_of_nothing (sourceRate targetRate : Q) :
  0 < sourceRate -> 0 < targetRate -> ~ sourceRate == targetRate ->
  ClientAudio.resampleLinear [] sourceRate targetRate = [None].
Proof.
  intros Hs Ht Hne. unfold ClientAudio.resampleLinear.
  destruct (Num.eqb sourceRate targetRate) eqn:E.
  - apply NumFacts.eqb_eq in E. contradiction.
  - cbv zeta.
    pose proof (ResampleFacts.ratio_pos _ _ Hs Ht) as Hr.
    set (ratio := Num.div sourceRate targetRate) in *.
    assert (E0 : Num.round (Num.div (Num.of_Z (Zlength (@nil Q))) ratio) = 0%Z).
    { rewrite <- (round_of_Z 0). apply round_proper.
      change (Zlength (@nil Q)) with 0%Z. to_Q. change (inject_Z 0) with 0.
      field. lra. }
    rewrite E0. reflexivity.
Qed.

Lemma resampleLinear_of_nothing_witness :
  ClientAudio.resampleLinear [] 48000 44100 = [None].
Proof.
  apply (resampleLinear_of_nothing 48000 44100).
  - reflexivity.
  - reflexivity.
  - vm_compute. discriminate.
Defined.
(** ** The routes that serve the analysis *)

Section RouteFacts.

Context {lib : MathLib}.
Variable config : Routes.Config.
Variable byId : string -> option Routes.SongRecord.
Variable resolveWithinRoot : string -> string -> string -> option string.
Variable detailOf : Routes.SongRecord -> option string -> list (string * JsValue).

(** X29.  The analysis route answers whenever the cache directory can be
    written, with one of the statuses 200, 400, 404 and 503.  With status
    200 the body is the analysis, a value that is truthy; with any other
    status it is an error object.  When the cache file cannot be written
    the route may reject, and only then. *)
Theorem analysis_route_answers (id : string) (refresh : option string) (w : World) :
  exists outcome w',
    Routes.analysisRoute config byId resolveWithinRoot id refresh w = (outcome, w') /\
    outcome <> Pending /\
    (cacheWritable w = true -> exists response, outcome = Resolved response) /\
    forall response, outcome = Resolved response ->
      (Routes.status response = 200%Z /\ js_truthy (Some (Routes.body response)) = true)
      \/ (In (Routes.status response) [400; 404; 503]%Z /\
          exists message, Routes.body response = Routes.error_body message).
Proof.
  unfold Routes.analysisRoute.
  assert (Herr : forall code message,
             In code [400; 404; 503]%Z ->
             exists outcome w',
               ret {| Routes.status := code; Routes.body := Routes.error_body message |} w
               = (outcome, w') /\
               outcome <> Pending /\
               (cacheWritable w = true -> exists response, outcome = Resolved response) /\
               forall response, outcome = Resolved response ->
                 (Routes.status response = 200%Z
                  /\ js_truthy (Some (Routes.body response)) = true)
                 \/ (In (Routes.status response) [400; 404; 503]%Z /\
                     exists message, Routes.body response = Routes.error_body message)).
  { intros code message Hin. do 2 eexists. split; [reflexivity|].
    split; [discriminate|]. split; [eauto|].
    intros response H. injection H as <-. right. simpl. eauto. }
  destruct (byId id) as [song_|]; [|apply Herr; simpl; auto].
  destruct (if Routes.hasAudio song_ then Routes.truthy_file (Routes.audioFile song_)
            else None) as [file|]; [|apply Herr; simpl; auto].
  destruct (resolveWithinRoot _ _ file) as [audioPath_|]; [|apply Herr; simpl; auto].
  unfold bind.
  destruct (getSongAnalysis_runs
              {| audioPath := audioPath_; cacheDir := Routes.config_cacheDir config;
                 songId := Routes.song_id song_; force := Routes.flag refresh |} w)
    as (outcome & w' & E & Hp & Hw & Ht & _).
  rewrite E. destruct outcome as [[value|]|e|].
  - rewrite (Ht value eq_refl).
    do 2 eexists. split; [reflexivity|]. split; [discriminate|]. split; [eauto|].
    intros response H. injection H as <-. left. simpl. split; [reflexivity|].
    exact (Ht value eq_refl).
  - do 2 eexists. split; [reflexivity|]. split; [discriminate|]. split; [eauto|].
    intros response H. injection H as <-. right.
    split; [simpl; auto|eexists; reflexivity].
  - do 2 eexists. split; [reflexivity|]. split; [discriminate|]. split.
    + intro Hc. destruct (Hw Hc) as (r & Hr). discriminate.
    + discriminate.
  - contradiction.
Qed.


End RouteFacts.
